(** * ConcurrentQueue (con_queue.hpp): a shallow embedding and its properties

    (The list builders of [benchmark_script.hpp] are embedded after the
    queue, in the module [benchmark_script].)

    The queue of [con_queue.hpp] is a singly linked chain of heap nodes,
    owned through [std::unique_ptr] from [front_], with a raw back pointer
    [rear_] to the last node, a [std::size_t] counter [size_], a mutex and
    a condition variable.  The embedding keeps all of that:

    - nodes live in a heap [gmap addr Node]; a pointer is an [option addr]
      ([None] is [nullptr]); addresses are 64-bit and never 0;
    - queue objects live in a second map, keyed by the address of the
      object, so that [this != &other] is a comparison of keys;
    - [size_] is a [Z] and [size_++] / [size_--] wrap modulo [2^64];
    - every member function is a computation in a state monad over the
      store whose outcomes are: normal return, [std::bad_alloc] thrown by
      [std::make_unique], or no return at all (undefined behaviour, a
      lock that is never granted, a wait that is never satisfied).
*)

From stdpp Require Import gmap list strings.
From Stdlib Require Import ZArith Lia.

Local Open Scope Z_scope.

(** ** Addresses and allocation *)

Definition addr := N.
Abbreviation ptr := (option addr).

(** A node address is a non-null 64-bit pointer. *)
Definition valid_ptr (a : addr) : Prop := (0 < a < 2 ^ 64)%N.

#[global] Instance valid_ptr_dec a : Decision (valid_ptr a).
Proof. unfold valid_ptr. apply _. Defined.

(** [operator new], as [std::make_unique] uses it: given the set of live
    addresses it either returns a fresh one or fails ([std::bad_alloc]). *)
Class Allocator := {
  alloc : gset addr → option addr;
  alloc_fresh : ∀ D a, alloc D = Some a → a ∉ D;
  alloc_valid : ∀ D a, alloc D = Some a → valid_ptr a
}.

(** A concrete allocator: hand out the address after the largest live one. *)
Definition top (D : gset addr) : addr := foldr N.max 0%N (elements D).

Definition bump (D : gset addr) : option addr :=
  let a := N.succ (top D) in
  if decide (a < 2 ^ 64)%N then Some a else None.

(** ** The store *)

(** Modelled from the spec: [node.hpp] is not among the sources.  The
    spec's data model: a node holds one element value of type T and an
    exclusively-owned link to the next node (or none); [con_queue.hpp]
    uses it as [Node<T>(value)], [->data] and [->next]. *)
Record Node (T : Type) := mkNode { data : T; next : ptr }.
Arguments mkNode {T} _ _.
Arguments data {T} _.
Arguments next {T} _.

(** The data members of [ConcurrentQueue<T>].  [mutex_] is [true] while
    the mutex is held; the condition variable has no state of its own. *)
Record ConcurrentQueue := mkQueue {
  front_ : ptr;
  rear_ : ptr;
  size_ : Z;
  mutex_ : bool
}.

Definition qid := N.

Record store (T : Type) := mkStore {
  nodes : gmap addr (Node T);
  queues : gmap qid ConcurrentQueue
}.
Arguments mkStore {T} _ _.
Arguments nodes {T} _.
Arguments queues {T} _.

(** Why a computation does not return. *)
Inductive halt :=
  | NullDeref      (* [*p] or [p->] with [p == nullptr] *)
  | Dangling       (* access to a node that is not live *)
  | NoObject       (* member call on a queue object that is not live *)
  | Occupied       (* construction in storage that holds a live object *)
  | Deadlock       (* [lock] on a mutex that is held and never released *)
  | BadUnlock      (* [unlock] on a mutex that is not held *)
  | Blocked        (* a condition wait whose predicate never becomes true *)
  | Diverged.      (* a loop that does not end *)

Inductive outcome (T A : Type) :=
  | Ok (a : A) (σ : store T)
  | BadAlloc (σ : store T)
  | Stuck (e : halt).
Arguments Ok {T A} _ _.
Arguments BadAlloc {T A} _.
Arguments Stuck {T A} _.

Definition size_max : Z := 2 ^ 64.

(** ** The monad of member functions *)

Section Queue.
Context {T : Type} `{Allocator}.

Definition M (A : Type) : Type := store T → outcome T A.

Definition ret {A} (a : A) : M A := λ σ, Ok a σ.

Definition bind {A B} (m : M A) (k : A → M B) : M B := λ σ,
  match m σ with
  | Ok a σ' => k a σ'
  | BadAlloc σ' => BadAlloc σ'
  | Stuck e => Stuck e
  end.

Definition stuck {A} (e : halt) : M A := λ _, Stuck e.

(** Run [cleanup] when [m] is left, by return or by exception: the
    destructor of a scoped object. *)
Definition finally {A} (m : M A) (cleanup : M unit) : M A := λ σ,
  match m σ with
  | Ok a σ' => bind cleanup (λ _, ret a) σ'
  | BadAlloc σ' =>
      match cleanup σ' with
      | Ok _ σ'' => BadAlloc σ''
      | BadAlloc σ'' => BadAlloc σ''
      | Stuck e => Stuck e
      end
  | Stuck e => Stuck e
  end.

(** Run [undo] only when [m] throws, then rethrow. *)
Definition on_throw {A} (m : M A) (undo : M unit) : M A := λ σ,
  match m σ with
  | Ok a σ' => Ok a σ'
  | BadAlloc σ' =>
      match undo σ' with
      | Ok _ σ'' => BadAlloc σ''
      | BadAlloc σ'' => BadAlloc σ''
      | Stuck e => Stuck e
      end
  | Stuck e => Stuck e
  end.

#[global] Instance M_ret : MRet M := @ret.
#[global] Instance M_bind : MBind M := λ A B k m, bind m k.

(** *** Queue objects and their fields *)

Definition get_queue (q : qid) : M ConcurrentQueue := λ σ,
  match queues σ !! q with
  | Some o => Ok o σ
  | None => Stuck NoObject
  end.

Definition put_queue (q : qid) (o : ConcurrentQueue) : M unit := λ σ,
  Ok tt (mkStore (nodes σ) (<[q := o]> (queues σ))).

Definition get_front (q : qid) : M ptr := o ← get_queue q; mret (front_ o).
Definition get_rear (q : qid) : M ptr := o ← get_queue q; mret (rear_ o).
Definition get_size (q : qid) : M Z := o ← get_queue q; mret (size_ o).

Definition set_front (q : qid) (p : ptr) : M unit :=
  o ← get_queue q; put_queue q (mkQueue p (rear_ o) (size_ o) (mutex_ o)).
Definition set_rear (q : qid) (p : ptr) : M unit :=
  o ← get_queue q; put_queue q (mkQueue (front_ o) p (size_ o) (mutex_ o)).
Definition set_size (q : qid) (n : Z) : M unit :=
  o ← get_queue q; put_queue q (mkQueue (front_ o) (rear_ o) n (mutex_ o)).

(** *** Nodes *)

(** [*p]: the node [p] points to. *)
Definition load (p : ptr) : M (Node T) := λ σ,
  match p with
  | None => Stuck NullDeref
  | Some a =>
      match nodes σ !! a with
      | Some nd => Ok nd σ
      | None => Stuck Dangling
      end
  end.

(** [p->next = n] *)
Definition set_next (p n : ptr) : M unit := λ σ,
  match p with
  | None => Stuck NullDeref
  | Some a =>
      match nodes σ !! a with
      | Some nd =>
          Ok tt (mkStore (<[a := mkNode (data nd) n]> (nodes σ)) (queues σ))
      | None => Stuck Dangling
      end
  end.

(** [std::make_unique<Node<T>>(value)]: a fresh node with no successor. *)
Definition make_unique (value : T) : M ptr := λ σ,
  match alloc (dom (nodes σ)) with
  | Some a =>
      Ok (Some a) (mkStore (<[a := mkNode value None]> (nodes σ)) (queues σ))
  | None => BadAlloc σ
  end.

(** [operator delete] *)
Definition free (a : addr) : M unit := λ σ,
  Ok tt (mkStore (delete a (nodes σ)) (queues σ)).

(** The number of live nodes: a bound on the length of any chain. *)
Definition heap_size : M nat := λ σ, Ok (size (nodes σ)) σ.

(** [delete p]: the destructor of a node first destroys its [next]
    member, which deletes the rest of the chain, then the node's storage
    is released.  [fuel] bounds the depth of the recursion. *)
Fixpoint delete_chain (fuel : nat) (p : ptr) : M unit :=
  match p with
  | None => mret tt
  | Some a =>
      match fuel with
      | O => stuck Diverged
      | S fuel' =>
          nd ← load p;
          delete_chain fuel' (next nd);;
          free a
      end
  end.

(** The deleter of a [unique_ptr<Node<T>>]; no live chain is longer than
    the heap. *)
Definition delete_ptr (p : ptr) : M unit :=
  n ← heap_size; delete_chain n p.

(** [p->next.release()] *)
Definition release_next (p : ptr) : M ptr :=
  nd ← load p; set_next p None;; mret (next nd).

(** [q.front_.release()] *)
Definition release_front (q : qid) : M ptr :=
  p ← get_front q; set_front q None;; mret p.

(** [q.front_.reset(p)]: store [p], then delete what was owned before. *)
Definition reset_front (q : qid) (p : ptr) : M unit :=
  old ← get_front q; set_front q p;; delete_ptr old.

(** [p->next.reset(n)]: store [n], then delete what was owned before. *)
Definition reset_next (p n : ptr) : M unit :=
  nd ← load p; set_next p n;; delete_ptr (next nd).

(** *** The mutex and the condition variable *)

(** [mutex_.lock()]: a mutex that is held stays held, for nothing else
    runs during a member call but the interference of a wait. *)
Definition lock (q : qid) : M unit :=
  o ← get_queue q;
  if mutex_ o then stuck Deadlock
  else put_queue q (mkQueue (front_ o) (rear_ o) (size_ o) true).

Definition unlock (q : qid) : M unit :=
  o ← get_queue q;
  if mutex_ o then put_queue q (mkQueue (front_ o) (rear_ o) (size_ o) false)
  else stuck BadUnlock.

(** [std::lock_guard] / [std::unique_lock] around [body]. *)
Definition lock_guard {A} (q : qid) (body : M A) : M A :=
  lock q;; finally body (unlock q).

(** [std::lock(a, b)] followed by two adopting guards around [body]. *)
Definition lock_both {A} (a b : qid) (body : M A) : M A :=
  lock a;; lock b;; finally (finally body (unlock b)) (unlock a).

(** [not_empty_cv_.notify_one()]: the waiting threads are not part of the
    store; what they do shows up as the interference of a wait. *)
Definition notify_one (q : qid) : M unit := mret tt.

(** What the other threads do to the store while a waiting thread has
    released the mutex. *)
Definition interference : Type := store T → store T.

Definition interfere (ev : interference) : M unit := λ σ, Ok tt (ev σ).

(** One return of [wait_until(lock, deadline)]: the interference during
    the sleep, and whether the return is a timeout. *)
Record wakeup := mkWakeup { during : interference; timed_out : bool }.

(** ** The member functions of [ConcurrentQueue<T>] *)

(** [ConcurrentQueue() = default]: the default member initialisers. *)
Definition construct (this : qid) : M unit := λ σ,
  match queues σ !! this with
  | Some _ => Stuck Occupied
  | None =>
      Ok tt (mkStore (nodes σ)
               (<[this := mkQueue None None 0 false]> (queues σ)))
  end.

(** The storage of the object [this] is given back. *)
Definition end_of_life (this : qid) : M unit := λ σ,
  Ok tt (mkStore (nodes σ) (delete this (queues σ))).

(** [~ConcurrentQueue() = default]: [front_] deletes the chain. *)
Definition destroy (this : qid) : M unit :=
  f ← get_front this;
  delete_ptr f;;
  end_of_life this.

(** [bool empty_unsafe() const { return front_ == nullptr; }] *)
Definition empty_unsafe (this : qid) : M bool :=
  f ← get_front this; mret (bool_decide (f = None)).

(** [void push_unsafe(T value)].  [front_ = std::move(newNode)] and
    [rear_->next = std::move(newNode)] are [reset]s of the pointer on the
    left to the node that [newNode] gives up. *)
Definition push_unsafe (this : qid) (value : T) : M unit :=
  newNode ← make_unique value;
  f ← get_front this;
  (if decide (f = None) then
     reset_front this newNode;;
     f' ← get_front this;
     set_rear this f'
   else
     r ← get_rear this;
     reset_next r newNode;;
     nd ← load r;
     set_rear this (next nd));;
  s ← get_size this;
  set_size this ((s + 1) mod size_max).

(** [void push(T value)] *)
Definition push (this : qid) (value : T) : M unit :=
  lock_guard this (push_unsafe this value);;
  notify_one this.

(** [bool try_pop(T& value)]: the result is the returned flag and the
    content of [value] after the call. *)
Definition try_pop (this : qid) (value : T) : M (bool * T) :=
  lock_guard this (
    e ← empty_unsafe this;
    if (e : bool) then mret (false, value)
    else
      f ← get_front this;
      nd ← load f;
      let value := data nd in
      r ← get_rear this;
      (if decide (f = r) then set_rear this None else mret tt);;
      f ← get_front this;
      nx ← release_next f;
      reset_front this nx;;
      s ← get_size this;
      set_size this ((s - 1) mod size_max);;
      mret (true, value)).

(** [not_empty_cv_.wait(lock, pred)], that is
    [while (!pred()) wait(lock);].  Each [wait(lock)] releases the
    mutex, lets the other threads run and takes the mutex again; with no
    wake-up left the thread sleeps for ever. *)
Fixpoint cv_wait (this : qid) (env : list interference) : M unit :=
  e ← empty_unsafe this;
  if negb e then mret tt
  else
    match env with
    | [] => stuck Blocked
    | ev :: env' =>
        unlock this;; interfere ev;; lock this;;
        cv_wait this env'
    end.

(** [void pop(T& value)]: the result is the content of [value] after
    the call. *)
Definition pop (this : qid) (value : T) (env : list interference) : M T :=
  lock_guard this (
    cv_wait this env;;
    f ← get_front this;
    nd ← load f;
    let value := data nd in
    r ← get_rear this;
    (if decide (f = r) then set_rear this None else mret tt);;
    f ← get_front this;
    nx ← release_next f;
    reset_front this nx;;
    s ← get_size this;
    set_size this ((s - 1) mod size_max);;
    mret value).

(** [not_empty_cv_.wait_for(lock, timeout, pred)], that is
    [while (!pred()) if (wait_until(lock, deadline) == timeout)
       return pred();  return true;].
    When the list of wake-ups is used up the deadline passes with no
    interference. *)
Fixpoint cv_wait_for (this : qid) (env : list wakeup) : M bool :=
  e ← empty_unsafe this;
  if negb e then mret true
  else
    match env with
    | [] =>
        unlock this;; lock this;;
        e' ← empty_unsafe this; mret (negb e')
    | w :: env' =>
        unlock this;; interfere (during w);; lock this;;
        if timed_out w then e' ← empty_unsafe this; mret (negb e')
        else cv_wait_for this env'
    end.

(** [bool pop(T& value, std::chrono::milliseconds timeout)]: the timeout
    is in [env], as the wake-up at which the deadline has passed. *)
Definition pop_for (this : qid) (value : T) (env : list wakeup)
  : M (bool * T) :=
  lock_guard this (
    success ← cv_wait_for this env;
    if negb success then mret (false, value)
    else
      f ← get_front this;
      nd ← load f;
      let value := data nd in
      r ← get_rear this;
      (if decide (f = r) then set_rear this None else mret tt);;
      f ← get_front this;
      nx ← release_next f;
      reset_front this nx;;
      s ← get_size this;
      set_size this ((s - 1) mod size_max);;
      mret (true, value)).

(** [bool empty() const] *)
Definition empty (this : qid) : M bool :=
  lock_guard this (empty_unsafe this).

(** [std::size_t size() const] *)
Definition size (this : qid) : M Z :=
  lock_guard this (get_size this).

(** [bool try_peek(T& value) const] *)
Definition try_peek (this : qid) (value : T) : M (bool * T) :=
  lock_guard this (
    e ← empty_unsafe this;
    if (e : bool) then mret (false, value)
    else
      f ← get_front this;
      nd ← load f;
      mret (true, data nd)).

(** [while (current != nullptr) { ins(current->data);
      current = current->next.get(); }] *)
Fixpoint copy_loop (ins : T → M unit) (fuel : nat) (current : ptr)
  : M unit :=
  match current with
  | None => mret tt
  | Some _ =>
      match fuel with
      | O => stuck Diverged
      | S fuel' =>
          nd ← load current;
          ins (data nd);;
          nd' ← load current;
          copy_loop ins fuel' (next nd')
      end
  end.

(** [ConcurrentQueue(const ConcurrentQueue& other)].  When [push] throws,
    the guard releases [other]'s mutex and the members constructed so far
    are destroyed. *)
Definition copy_ctor (this other : qid) : M unit :=
  construct this;;
  on_throw
    (lock_guard other (
       current ← get_front other;
       n ← heap_size;
       copy_loop (push this) n current))
    (destroy this).

(** [ConcurrentQueue(ConcurrentQueue&& other) noexcept] *)
Definition move_ctor (this other : qid) : M unit :=
  construct this;;
  lock_guard other (
    p ← release_front other;
    reset_front this p;;
    r ← get_rear other;
    set_rear this r;;
    s ← get_size other;
    set_size this s;;
    set_rear other None;;
    set_size other 0).

(** [ConcurrentQueue& operator=(const ConcurrentQueue& other)] *)
Definition copy_assign (this other : qid) : M unit :=
  if decide (this ≠ other) then
    lock_both this other (
      reset_front this None;;
      set_rear this None;;
      set_size this 0;;
      current ← get_front other;
      n ← heap_size;
      copy_loop (push_unsafe this) n current)
  else mret tt.

(** [ConcurrentQueue& operator=(ConcurrentQueue&& other) noexcept] *)
Definition move_assign (this other : qid) : M unit :=
  if decide (this ≠ other) then
    lock_both this other (
      p ← release_front other;
      reset_front this p;;
      r ← get_rear other;
      set_rear this r;;
      s ← get_size other;
      set_size this s;;
      set_rear other None;;
      set_size other 0)
  else mret tt.

(** *** Client code: sequences of calls *)

(** [for (v : vs) q.push(v);] *)
Fixpoint push_all (q : qid) (vs : list T) : M unit :=
  match vs with
  | [] => mret tt
  | v :: vs' => push q v;; push_all q vs'
  end.

(** The three ways to take an element out. *)
Inductive remover :=
  | ByTryPop
  | ByPop (env : list interference)
  | ByPopFor (env : list wakeup).

(** One removal into a variable that holds [value]: the element, if the
    call reports one. *)
Definition remove (q : qid) (value : T) (r : remover) : M (option T) :=
  match r with
  | ByTryPop =>
      res ← try_pop q value;
      mret (if (fst res : bool) then Some (snd res) else None)
  | ByPop env =>
      v ← pop q value env;
      mret (Some v)
  | ByPopFor env =>
      res ← pop_for q value env;
      mret (if (fst res : bool) then Some (snd res) else None)
  end.

Fixpoint remove_all (q : qid) (value : T) (rs : list remover)
  : M (list (option T)) :=
  match rs with
  | [] => mret []
  | r :: rs' =>
      x ← remove q value r;
      xs ← remove_all q value rs';
      mret (x :: xs)
  end.

(** What the other threads have done to the store when a timed wait that
    started in [σ] gives up: the interference of every wake-up until the
    first timeout. *)
Fixpoint after_wakeups (env : list wakeup) (σ : store T) : store T :=
  match env with
  | [] => σ
  | w :: env' =>
      if timed_out w then during w σ
      else after_wakeups env' (during w σ)
  end.

(** A thread that is alone with the queue: it owns one variable of type
    T that it passes to every call with an out-parameter, and when it
    waits, every wake-up is a spurious one. *)
Inductive call :=
  | CallPush (v : T)
  | CallTryPop
  | CallPop (wakeups : nat)
  | CallPopFor (timed_outs : list bool)
  | CallTryPeek
  | CallSize
  | CallEmpty.

(** What a call gives back, the out-parameter apart. *)
Inductive reply :=
  | Done
  | Flag (b : bool)
  | Count (n : Z).

(** The wake-ups of a timed wait while no other thread runs: each is
    spurious, or it is the timeout. *)
Definition spurious (timed_outs : list bool) : list wakeup :=
  mkWakeup id <$> timed_outs.

(** One call: the reply and the content of the variable afterwards. *)
Definition do_call (q : qid) (value : T) (c : call) : M (reply * T) :=
  match c with
  | CallPush v => push q v;; mret (Done, value)
  | CallTryPop => res ← try_pop q value; mret (Flag (fst res), snd res)
  | CallPop n => v ← pop q value (replicate n id); mret (Done, v)
  | CallPopFor ws =>
      res ← pop_for q value (spurious ws); mret (Flag (fst res), snd res)
  | CallTryPeek => res ← try_peek q value; mret (Flag (fst res), snd res)
  | CallSize => n ← size q; mret (Count n, value)
  | CallEmpty => b ← empty q; mret (Flag b, value)
  end.

Fixpoint do_calls (q : qid) (value : T) (cs : list call)
  : M (list reply * T) :=
  match cs with
  | [] => mret ([], value)
  | c :: cs' =>
      r ← do_call q value c;
      rs ← do_calls q (snd r) cs';
      mret (fst r :: fst rs, snd rs)
  end.

(** [{ ConcurrentQueue<T> q; body }]: a queue with automatic storage;
    its destructor runs when [body] is left, by return or by exception. *)
Definition scoped {A} (q : qid) (body : M A) : M A :=
  construct q;; finally body (destroy q).

(** The same calls on a plain sequence, front first: the reply, the
    variable and the sequence afterwards, or nothing when the call waits
    for ever. *)
Definition list_call (l : list T) (value : T) (c : call)
  : option (reply * T * list T) :=
  match c with
  | CallPush v => Some (Done, value, l ++ [v])
  | CallTryPop | CallPopFor _ =>
      match l with
      | [] => Some (Flag false, value, [])
      | x :: l' => Some (Flag true, x, l')
      end
  | CallPop _ =>
      match l with
      | [] => None
      | x :: l' => Some (Done, x, l')
      end
  | CallTryPeek =>
      match l with
      | [] => Some (Flag false, value, [])
      | x :: _ => Some (Flag true, x, l)
      end
  | CallSize => Some (Count (Z.of_nat (length l)), value, l)
  | CallEmpty =>
      Some (Flag (match l with [] => true | _ => false end), value, l)
  end.

Fixpoint list_calls (l : list T) (value : T) (cs : list call)
  : option (list reply * T * list T) :=
  match cs with
  | [] => Some ([], value, l)
  | c :: cs' =>
      match list_call l value c with
      | None => None
      | Some (r, value', l') =>
          match list_calls l' value' cs' with
          | None => None
          | Some (rs, value'', l'') => Some (r :: rs, value'', l'')
          end
      end
  end.

(** ** Code that the member functions spell out more than once *)

(** The removal that [try_pop] and both [pop]s spell out, with what
    follows it as [k]. *)
Definition removal {B} (this : qid) (k : T → M B) : M B :=
  f ← get_front this;
  nd ← load f;
  r ← get_rear this;
  (if decide (f = r) then set_rear this None else mret tt);;
  f ← get_front this;
  nx ← release_next f;
  reset_front this nx;;
  s ← get_size this;
  set_size this ((s - 1) mod size_max);;
  k (data nd).

(** The transfer that the move constructor and move assignment spell
    out. *)
Definition transfer (this other : qid) : M unit :=
  p ← release_front other;
  reset_front this p;;
  r ← get_rear other;
  set_rear this r;;
  s ← get_size other;
  set_size this s;;
  set_rear other None;;
  set_size other 0.

End Queue.

(** ** Chains, contents and the invariant *)

Section Invariant.
Context {T : Type} `{Allocator}.
Implicit Types (h : gmap addr (Node T)) (σ : store T) (o : ConcurrentQueue).
Implicit Types (xs : list (addr * T)).

(** Follow [next] from [p] for exactly [n] nodes and arrive at
    [nullptr]: the addresses and values met, in order. *)
Fixpoint chain h (p : ptr) (n : nat) : option (list (addr * T)) :=
  match n, p with
  | O, None => Some []
  | S n', Some a =>
      nd ← h !! a;
      xs ← chain h (next nd) n';
      Some ((a, data nd) :: xs)
  | _, _ => None
  end.

(** The same as a relation: [lseg h p xs e] when the nodes [xs] lead from
    [p] to [e]. *)
Fixpoint lseg h (p : ptr) (xs : list (addr * T)) (e : ptr) : Prop :=
  match xs with
  | [] => p = e
  | x :: xs' =>
      p = Some x.1 ∧ ∃ nx, h !! x.1 = Some (mkNode x.2 nx) ∧ lseg h nx xs' e
  end.

(** The nodes a queue object reaches in [size_] steps. *)
Definition cells h o : option (list (addr * T)) :=
  chain h (front_ o) (Z.to_nat (size_ o)).

Definition owned h o : list addr := default [] ((λ xs, xs.*1) <$> cells h o).

(** The structural invariant of one queue: the chain from [front_] has
    exactly [size_] nodes and [rear_] is its last one ([nullptr] when
    there is none). *)
Definition queue_ok h o : Prop :=
  0 ≤ size_ o < size_max ∧
  match cells h o with
  | Some xs => rear_ o = last xs.*1
  | None => False
  end.

#[global] Instance queue_ok_dec h o : Decision (queue_ok h o).
Proof. unfold queue_ok. destruct (cells h o); apply _. Defined.

(** The invariant of the store between member calls: every queue is
    well formed and its mutex is free, no node belongs to two queues, and
    every live node has a valid address. *)
Definition wf σ : Prop :=
  map_Forall (λ _ o, queue_ok (nodes σ) o ∧ mutex_ o = false) (queues σ) ∧
  map_Forall (λ q1 o1,
    map_Forall (λ q2 o2,
      q1 ≠ q2 → Forall (λ a, a ∉ owned (nodes σ) o2) (owned (nodes σ) o1))
      (queues σ)) (queues σ) ∧
  map_Forall (λ a _, valid_ptr a) (nodes σ).

#[global] Instance wf_dec σ : Decision (wf σ).
Proof. unfold wf. apply _. Defined.

(** The elements of queue [q], front first. *)
Definition contents σ (q : qid) : option (list T) :=
  o ← queues σ !! q;
  xs ← cells (nodes σ) o;
  Some xs.*2.

(** [shape h o xs]: the queue object [o] holds exactly the nodes [xs]. *)
Definition shape h o xs : Prop :=
  lseg h (front_ o) xs None ∧ rear_ o = last xs.*1 ∧
  size_ o = Z.of_nat (length xs) ∧ size_ o < size_max.

Definition cells_of σ (q : qid) : option (list (addr * T)) :=
  o ← queues σ !! q; cells (nodes σ) o.

(** Which mutexes are held. *)
Definition locks σ : gmap qid bool := mutex_ <$> queues σ.

(** [wf] without the mutexes: what holds in the middle of a member call
    too. *)
Definition coherent σ : Prop :=
  (∀ q o, queues σ !! q = Some o → ∃ xs, shape (nodes σ) o xs) ∧
  (∀ q1 q2 o1 o2 xs1 xs2 a, q1 ≠ q2 →
     queues σ !! q1 = Some o1 → queues σ !! q2 = Some o2 →
     shape (nodes σ) o1 xs1 → shape (nodes σ) o2 xs2 →
     a ∈ xs1.*1 → a ∉ xs2.*1) ∧
  (∀ a nd, nodes σ !! a = Some nd → valid_ptr a).

Definition unlocked σ : Prop := ∀ q, locks σ !! q ≠ Some true.

(** Between [σ] and [σ'] only the queues in [X] changed. *)
Definition changes_only (X : list qid) σ σ' : Prop :=
  ∀ q, q ∉ X → cells_of σ' q = cells_of σ q.

(** [σ'] is [σ] with the mutex of [q] set to [b]. *)
Definition relocked (q : qid) (b : bool) σ σ' : Prop :=
  coherent σ' ∧ changes_only [] σ σ' ∧ locks σ' = <[q := b]> (locks σ).

(** The state after a removal from [q], whose object was [o] and whose
    front node was [a] with successor [nx]. *)
Definition removed σ (q : qid) o (a : addr) (nx : ptr) : store T :=
  mkStore (delete a (nodes σ))
    (<[q := mkQueue nx (if decide (Some a = rear_ o) then None else rear_ o)
              ((size_ o - 1) mod size_max) false]> (queues σ)).

(** [σ] with the mutex of [q], whose object is [o], set to [b]. *)
Definition with_mutex (b : bool) (q : qid) o σ : store T :=
  mkStore (nodes σ)
    (<[q := mkQueue (front_ o) (rear_ o) (size_ o) b]> (queues σ)).

(** A wake-up during which the other threads do nothing. *)
Definition idle (w : @wakeup T) : Prop := ∀ σ, during w σ = σ.

(** Queue [q] is in [σ'] what it was in [σ]: same elements, same
    [front_], [rear_] and [size_]. *)
Definition undisturbed (q : qid) σ σ' : Prop :=
  contents σ' q = contents σ q ∧ queues σ' !! q = queues σ !! q.



(** Nothing has leaked: every live node belongs to a queue. *)
Definition no_leak σ : Prop :=
  map_Forall (λ a _,
    Exists (λ o, a ∈ owned (nodes σ) o) (map_to_list (queues σ)).*2)
    (nodes σ).

#[global] Instance no_leak_dec σ : Decision (no_leak σ).
Proof. unfold no_leak. apply _. Defined.

(** The state after a push of [v] to [q], whose object was [o] in a
    coherent store, into the fresh node [a]. *)
Definition pushed σ (q : qid) o (a : addr) (v : T) : store T :=
  mkStore
    (match front_ o, rear_ o with
     | Some _, Some r =>
         alter (λ nd, mkNode (data nd) (Some a)) r
           (<[a := mkNode v None]> (nodes σ))
     | _, _ => <[a := mkNode v None]> (nodes σ)
     end)
    (<[q := mkQueue (if front_ o is Some f then Some f else Some a) (Some a)
              ((size_ o + 1) mod size_max) (mutex_ o)]> (queues σ)).

(** The state after the nodes [xs] of [this] are deleted and [this]
    takes over the chain of [other], whose object was [oo]. *)
Definition moved σ (this other : qid) xs oo : store T :=
  mkStore (foldr delete (nodes σ) xs.*1)
    (<[other := mkQueue None None 0 false]>
       (<[this := mkQueue (front_ oo) (rear_ oo) (size_ oo) false]>
          (queues σ))).

(** The state after queue [q], which held the nodes [xs], is destroyed. *)
Definition destroyed σ (q : qid) xs : store T :=
  mkStore (foldr delete (nodes σ) xs.*1) (delete q (queues σ)).

(** What the other threads do keeps the invariant [J] of well-formed
    stores in which [q] is live. *)
Definition keeps (J : store T → Prop) (q : qid) (ev : @interference T)
  : Prop :=
  ∀ s, wf s → J s → is_Some (queues s !! q) →
       wf (ev s) ∧ J (ev s) ∧ is_Some (queues (ev s) !! q).

(** [σ'] is [σ] with one more queue, [q], made of nodes that are not
    live in [σ]; the rest is as in [σ]. *)
Definition extends σ σ' (q : qid) : Prop :=
  wf σ' ∧ queues σ !! q = None ∧
  (∀ q2, q2 ≠ q → queues σ' !! q2 = queues σ !! q2) ∧
  ∃ zs, cells_of σ' q = Some zs ∧
        (∀ a, a ∉ zs.*1 → nodes σ' !! a = nodes σ !! a) ∧
        (∀ a, a ∈ zs.*1 → nodes σ !! a = None).

(** The call [m] in [σ] comes back, by return or by exception, and
    leaves [σ']. *)
Definition ends_in {A} (m : M A) σ σ' : Prop :=
  (∃ a, m σ = Ok a σ') ∨ m σ = BadAlloc σ'.

(** Outside the addresses [new], the heap [h'] is the heap [h] without
    the nodes at [gone]. *)
Definition heap_diff h h' (gone new : list addr) : Prop :=
  ∀ a, a ∉ new → h' !! a = if decide (a ∈ gone) then None else h !! a.

(** Between [σ] and [σ'] the nodes at [zs] were allocated, and no node
    outside [ys] and [zs] has changed. *)
Definition grown σ σ' (ys zs : list addr) : Prop :=
  (∀ b, b ∉ ys → b ∉ zs → nodes σ' !! b = nodes σ !! b) ∧
  (∀ b, b ∈ zs → nodes σ !! b = None).

(** The invariant of one queue as the specification words it. *)
Definition structural_invariant h o : Prop :=
  (front_ o = None ↔ rear_ o = None) ∧
  (rear_ o = None ↔ size_ o = 0) ∧
  ∃ xs, chain h (front_ o) (Z.to_nat (size_ o)) = Some xs ∧
        Z.of_nat (length xs) = size_ o ∧ rear_ o = last xs.*1.

(** What the other threads do keeps the store well formed. *)
Definition preserves_wf (ev : @interference T) : Prop := ∀ σ, wf σ → wf (ev σ).

(** The store is coherent and only the mutex of [q] is held. *)
Definition held (q : qid) σ : Prop :=
  coherent σ ∧ locks σ !! q = Some true ∧
  ∀ q2, q2 ≠ q → locks σ !! q2 ≠ Some true.

(** [m] never waits on the condition variable for ever. *)
Definition quiet {A} (m : M A) : Prop := ∀ σ, m σ ≠ Stuck Blocked.

(** [wp m Q E σ]: started in [σ], [m] returns in a state that satisfies
    [Q], or throws in a state that satisfies [E]; it does not get stuck. *)
Definition wp {A} (m : M A) (Q : A → store T → Prop) (E : store T → Prop) σ
  : Prop :=
  match m σ with
  | Ok a σ' => Q a σ'
  | BadAlloc σ' => E σ'
  | Stuck _ => False
  end.

End Invariant.

(** ** The benchmark script (benchmark_script.hpp): the list builders *)

Module benchmark_script.
Local Open Scope string_scope.

(** [using vector_stack_t = vector_stack<int>] and
    [using list_stack_t = list_stack<int>]: the two containers the stack
    benchmarks are instantiated with. *)
Inductive stack_t := vector_stack_t | list_stack_t.

(** Modelled from the spec: the benchmark classes are not among the
    sources; the spec keeps them out as external collaborators, thin
    harness code that calls the queue or stack and records the elapsed
    time.  A benchmark object is kept as the record of the constructor
    call that made it: the class, and the arguments as
    [benchmark_script.hpp] passes them. *)
Inductive benchmark :=
  | stack_mutex_benchmark (S : stack_t) (name : string)
      (prod_count cons_count elem_count : Z)
  | stack_cv_benchmark (S : stack_t) (name : string)
      (prod_count cons_count elem_count : Z)
  | queue_mutex_benchmark (name : string)
      (prod_count cons_count elem_count : Z)
  | queue_cv_benchmark (name : string)
      (prod_count cons_count elem_count : Z)
  | lock_free_queue_benchmark (name : string)
      (prod_count cons_count elem_count : Z)
  | reader_writer_queue_benchmark (name : string) (elem_count : Z).

(** [using benchmark_list_t = std::vector<std::unique_ptr<benchmark_base>>];
    [emplace_back] appends at the end. *)
Definition benchmark_list_t := list benchmark.

Definition emplace_back (list : benchmark_list_t) (b : benchmark)
  : benchmark_list_t := (list ++ [b])%list.

Definition single_producer : Z := 1.
Definition single_consumer : Z := 1.

(** The builders take the list by reference and return nothing; here
    they return the list as they leave it. *)
Definition add_vector_stack_benchmarks (list : benchmark_list_t)
    (prod_count cons_count elem_count : Z) : benchmark_list_t :=
  let list :=
    emplace_back list
      (stack_mutex_benchmark vector_stack_t "vector_stack (mutex)"
         prod_count cons_count elem_count) in
  emplace_back list
    (stack_cv_benchmark vector_stack_t "vector_stack (cv)"
       prod_count cons_count elem_count).

Definition add_list_stack_benchmarks (list : benchmark_list_t)
    (prod_count cons_count elem_count : Z) : benchmark_list_t :=
  let list :=
    emplace_back list
      (stack_mutex_benchmark list_stack_t "list_stack (mutex)"
         prod_count cons_count elem_count) in
  emplace_back list
    (stack_cv_benchmark list_stack_t "list_stack (cv)"
       prod_count cons_count elem_count).

Definition add_stack_benchmarks (list : benchmark_list_t)
    (prod_count cons_count elem_count : Z) : benchmark_list_t :=
  let list :=
    add_vector_stack_benchmarks list prod_count cons_count elem_count in
  add_list_stack_benchmarks list prod_count cons_count elem_count.

Definition add_queue_benchmarks (list : benchmark_list_t)
    (prod_count cons_count elem_count : Z) : benchmark_list_t :=
  let list :=
    emplace_back list
      (queue_mutex_benchmark "two_stack_queue (mutex)"
         prod_count cons_count elem_count) in
  emplace_back list
    (queue_cv_benchmark "two_stack_queue (cv)"
       prod_count cons_count elem_count).

Definition add_lockfree_benchmarks (list : benchmark_list_t)
    (prod_count cons_count elem_count : Z) : benchmark_list_t :=
  let list :=
    emplace_back list
      (lock_free_queue_benchmark "moodycamel::ConcurrentQueue"
         prod_count cons_count elem_count) in
  if ((prod_count =? single_producer) && (cons_count =? single_consumer))%Z
  then
    emplace_back list
      (reader_writer_queue_benchmark "moodycamel::ReaderWriterQueue"
         elem_count)
  else list.

Definition create_all_benchmarks (prod_count cons_count elem_count : Z)
  : benchmark_list_t :=
  let list := []%list in
  let list := add_stack_benchmarks list prod_count cons_count elem_count in
  let list := add_queue_benchmarks list prod_count cons_count elem_count in
  let list := add_lockfree_benchmarks list prod_count cons_count elem_count in
  list.

(** What a benchmark was constructed with. *)
Definition name_of (b : benchmark) : string :=
  match b with
  | stack_mutex_benchmark _ name _ _ _
  | stack_cv_benchmark _ name _ _ _
  | queue_mutex_benchmark name _ _ _
  | queue_cv_benchmark name _ _ _
  | lock_free_queue_benchmark name _ _ _
  | reader_writer_queue_benchmark name _ => name
  end.

Definition elem_count_of (b : benchmark) : Z :=
  match b with
  | stack_mutex_benchmark _ _ _ _ n
  | stack_cv_benchmark _ _ _ _ n
  | queue_mutex_benchmark _ _ _ n
  | queue_cv_benchmark _ _ _ n
  | lock_free_queue_benchmark _ _ _ n
  | reader_writer_queue_benchmark _ n => n
  end.

(** The producer and consumer counts; the reader-writer benchmark takes
    none. *)
Definition thread_counts_of (b : benchmark) : option (Z * Z) :=
  match b with
  | stack_mutex_benchmark _ _ p c _
  | stack_cv_benchmark _ _ p c _
  | queue_mutex_benchmark _ p c _
  | queue_cv_benchmark _ p c _
  | lock_free_queue_benchmark _ p c _ => Some (p, c)
  | reader_writer_queue_benchmark _ _ => None
  end.

End benchmark_script.

(** ** A small store to run the member functions on *)

(** One empty queue, at address 1. *)
Definition demo_empty : store Z :=
  mkStore ∅ {[ 1%N := mkQueue None None 0 false ]}.

(** Queue 1 after [push(10); push(20); push(30)]. *)
Definition demo_three : store Z :=
  mkStore
    {[ 1%N := mkNode 10 (Some 2%N);
       2%N := mkNode 20 (Some 3%N);
       3%N := mkNode 30 None ]}
    {[ 1%N := mkQueue (Some 1%N) (Some 3%N) 3 false ]}.

(** Queue 1 as in [demo_three] and a second queue, at address 2, that
    holds 70. *)
Definition demo_two : store Z :=
  mkStore
    {[ 1%N := mkNode 10 (Some 2%N);
       2%N := mkNode 20 (Some 3%N);
       3%N := mkNode 30 None;
       4%N := mkNode 70 None ]}
    {[ 1%N := mkQueue (Some 1%N) (Some 3%N) 3 false;
       2%N := mkQueue (Some 4%N) (Some 4%N) 1 false ]}.

(** Queue 1 after [push(10)]. *)
Definition demo_one : store Z :=
  mkStore {[ 1%N := mkNode 10 None ]}
    {[ 1%N := mkQueue (Some 1%N) (Some 1%N) 1 false ]}.

(** The last address: after it the bump allocator has nothing to give. *)
Definition last_addr : addr := (2 ^ 64 - 1)%N.

(** Queue 1 holds 10 in the node at the last address, queue 2 holds 70:
    the next allocation fails. *)
Definition demo_full : store Z :=
  mkStore
    {[ last_addr := mkNode 10 None;
       4%N := mkNode 70 None ]}
    {[ 1%N := mkQueue (Some last_addr) (Some last_addr) 1 false;
       2%N := mkQueue (Some 4%N) (Some 4%N) 1 false ]}.

(** [demo_full] after queue 2 has been cleared. *)
Definition demo_full_cleared : store Z :=
  mkStore
    {[ last_addr := mkNode 10 None ]}
    {[ 1%N := mkQueue (Some last_addr) (Some last_addr) 1 false;
       2%N := mkQueue None None 0 false ]}.

(** Another thread fills the queue: whatever the store, it leaves
    [demo_three]. *)
Definition demo_producer : store Z → store Z := λ _, demo_three.

(** The calls of one thread. *)
Definition demo_calls : list (@call Z) :=
  [CallPush 10; CallPush 20; CallSize; CallTryPeek; CallTryPop; CallPop 2;
   CallEmpty; CallPopFor [false; true]; CallTryPop].

(** One removal of each kind, none with interference. *)
Definition demo_removers : list (@remover Z) :=
  [ByTryPop; ByPop []; ByPopFor []].

(** A spurious wake-up, then the timeout; the other threads do nothing. *)
Definition demo_wakeups : list (@wakeup Z) :=
  [mkWakeup id false; mkWakeup id true].

(** ** The bump allocator is an allocator *)

Lemma top_ge (D : gset addr) a : a ∈ D → (a <= top D)%N.
Proof.
  unfold top. rewrite <- elem_of_elements.
  induction (elements D) as [|x l IH]; simpl.
  - intros Hin. inversion Hin.
  - rewrite elem_of_cons. intros [->|Hin]; [lia|].
    specialize (IH Hin). lia.
Qed.

Lemma bump_fresh D a : bump D = Some a → a ∉ D.
Proof.
  unfold bump. case_decide; [|done].
  intros [= <-] Hin. apply top_ge in Hin. lia.
Qed.

Lemma bump_valid D a : bump D = Some a → valid_ptr a.
Proof.
  unfold bump. case_decide; [|done].
  intros [= <-]. unfold valid_ptr. lia.
Qed.

Definition bump_allocator : Allocator :=
  {| alloc := bump; alloc_fresh := bump_fresh; alloc_valid := bump_valid |}.

(** ** Chains in the heap *)

Section ChainFacts.
Context {T : Type}.
Implicit Types (h : gmap addr (Node T)) (xs ys : list (addr * T)) (p e : ptr).

Lemma lseg_app h p xs ys e :
  lseg h p (xs ++ ys) e ↔ ∃ m, lseg h p xs m ∧ lseg h m ys e.
Proof.
  revert p. induction xs as [|x xs IH]; intros p; simpl.
  - split; [eauto|]. by intros (m & -> & ?).
  - split.
    + intros (-> & nx & Hx & Hrest). apply IH in Hrest as (m & ? & ?).
      exists m. eauto.
    + intros (m & (-> & nx & Hx & Hl) & Hr). split; [done|].
      exists nx. split; [done|]. apply IH. eauto.
Qed.

Lemma lseg_inj h p xs ys : lseg h p xs None → lseg h p ys None → xs = ys.
Proof.
  revert p ys. induction xs as [|[a v] xs IH]; intros p [|[b w] ys]; simpl.
  - done.
  - intros -> [? _]. done.
  - intros [-> _] ?. done.
  - intros (-> & nx & Hx & Hxs) ([= <-] & ny & Hy & Hys).
    rewrite Hx in Hy. injection Hy as <- <-.
    f_equal. eauto.
Qed.

Lemma chain_lseg h p n xs :
  chain h p n = Some xs ↔ lseg h p xs None ∧ length xs = n.
Proof.
  revert p xs. induction n as [|n IH]; intros [a|] xs; simpl.
  - split; [done|]. intros [Hl Hn]. destruct xs; [done|done].
  - split.
    + by intros [= <-].
    + intros [_ Hn]. by destruct xs.
  - destruct (h !! a) as [[v nx]|] eqn:Ha; simpl.
    + destruct (chain h nx n) as [zs|] eqn:Hc; simpl.
      * apply IH in Hc as [Hl Hn]. split.
        -- intros [= <-]. simpl. split; [|by rewrite Hn]. eauto.
        -- intros [Hxs Hlen]. destruct xs as [|[b w] xs]; [done|].
           simpl in *. destruct Hxs as ([= <-] & ny & Hy & Hrest).
           rewrite Ha in Hy. injection Hy as <- <-.
           by rewrite (lseg_inj _ _ _ _ Hl Hrest).
      * split; [done|]. intros [Hxs Hlen]. destruct xs as [|[b w] xs]; [done|].
        simpl in *. destruct Hxs as ([= <-] & ny & Hy & Hrest).
        rewrite Ha in Hy. injection Hy as <- <-.
        assert (chain h nx n = Some xs) as Hc' by (apply IH; split; [done|lia]).
        congruence.
    + split; [done|]. intros [Hxs _]. destruct xs as [|[b w] xs]; [done|].
      simpl in Hxs. destruct Hxs as ([= <-] & ny & Hy & _). congruence.
  - split; [done|]. intros [Hxs Hn]. destruct xs; [done|]. by destruct Hxs.
Qed.

Lemma lseg_frame h h' p xs e :
  (∀ a, a ∈ xs.*1 → h' !! a = h !! a) → lseg h p xs e → lseg h' p xs e.
Proof.
  revert p. induction xs as [|[a v] xs IH]; intros p Hagree; simpl; [done|].
  intros (-> & nx & Hx & Hrest). split; [done|]. exists nx. split.
  - rewrite Hagree; [done|]. simpl. left.
  - apply IH; [|done]. intros b Hb. apply Hagree. simpl. by right.
Qed.

Lemma lseg_live h p xs e a : lseg h p xs e → a ∈ xs.*1 → is_Some (h !! a).
Proof.
  revert p. induction xs as [|[b v] xs IH]; intros p; simpl.
  - intros _ Hin. inversion Hin.
  - intros (-> & nx & Hx & Hrest). rewrite elem_of_cons. intros [->|Hin]; eauto.
Qed.

Lemma lseg_NoDup h p xs : lseg h p xs None → NoDup xs.*1.
Proof.
  revert p. induction xs as [|[a v] xs IH]; intros p; simpl.
  - intros _. constructor.
  - intros (-> & nx & Hx & Hrest). constructor; [|eauto].
    intros Hin. apply list_elem_of_fmap in Hin as ([b w] & Hb & Hin).
    simpl in Hb. subst b.
    apply list_elem_of_split in Hin as (l1 & l2 & ->).
    pose proof Hrest as Hrest'.
    apply lseg_app in Hrest as (m & _ & Htail).
    pose proof Htail as (-> & ny & Hy & _). simpl in Hy.
    assert (lseg h (Some a) ((a, v) :: l1 ++ (a, w) :: l2) None) as Hfull.
    { simpl. split; [done|]. eauto. }
    pose proof (lseg_inj _ _ _ _ Htail Hfull) as Heq.
    apply (f_equal length) in Heq. simpl in Heq.
    rewrite length_app in Heq. simpl in Heq. lia.
Qed.

End ChainFacts.

(** ** No more nodes than addresses *)

Lemma bounded_NoDup_length (l : list N) (b : N) :
  NoDup l → Forall (λ x, (0 < x ≤ b)%N) l → (length l ≤ N.to_nat b)%nat.
Proof.
  intros Hnd Hall.
  assert (l ⊆+ (N.of_nat <$> seq 1 (N.to_nat b))) as Hsub.
  { apply NoDup_submseteq; [done|]. intros x Hx.
    rewrite Forall_forall in Hall. specialize (Hall _ Hx).
    apply list_elem_of_fmap. exists (N.to_nat x). split; [lia|].
    apply elem_of_seq. lia. }
  apply submseteq_length in Hsub.
  by rewrite length_fmap, length_seq in Hsub.
Qed.

Lemma valid_ptrs_bound (l : list addr) :
  NoDup l → Forall valid_ptr l → Z.of_nat (length l) < size_max.
Proof.
  intros Hnd Hall.
  assert (length l ≤ N.to_nat (2 ^ 64 - 1))%nat as Hlen.
  { apply bounded_NoDup_length; [done|].
    eapply Forall_impl; [done|]. unfold valid_ptr. intros x. simpl. lia. }
  unfold size_max. lia.
Qed.

(** ** The shape of one queue *)

Section ShapeFacts.
Context {T : Type}.
Implicit Types (h : gmap addr (Node T)) (σ : store T) (o : ConcurrentQueue).
Implicit Types (xs ys : list (addr * T)).

Lemma shape_cells h o xs : shape h o xs → cells h o = Some xs.
Proof.
  intros (Hl & _ & Hs & _). unfold cells. apply chain_lseg.
  split; [done|]. lia.
Qed.

Lemma shape_queue_ok h o xs : shape h o xs → queue_ok h o.
Proof.
  intros Hsh. pose proof Hsh as (Hl & Hr & Hs & Hm).
  unfold queue_ok. rewrite (shape_cells _ _ _ Hsh). split; [lia|done].
Qed.

Lemma queue_ok_shape h o : queue_ok h o → ∃ xs, shape h o xs.
Proof.
  unfold queue_ok, cells. intros [Hs Hc].
  destruct (chain h (front_ o) (Z.to_nat (size_ o))) as [xs|] eqn:E; [|done].
  apply chain_lseg in E as [Hl Hn]. exists xs. unfold shape.
  split_and!; [done|done|lia|lia].
Qed.

Lemma shape_inj h o xs ys : shape h o xs → shape h o ys → xs = ys.
Proof. intros [? _] [? _]. by eapply lseg_inj. Qed.

Lemma shape_owned h o xs : shape h o xs → owned h o = xs.*1.
Proof. intros Hsh. unfold owned. by rewrite (shape_cells _ _ _ Hsh). Qed.

Lemma shape_frame h h' o xs :
  (∀ a, a ∈ xs.*1 → h' !! a = h !! a) → shape h o xs → shape h' o xs.
Proof.
  intros Hagree (Hl & ?). split; [|done]. by eapply lseg_frame.
Qed.

Lemma shape_nil h o :
  shape h o [] ↔ front_ o = None ∧ rear_ o = None ∧ size_ o = 0.
Proof.
  unfold shape, size_max. simpl. split.
  - intros (? & ? & ? & ?). done.
  - intros (? & ? & ->). split_and!; [done|done|done|lia].
Qed.

Lemma wf_lookup σ q o :
  wf σ → queues σ !! q = Some o →
  mutex_ o = false ∧ ∃ xs, shape (nodes σ) o xs.
Proof.
  intros (Hq & _ & _) Ho. destruct (Hq _ _ Ho) as [Hok Hm].
  split; [done|]. by apply queue_ok_shape.
Qed.

Lemma wf_disjoint σ q1 q2 o1 o2 xs1 xs2 a :
  wf σ → q1 ≠ q2 →
  queues σ !! q1 = Some o1 → queues σ !! q2 = Some o2 →
  shape (nodes σ) o1 xs1 → shape (nodes σ) o2 xs2 →
  a ∈ xs1.*1 → a ∉ xs2.*1.
Proof.
  intros (_ & Hd & _) Hne H1 H2 S1 S2 Hin.
  pose proof (Hd _ _ H1 _ _ H2 Hne) as Hall.
  rewrite (shape_owned _ _ _ S1), (shape_owned _ _ _ S2) in Hall.
  rewrite Forall_forall in Hall. by apply Hall.
Qed.

Lemma wf_valid σ a nd : wf σ → nodes σ !! a = Some nd → valid_ptr a.
Proof. intros (_ & _ & Hv) Ha. by apply (Hv _ _ Ha). Qed.

Lemma wf_intro σ :
  (∀ q o, queues σ !! q = Some o →
     mutex_ o = false ∧ ∃ xs, shape (nodes σ) o xs) →
  (∀ q1 q2 o1 o2 xs1 xs2 a, q1 ≠ q2 →
     queues σ !! q1 = Some o1 → queues σ !! q2 = Some o2 →
     shape (nodes σ) o1 xs1 → shape (nodes σ) o2 xs2 →
     a ∈ xs1.*1 → a ∉ xs2.*1) →
  (∀ a nd, nodes σ !! a = Some nd → valid_ptr a) →
  wf σ.
Proof.
  intros Hq Hd Hv. split_and!.
  - intros q o Ho. destruct (Hq _ _ Ho) as [Hm [xs Hsh]].
    split; [|done]. by eapply shape_queue_ok.
  - intros q1 o1 H1 q2 o2 H2 Hne.
    destruct (Hq _ _ H1) as [_ [xs1 S1]].
    destruct (Hq _ _ H2) as [_ [xs2 S2]].
    rewrite (shape_owned _ _ _ S1), (shape_owned _ _ _ S2).
    rewrite Forall_forall. intros a Ha. by eapply (Hd q1 q2).
  - intros a nd Ha. by eapply Hv.
Qed.

Lemma contents_shape σ q o xs :
  queues σ !! q = Some o → shape (nodes σ) o xs → contents σ q = Some xs.*2.
Proof.
  intros Ho Hsh. unfold contents. rewrite Ho. simpl.
  by rewrite (shape_cells _ _ _ Hsh).
Qed.

End ShapeFacts.

(** ** Coherent stores *)

Section Coherence.
Context {T : Type}.
Implicit Types (h : gmap addr (Node T)) (σ : store T) (o : ConcurrentQueue).
Implicit Types (xs ys : list (addr * T)).

Lemma wf_coherent σ : wf σ ↔ coherent σ ∧ unlocked σ.
Proof.
  split.
  - intros Hwf. split.
    + split_and!.
      * intros q o Ho. by destruct (wf_lookup _ _ _ Hwf Ho).
      * intros. by eapply wf_disjoint.
      * intros. by eapply wf_valid.
    + intros q. unfold locks. rewrite lookup_fmap.
      destruct (queues σ !! q) as [o|] eqn:Ho; [|done].
      destruct (wf_lookup _ _ _ Hwf Ho) as [Hm _]. simpl. by rewrite Hm.
  - intros [(Hq & Hd & Hv) Hu]. apply wf_intro; [|done|done].
    intros q o Ho. split; [|eauto].
    specialize (Hu q). unfold locks in Hu. rewrite lookup_fmap, Ho in Hu.
    simpl in Hu.
    destruct (mutex_ o); [done|done].
Qed.

Lemma cells_of_shape σ q xs :
  coherent σ → cells_of σ q = Some xs →
  ∃ o, queues σ !! q = Some o ∧ shape (nodes σ) o xs.
Proof.
  intros (Hq & _ & _). unfold cells_of.
  destruct (queues σ !! q) as [o|] eqn:Ho; [|done]. simpl. intros Hc.
  exists o. split; [done|]. destruct (Hq _ _ Ho) as [ys Hys].
  rewrite (shape_cells _ _ _ Hys) in Hc. by injection Hc as <-.
Qed.

Lemma shape_cells_of σ q o xs :
  queues σ !! q = Some o → shape (nodes σ) o xs → cells_of σ q = Some xs.
Proof. intros Ho Hsh. unfold cells_of. rewrite Ho. by apply shape_cells. Qed.

Lemma coherent_cells_of σ q o :
  coherent σ → queues σ !! q = Some o → ∃ xs, cells_of σ q = Some xs.
Proof.
  intros (Hq & _ & _) Ho. destruct (Hq _ _ Ho) as [xs Hxs].
  exists xs. by eapply shape_cells_of.
Qed.

Lemma coherent_update σ q o' h' xs' :
  coherent σ → shape h' o' xs' →
  (∀ q2 o2 xs2 a, q2 ≠ q → queues σ !! q2 = Some o2 →
     shape (nodes σ) o2 xs2 → a ∈ xs2.*1 →
     h' !! a = nodes σ !! a ∧ a ∉ xs'.*1) →
  (∀ a nd, h' !! a = Some nd → valid_ptr a) →
  coherent (mkStore h' (<[q := o']> (queues σ))) ∧
  cells_of (mkStore h' (<[q := o']> (queues σ))) q = Some xs' ∧
  (∀ q2, q2 ≠ q →
     cells_of (mkStore h' (<[q := o']> (queues σ))) q2 = cells_of σ q2).
Proof.
  intros (Hq & Hd & Hv) Hsh' Hframe Hvalid.
  assert (∀ q2 o2 xs2, q2 ≠ q → queues σ !! q2 = Some o2 →
            shape (nodes σ) o2 xs2 → shape h' o2 xs2) as Hkeep.
  { intros q2 o2 xs2 Hne H2 S2. eapply shape_frame; [|done].
    intros a Ha. by destruct (Hframe _ _ _ _ Hne H2 S2 Ha). }
  split_and!.
  - split_and!; simpl.
    + intros q0 o0. destruct (decide (q0 = q)) as [->|Hne].
      * rewrite lookup_insert_eq. intros [= <-]. eauto.
      * rewrite lookup_insert_ne by done. intros H0.
        destruct (Hq _ _ H0) as [xs0 S0]. eauto.
    + intros q1 q2 o1 o2 xs1 xs2 a Hne.
      destruct (decide (q1 = q)) as [->|Hne1];
        destruct (decide (q2 = q)) as [->|Hne2]; [done|..].
      * rewrite lookup_insert_eq, lookup_insert_ne by done.
        intros [= <-] H2 S1 S2 Ha Ha2.
        rewrite (shape_inj _ _ _ _ S1 Hsh') in Ha.
        destruct (Hq _ _ H2) as [ys2 T2].
        rewrite (shape_inj _ _ _ _ S2 (Hkeep _ _ _ Hne2 H2 T2)) in Ha2.
        by destruct (Hframe _ _ _ _ Hne2 H2 T2 Ha2).
      * rewrite lookup_insert_eq, lookup_insert_ne by done.
        intros H1 [= <-] S1 S2 Ha Ha2.
        rewrite (shape_inj _ _ _ _ S2 Hsh') in Ha2.
        destruct (Hq _ _ H1) as [ys1 T1].
        rewrite (shape_inj _ _ _ _ S1 (Hkeep _ _ _ Hne1 H1 T1)) in Ha.
        by destruct (Hframe _ _ _ _ Hne1 H1 T1 Ha).
      * rewrite !lookup_insert_ne by done. intros H1 H2 S1 S2.
        destruct (Hq _ _ H1) as [ys1 T1]. destruct (Hq _ _ H2) as [ys2 T2].
        rewrite (shape_inj _ _ _ _ S1 (Hkeep _ _ _ Hne1 H1 T1)).
        rewrite (shape_inj _ _ _ _ S2 (Hkeep _ _ _ Hne2 H2 T2)).
        by apply (Hd q1 q2 o1 o2).
    + done.
  - unfold cells_of. simpl. rewrite lookup_insert_eq. simpl.
    by apply shape_cells.
  - intros q2 Hne. unfold cells_of. simpl.
    rewrite lookup_insert_ne by done.
    destruct (queues σ !! q2) as [o2|] eqn:H2; [|done]. simpl.
    destruct (Hq _ _ H2) as [ys2 T2].
    rewrite (shape_cells _ _ _ T2).
    apply shape_cells. by eapply Hkeep.
Qed.
Lemma locks_lookup σ q : locks σ !! q = mutex_ <$> queues σ !! q.
Proof. unfold locks. apply lookup_fmap. Qed.

Lemma locks_Some σ q b :
  locks σ !! q = Some b → ∃ o, queues σ !! q = Some o ∧ mutex_ o = b.
Proof.
  rewrite locks_lookup. destruct (queues σ !! q) as [o|]; [|done].
  intros [= <-]. eauto.
Qed.

Lemma locks_insert h h' (Q : gmap qid ConcurrentQueue) q o :
  locks (mkStore h' (<[q := o]> Q)) = <[q := mutex_ o]> (locks (mkStore h Q)).
Proof. unfold locks. simpl. apply fmap_insert. Qed.

Lemma locks_insert_same σ h' q o o' :
  queues σ !! q = Some o → mutex_ o' = mutex_ o →
  locks (mkStore h' (<[q := o']> (queues σ))) = locks σ.
Proof.
  intros Ho Hm. unfold locks. simpl. rewrite fmap_insert.
  apply insert_id. by rewrite lookup_fmap, Ho, Hm.
Qed.

Lemma changes_only_refl X σ : changes_only X σ σ.
Proof. by intros q _. Qed.

Lemma changes_only_trans X σ1 σ2 σ3 :
  changes_only X σ1 σ2 → changes_only X σ2 σ3 → changes_only X σ1 σ3.
Proof.
  intros H12 H23 q Hq. rewrite <- (H12 q Hq). by apply H23.
Qed.

Lemma changes_only_weaken X Y σ σ' :
  (∀ q, q ∈ X → q ∈ Y) → changes_only X σ σ' → changes_only Y σ σ'.
Proof. intros Hsub HX q Hq. apply HX. intros Hin. by apply Hq, Hsub. Qed.

End Coherence.

(** ** Reasoning about computations *)

Section Wp.
Context {T : Type} `{Allocator}.
Implicit Types (h : gmap addr (Node T)) (σ : store T) (o : ConcurrentQueue).
Implicit Types (xs ys : list (addr * T)) (E : store T → Prop).

Lemma wp_ok {A} (m : M A) Q E σ a σ' : wp m Q E σ → m σ = Ok a σ' → Q a σ'.
Proof. unfold wp. intros Hwp Hm. by rewrite Hm in Hwp. Qed.

Lemma wp_throw {A} (m : M A) Q E σ σ' : wp m Q E σ → m σ = BadAlloc σ' → E σ'.
Proof. unfold wp. intros Hwp Hm. by rewrite Hm in Hwp. Qed.

Lemma wp_not_stuck {A} (m : M A) Q E σ e : wp m Q E σ → m σ ≠ Stuck e.
Proof. unfold wp. intros Hwp Hm. by rewrite Hm in Hwp. Qed.

Lemma wp_returns {A} (m : M A) Q σ :
  wp m Q (λ _, False) σ → ∃ a σ', m σ = Ok a σ' ∧ Q a σ'.
Proof. unfold wp. destruct (m σ); [eauto|done|done]. Qed.

Lemma wp_mono {A} (m : M A) (Q Q' : A → store T → Prop) E E' σ :
  wp m Q E σ → (∀ a σ', Q a σ' → Q' a σ') → (∀ σ', E σ' → E' σ') →
  wp m Q' E' σ.
Proof. unfold wp. destruct (m σ); eauto. Qed.

Lemma wp_ret {A} (a : A) (Q : A → store T → Prop) E σ :
  Q a σ → wp (mret a) Q E σ.
Proof. done. Qed.

Lemma wp_bind {A B} (m : M A) (k : A → M B) (Q : B → store T → Prop) E σ :
  wp m (λ a σ', wp (k a) Q E σ') E σ → wp (m ≫= k) Q E σ.
Proof.
  unfold wp, mbind, M_bind, bind. by destruct (m σ).
Qed.

Lemma wp_finally {A} (m : M A) c (Q : A → store T → Prop) E σ :
  wp m (λ a σ', wp c (λ _, Q a) E σ') (λ σ', wp c (λ _, E) E σ') σ →
  wp (finally m c) Q E σ.
Proof.
  unfold wp, finally, bind, ret. intros Hm.
  destruct (m σ) as [a σ'|σ'|]; [| |done].
  - by destruct (c σ').
  - by destruct (c σ').
Qed.

Lemma wp_on_throw {A} (m : M A) u (Q : A → store T → Prop) E σ :
  wp m Q (λ σ', wp u (λ _, E) E σ') σ → wp (on_throw m u) Q E σ.
Proof.
  unfold wp, on_throw. intros Hm.
  destruct (m σ) as [a σ'|σ'|]; [done| |done].
  by destruct (u σ').
Qed.

(** *** Fields *)

Lemma wp_get_queue q o (Q : ConcurrentQueue → store T → Prop) E σ :
  queues σ !! q = Some o → Q o σ → wp (get_queue q) Q E σ.
Proof. unfold wp, get_queue. by intros ->. Qed.

Lemma wp_put_queue q o (Q : unit → store T → Prop) E σ :
  Q tt (mkStore (nodes σ) (<[q := o]> (queues σ))) → wp (put_queue q o) Q E σ.
Proof. done. Qed.

Lemma wp_get_front q o (Q : ptr → store T → Prop) E σ :
  queues σ !! q = Some o → Q (front_ o) σ → wp (get_front q) Q E σ.
Proof.
  intros Ho HQ. apply wp_bind. eapply wp_get_queue; [done|]. by apply wp_ret.
Qed.

Lemma wp_get_rear q o (Q : ptr → store T → Prop) E σ :
  queues σ !! q = Some o → Q (rear_ o) σ → wp (get_rear q) Q E σ.
Proof.
  intros Ho HQ. apply wp_bind. eapply wp_get_queue; [done|]. by apply wp_ret.
Qed.

Lemma wp_get_size q o (Q : Z → store T → Prop) E σ :
  queues σ !! q = Some o → Q (size_ o) σ → wp (get_size q) Q E σ.
Proof.
  intros Ho HQ. apply wp_bind. eapply wp_get_queue; [done|]. by apply wp_ret.
Qed.

Lemma wp_set_front q o p (Q : unit → store T → Prop) E σ :
  queues σ !! q = Some o →
  Q tt (mkStore (nodes σ)
          (<[q := mkQueue p (rear_ o) (size_ o) (mutex_ o)]> (queues σ))) →
  wp (set_front q p) Q E σ.
Proof. intros Ho HQ. apply wp_bind. by eapply wp_get_queue. Qed.

Lemma wp_set_rear q o p (Q : unit → store T → Prop) E σ :
  queues σ !! q = Some o →
  Q tt (mkStore (nodes σ)
          (<[q := mkQueue (front_ o) p (size_ o) (mutex_ o)]> (queues σ))) →
  wp (set_rear q p) Q E σ.
Proof. intros Ho HQ. apply wp_bind. by eapply wp_get_queue. Qed.

Lemma wp_set_size q o n (Q : unit → store T → Prop) E σ :
  queues σ !! q = Some o →
  Q tt (mkStore (nodes σ)
          (<[q := mkQueue (front_ o) (rear_ o) n (mutex_ o)]> (queues σ))) →
  wp (set_size q n) Q E σ.
Proof. intros Ho HQ. apply wp_bind. by eapply wp_get_queue. Qed.

Lemma wp_empty_unsafe q o (Q : bool → store T → Prop) E σ :
  queues σ !! q = Some o → Q (bool_decide (front_ o = None)) σ →
  wp (empty_unsafe q) Q E σ.
Proof.
  intros Ho HQ. apply wp_bind. eapply wp_get_front; [done|]. by apply wp_ret.
Qed.

(** *** Mutexes *)

Lemma wp_lock q o (Q : unit → store T → Prop) E σ :
  queues σ !! q = Some o → mutex_ o = false →
  Q tt (mkStore (nodes σ)
          (<[q := mkQueue (front_ o) (rear_ o) (size_ o) true]> (queues σ))) →
  wp (lock q) Q E σ.
Proof.
  intros Ho Hm HQ. apply wp_bind. eapply wp_get_queue; [done|]. by rewrite Hm.
Qed.

Lemma wp_unlock q o (Q : unit → store T → Prop) E σ :
  queues σ !! q = Some o → mutex_ o = true →
  Q tt (mkStore (nodes σ)
          (<[q := mkQueue (front_ o) (rear_ o) (size_ o) false]> (queues σ))) →
  wp (unlock q) Q E σ.
Proof.
  intros Ho Hm HQ. apply wp_bind. eapply wp_get_queue; [done|]. by rewrite Hm.
Qed.

(** *** Nodes *)

Lemma wp_load a nd (Q : Node T → store T → Prop) E σ :
  nodes σ !! a = Some nd → Q nd σ → wp (load (Some a)) Q E σ.
Proof. unfold wp, load. by intros ->. Qed.

Lemma wp_set_next a nd n (Q : unit → store T → Prop) E σ :
  nodes σ !! a = Some nd →
  Q tt (mkStore (<[a := mkNode (data nd) n]> (nodes σ)) (queues σ)) →
  wp (set_next (Some a) n) Q E σ.
Proof. unfold wp, set_next. by intros ->. Qed.

Lemma wp_make_unique v (Q : ptr → store T → Prop) E σ :
  (∀ a, alloc (dom (nodes σ)) = Some a →
     Q (Some a) (mkStore (<[a := mkNode v None]> (nodes σ)) (queues σ))) →
  (alloc (dom (nodes σ)) = None → E σ) →
  wp (make_unique v) Q E σ.
Proof.
  unfold wp, make_unique. intros HQ HE.
  destruct (alloc (dom (nodes σ))); eauto.
Qed.

Lemma wp_heap_size (Q : nat → store T → Prop) E σ :
  Q (base.size (nodes σ)) σ → wp heap_size Q E σ.
Proof. done. Qed.

Lemma wp_construct q (Q : unit → store T → Prop) E σ :
  queues σ !! q = None →
  Q tt (mkStore (nodes σ) (<[q := mkQueue None None 0 false]> (queues σ))) →
  wp (construct q) Q E σ.
Proof. unfold wp, construct. by intros ->. Qed.

Lemma wp_delete_chain fuel p xs (Q : unit → store T → Prop) E σ :
  lseg (nodes σ) p xs None → (length xs ≤ fuel)%nat →
  Q tt (mkStore (foldr delete (nodes σ) xs.*1) (queues σ)) →
  wp (delete_chain fuel p) Q E σ.
Proof.
  revert fuel p Q. induction xs as [|[a v] xs IH]; intros fuel p Q; simpl.
  - intros -> _ HQ. destruct σ. by destruct fuel.
  - intros (-> & nx & Ha & Hl) Hfuel HQ.
    destruct fuel as [|fuel]; [lia|]. simpl.
    apply wp_bind. eapply wp_load; [done|]. simpl.
    apply wp_bind. eapply IH; [done|lia|]. done.
Qed.

Lemma lseg_length_le_size h p xs :
  lseg h p xs None → (length xs ≤ base.size h)%nat.
Proof.
  intros Hl. pose proof (lseg_NoDup _ _ _ Hl) as Hnd.
  rewrite <- (length_fmap fst xs).
  rewrite <- (size_list_to_set (C := gset addr) xs.*1 Hnd).
  rewrite <- size_dom. apply subseteq_size.
  intros a Ha. apply elem_of_list_to_set in Ha.
  apply elem_of_dom. by eapply lseg_live.
Qed.

Lemma wp_delete_ptr p xs (Q : unit → store T → Prop) E σ :
  lseg (nodes σ) p xs None →
  Q tt (mkStore (foldr delete (nodes σ) xs.*1) (queues σ)) →
  wp (delete_ptr p) Q E σ.
Proof.
  intros Hl HQ. apply wp_bind. unfold wp, heap_size.
  eapply wp_delete_chain; [done| |done]. by eapply lseg_length_le_size.
Qed.

End Wp.

(** ** Tactics for running a computation step by step *)

Ltac solve_lookup :=
  simpl;
  first
    [ eassumption
    | apply lookup_insert_eq
    | rewrite lookup_insert_ne by done; solve_lookup ].

Ltac wp_step :=
  lazymatch goal with
  | |- wp heap_size _ _ _ => apply wp_heap_size
  | |- wp (mret _) _ _ _ => apply wp_ret
  | |- wp (_ ≫= _) _ _ _ => apply wp_bind
  | |- wp (get_front _) _ _ _ => eapply wp_get_front; [solve_lookup|]
  | |- wp (get_rear _) _ _ _ => eapply wp_get_rear; [solve_lookup|]
  | |- wp (get_size _) _ _ _ => eapply wp_get_size; [solve_lookup|]
  | |- wp (set_front _ _) _ _ _ => eapply wp_set_front; [solve_lookup|]
  | |- wp (set_rear _ _) _ _ _ => eapply wp_set_rear; [solve_lookup|]
  | |- wp (set_size _ _) _ _ _ => eapply wp_set_size; [solve_lookup|]
  | |- wp (empty_unsafe _) _ _ _ => eapply wp_empty_unsafe; [solve_lookup|]
  | |- wp (load (Some _)) _ _ _ => eapply wp_load; [solve_lookup|]
  | |- wp (set_next (Some _) _) _ _ _ => eapply wp_set_next; [solve_lookup|]
  | |- wp (lock _) _ _ _ => eapply wp_lock; [solve_lookup|done|]
  | |- wp (unlock _) _ _ _ => eapply wp_unlock; [solve_lookup|done|]
  | |- wp (finally _ _) _ _ _ => apply wp_finally
  | |- wp (lock_guard _ _) _ _ _ => unfold lock_guard
  | |- wp (reset_front _ _) _ _ _ => unfold reset_front
  | |- wp (reset_next _ _) _ _ _ => unfold reset_next
  | |- wp (release_next _) _ _ _ => unfold release_next
  | |- wp (release_front _) _ _ _ => unfold release_front
  | |- wp (notify_one _) _ _ _ => unfold notify_one
  end;
  cbv beta; cbn [nodes queues front_ rear_ size_ mutex_ data next].

Ltac wp_steps := repeat wp_step.

(** ** Running the member functions *)

Section Run.
Context {T : Type} `{Allocator}.
Implicit Types (h : gmap addr (Node T)) (σ : store T) (o : ConcurrentQueue).
Implicit Types (xs ys : list (addr * T)) (E : store T → Prop).

Lemma wp_push_unsafe_empty q o v (Q : unit → store T → Prop) E σ :
  queues σ !! q = Some o → front_ o = None →
  (∀ a, alloc (dom (nodes σ)) = Some a →
     Q tt (mkStore (<[a := mkNode v None]> (nodes σ))
             (<[q := mkQueue (Some a) (Some a) ((size_ o + 1) mod size_max)
                       (mutex_ o)]> (queues σ)))) →
  (alloc (dom (nodes σ)) = None → E σ) →
  wp (push_unsafe q v) Q E σ.
Proof.
  intros Ho Hf HQ HE. unfold push_unsafe.
  apply wp_bind. apply wp_make_unique; [|done]. intros a Ha.
  wp_steps. rewrite Hf. rewrite decide_True by done. wp_steps.
  eapply (wp_delete_ptr _ []); [done|].
  wp_steps. rewrite !insert_insert_eq. by apply HQ.
Qed.

Lemma wp_push_unsafe_nonempty q o f r vr v (Q : unit → store T → Prop) E σ :
  queues σ !! q = Some o → front_ o = Some f → rear_ o = Some r →
  nodes σ !! r = Some (mkNode vr None) →
  (∀ a, alloc (dom (nodes σ)) = Some a →
     Q tt (mkStore (<[r := mkNode vr (Some a)]>
                      (<[a := mkNode v None]> (nodes σ)))
             (<[q := mkQueue (Some f) (Some a) ((size_ o + 1) mod size_max)
                       (mutex_ o)]> (queues σ)))) →
  (alloc (dom (nodes σ)) = None → E σ) →
  wp (push_unsafe q v) Q E σ.
Proof.
  intros Ho Hf Hr Hnd HQ HE. unfold push_unsafe.
  apply wp_bind. apply wp_make_unique; [|done]. intros a Ha.
  assert (a ≠ r) as Hne.
  { intros ->. apply alloc_fresh in Ha. apply Ha, elem_of_dom. eauto. }
  wp_steps. rewrite Hf. rewrite decide_False by done. wp_steps.
  rewrite Hr. wp_steps.
  eapply (wp_delete_ptr _ []); [done|].
  wp_steps. rewrite !insert_insert_eq, Hf. by apply HQ.
Qed.

Lemma try_pop_unfold q (value : T) :
  try_pop q value =
  lock_guard q (
    e ← empty_unsafe q;
    if (e : bool) then mret (false, value)
    else removal q (λ v, mret (true, v))).
Proof. reflexivity. Qed.

Lemma pop_unfold q (value : T) env :
  pop q value env = lock_guard q (cv_wait q env;; removal q mret).
Proof. reflexivity. Qed.

Lemma pop_for_unfold q (value : T) env :
  pop_for q value env =
  lock_guard q (
    success ← cv_wait_for q env;
    if negb success then mret (false, value)
    else removal q (λ v, mret (true, v))).
Proof. reflexivity. Qed.

Lemma wp_removal {B} q o a v nx (k : T → M B) (Q : B → store T → Prop) E σ :
  queues σ !! q = Some o → front_ o = Some a →
  nodes σ !! a = Some (mkNode v nx) →
  wp (k v) Q E
    (mkStore (delete a (nodes σ))
       (<[q := mkQueue nx (if decide (Some a = rear_ o) then None else rear_ o)
                 ((size_ o - 1) mod size_max) (mutex_ o)]> (queues σ))) →
  wp (removal q k) Q E σ.
Proof.
  intros Ho Hf Ha Hk. unfold removal. wp_steps. rewrite Hf. wp_steps.
  destruct (decide (Some a = rear_ o)) as [Hr|Hr].
  - wp_steps. rewrite Hf. wp_steps.
    eapply (wp_delete_ptr _ [(a, v)]).
    { simpl. split; [done|]. exists None. split; [|done]. apply lookup_insert_eq. }
    simpl. wp_steps.
    rewrite !insert_insert_eq, delete_insert_eq. done.
  - wp_steps. rewrite Hf. wp_steps.
    eapply (wp_delete_ptr _ [(a, v)]).
    { simpl. split; [done|]. exists None. split; [|done]. apply lookup_insert_eq. }
    simpl. wp_steps.
    rewrite !insert_insert_eq, delete_insert_eq. done.
Qed.

(** *** Removal and peek, state by state *)

Lemma wp_eq {A} (m : M A) σ a σ' :
  wp m (λ b s, b = a ∧ s = σ') (λ _, False) σ → m σ = Ok a σ'.
Proof. unfold wp. destruct (m σ); [|done|done]. by intros [-> ->]. Qed.

Lemma insert_unlock_id (Q : gmap qid ConcurrentQueue) q o X f r s :
  Q !! q = Some o → front_ o = f → rear_ o = r → size_ o = s →
  mutex_ o = false →
  <[q := mkQueue f r s false]> (<[q := X]> Q) = Q.
Proof.
  intros Ho Hf Hr Hs Hm. rewrite insert_insert_eq. apply insert_id.
  rewrite Ho. f_equal. destruct o. simpl in *. by subst.
Qed.

Lemma cv_wait_unfold q (env : list (@interference T)) :
  cv_wait q env =
  (e ← empty_unsafe q;
   if negb e then mret tt
   else
     match env with
     | [] => stuck Blocked
     | ev :: env' =>
         unlock q;; interfere ev;; lock q;; cv_wait q env'
     end).
Proof. by destruct env. Qed.

Lemma cv_wait_for_unfold q (env : list (@wakeup T)) :
  cv_wait_for q env =
  (e ← empty_unsafe q;
   if negb e then mret true
   else
     match env with
     | [] =>
         unlock q;; lock q;;
         e' ← empty_unsafe q; mret (negb e')
     | w :: env' =>
         unlock q;; interfere (during w);; lock q;;
         if timed_out w then e' ← empty_unsafe q; mret (negb e')
         else cv_wait_for q env'
     end).
Proof. by destruct env. Qed.

Lemma try_pop_empty_run q o (v0 : T) σ :
  queues σ !! q = Some o → mutex_ o = false → front_ o = None →
  try_pop q v0 σ = Ok (false, v0) σ.
Proof.
  intros Ho Hm Hf. apply wp_eq. unfold try_pop. wp_steps.
  rewrite (bool_decide_eq_true_2 _ Hf). wp_steps. split; [done|].
  rewrite (insert_unlock_id _ _ o) by done. by destruct σ.
Qed.

Lemma try_pop_run q o a v nx (v0 : T) σ :
  queues σ !! q = Some o → mutex_ o = false → front_ o = Some a →
  nodes σ !! a = Some (mkNode v nx) →
  try_pop q v0 σ = Ok (true, v) (removed σ q o a nx).
Proof.
  intros Ho Hm Hf Ha. apply wp_eq. rewrite try_pop_unfold. wp_steps.
  rewrite bool_decide_eq_false_2 by (by rewrite Hf).
  eapply wp_removal; [solve_lookup|done|done|]. simpl.
  wp_steps. split; [done|]. unfold removed. by rewrite !insert_insert_eq.
Qed.

Lemma pop_run q o a v nx (v0 : T) env σ :
  queues σ !! q = Some o → mutex_ o = false → front_ o = Some a →
  nodes σ !! a = Some (mkNode v nx) →
  pop q v0 env σ = Ok v (removed σ q o a nx).
Proof.
  intros Ho Hm Hf Ha. apply wp_eq. rewrite pop_unfold. wp_steps.
  rewrite cv_wait_unfold. wp_steps.
  rewrite bool_decide_eq_false_2 by (by rewrite Hf). simpl. wp_steps.
  eapply wp_removal; [solve_lookup|done|done|]. simpl.
  wp_steps. split; [done|]. unfold removed. by rewrite !insert_insert_eq.
Qed.

Lemma pop_for_run q o a v nx (v0 : T) env σ :
  queues σ !! q = Some o → mutex_ o = false → front_ o = Some a →
  nodes σ !! a = Some (mkNode v nx) →
  pop_for q v0 env σ = Ok (true, v) (removed σ q o a nx).
Proof.
  intros Ho Hm Hf Ha. apply wp_eq. rewrite pop_for_unfold. wp_steps.
  rewrite cv_wait_for_unfold. wp_steps.
  rewrite bool_decide_eq_false_2 by (by rewrite Hf). simpl. wp_steps.
  eapply wp_removal; [solve_lookup|done|done|]. simpl.
  wp_steps. split; [done|]. unfold removed. by rewrite !insert_insert_eq.
Qed.

Lemma try_peek_empty_run q o (v0 : T) σ :
  queues σ !! q = Some o → mutex_ o = false → front_ o = None →
  try_peek q v0 σ = Ok (false, v0) σ.
Proof.
  intros Ho Hm Hf. apply wp_eq. unfold try_peek. wp_steps.
  rewrite (bool_decide_eq_true_2 _ Hf). wp_steps. split; [done|].
  rewrite (insert_unlock_id _ _ o) by done. by destruct σ.
Qed.

Lemma try_peek_run q o a v nx (v0 : T) σ :
  queues σ !! q = Some o → mutex_ o = false → front_ o = Some a →
  nodes σ !! a = Some (mkNode v nx) →
  try_peek q v0 σ = Ok (true, v) σ.
Proof.
  intros Ho Hm Hf Ha. apply wp_eq. unfold try_peek. wp_steps.
  rewrite bool_decide_eq_false_2 by (by rewrite Hf). wp_steps.
  rewrite Hf. wp_steps. split; [done|].
  rewrite (insert_unlock_id _ _ o) by done. by destruct σ.
Qed.

(** *** What a push and a removal do to a coherent store *)

Lemma shape_valid σ o xs : coherent σ → shape (nodes σ) o xs → Forall valid_ptr xs.*1.
Proof.
  intros (_ & _ & Hv) [Hl _]. apply Forall_forall. intros a Ha.
  destruct (lseg_live _ _ _ _ _ Hl Ha) as [nd Hnd]. by eapply Hv.
Qed.

Lemma fresh_not_in_chain σ o xs a :
  shape (nodes σ) o xs → alloc (dom (nodes σ)) = Some a → a ∉ xs.*1.
Proof.
  intros [Hl _] Ha Hin. apply alloc_fresh in Ha. apply Ha, elem_of_dom.
  by eapply lseg_live.
Qed.

Lemma push_size σ o xs a :
  coherent σ → shape (nodes σ) o xs → alloc (dom (nodes σ)) = Some a →
  (size_ o + 1) mod size_max = Z.of_nat (length xs) + 1 ∧
  Z.of_nat (length xs) + 1 < size_max.
Proof.
  intros Hc Hsh Ha.
  assert (Z.of_nat (length (a :: xs.*1)) < size_max) as Hb.
  { apply valid_ptrs_bound.
    - constructor; [by eapply fresh_not_in_chain|].
      destruct Hsh as [Hl _]. by eapply lseg_NoDup.
    - constructor; [by eapply alloc_valid|by eapply shape_valid]. }
  simpl in Hb. rewrite length_fmap in Hb.
  destruct Hsh as (_ & _ & Hs & _). rewrite Hs.
  split; [|lia]. apply Z.mod_small. lia.
Qed.

Lemma wp_push_unsafe q xs v σ :
  coherent σ → cells_of σ q = Some xs →
  wp (push_unsafe q v)
    (λ _ σ', ∃ a, alloc (dom (nodes σ)) = Some a ∧ coherent σ' ∧
       cells_of σ' q = Some (xs ++ [(a, v)]) ∧ changes_only [q] σ σ' ∧
       locks σ' = locks σ)
    (λ σ', σ' = σ ∧ alloc (dom (nodes σ)) = None) σ.
Proof.
  intros Hc Hcells. destruct (cells_of_shape _ _ _ Hc Hcells) as (o & Ho & Hsh).
  destruct xs as [|x xs _] using rev_ind.
  - apply shape_nil in Hsh as Hnil. destruct Hnil as (Hf & Hr & Hs).
    eapply wp_push_unsafe_empty; [done|done| |done].
    intros a Ha. exists a. split; [done|].
    destruct (push_size _ _ _ _ Hc Hsh Ha) as [Hmod Hlt]. simpl in Hmod, Hlt.
    rewrite Hmod.
    edestruct (coherent_update σ q (mkQueue (Some a) (Some a) 1 (mutex_ o))
                 (<[a := mkNode v None]> (nodes σ)) [(a, v)]) as (Hc' & Hcells' & Hothers).
    + done.
    + unfold shape. simpl. split_and!; [done| |done|done|by unfold size_max].
      exists None. split; [|done]. apply lookup_insert_eq.
    + intros q2 o2 xs2 b Hne H2 S2 Hb. split.
      * rewrite lookup_insert_ne; [done|]. intros <-.
        by eapply fresh_not_in_chain.
      * simpl. intros Hin. apply list_elem_of_singleton in Hin as ->.
        by eapply fresh_not_in_chain.
    + intros b nd. destruct (decide (a = b)) as [<-|Hne].
      * intros _. by eapply alloc_valid.
      * rewrite lookup_insert_ne by done. destruct Hc as (_ & _ & Hv). apply Hv.
    + split_and!; [done|done| |].
      * intros q2 Hq2. apply Hothers. by apply not_elem_of_cons in Hq2 as [? _].
      * by eapply locks_insert_same.
  - destruct x as [r vr].
    pose proof Hsh as (Hl & Hr & Hs & Hmax).
    pose proof (lseg_NoDup _ _ _ Hl) as Hnd.
    rewrite fmap_app in Hr, Hnd. simpl in Hr, Hnd. rewrite last_snoc in Hr.
    apply NoDup_app in Hnd as (_ & Hnr & _).
    apply lseg_app in Hl as (m & Hys & Hlast). simpl in Hlast.
    destruct Hlast as (-> & nx & Hnode & ->). simpl in Hnode.
    assert (∃ f, front_ o = Some f) as [f Hf].
    { destruct xs as [|y ys]; simpl in Hys; [eauto|]. destruct Hys as [? _]. eauto. }
    eapply wp_push_unsafe_nonempty; [done|done|done|done| |done].
    intros a Ha. exists a. split; [done|].
    destruct (push_size _ _ _ _ Hc Hsh Ha) as [Hmod Hlt].
    rewrite Hmod.
    pose proof (fresh_not_in_chain _ _ _ _ Hsh Ha) as Hfresh.
    rewrite fmap_app in Hfresh. simpl in Hfresh.
    apply not_elem_of_app in Hfresh as [Hfresh1 Hfresh2].
    apply not_elem_of_cons in Hfresh2 as [Hfresh2 _].
    edestruct (coherent_update σ q
                 (mkQueue (Some f) (Some a) (Z.of_nat (length (xs ++ [(r, vr)])) + 1)
                    (mutex_ o))
                 (<[r := mkNode vr (Some a)]> (<[a := mkNode v None]> (nodes σ)))
                 ((xs ++ [(r, vr)]) ++ [(a, v)])) as (Hc' & Hcells' & Hothers).
    + done.
    + unfold shape. simpl. split_and!.
      * rewrite <- app_assoc. apply lseg_app. exists (Some r). split.
        -- rewrite <- Hf. eapply lseg_frame; [|done]. intros b Hb.
           rewrite !lookup_insert_ne; [done| |]; intros <-; [done|].
           apply (Hnr _ Hb). left.
        -- simpl. split; [done|]. exists (Some a). split; [apply lookup_insert_eq|].
           split; [done|]. exists None. split; [|done].
           rewrite lookup_insert_ne by done. apply lookup_insert_eq.
      * rewrite (fmap_app _ (xs ++ [(r, vr)])). simpl. by rewrite last_snoc.
      * rewrite (length_app (xs ++ [(r, vr)])). simpl. lia.
      * done.
    + intros q2 o2 xs2 b Hne H2 S2 Hb.
      assert (b ∉ (xs ++ [(r, vr)]).*1) as Hb'.
      { intros Hin. destruct Hc as (_ & Hd & _).
        by apply (Hd q q2 o o2 (xs ++ [(r, vr)]) xs2 b). }
      assert (b ≠ a) as Hba.
      { intros ->. by eapply (fresh_not_in_chain σ o2). }
      split.
      * rewrite !lookup_insert_ne; [done|done|].
        intros <-. apply Hb'. rewrite fmap_app. simpl.
        apply elem_of_app. right. left.
      * rewrite fmap_app. simpl. apply not_elem_of_app. split; [done|].
        intros Hin. by apply list_elem_of_singleton in Hin.
    + intros b nd. destruct (decide (r = b)) as [<-|Hne1].
      { intros _. destruct Hc as (_ & _ & Hv). by eapply Hv. }
      rewrite lookup_insert_ne by done.
      destruct (decide (a = b)) as [<-|Hne].
      * intros _. by eapply alloc_valid.
      * rewrite lookup_insert_ne by done. destruct Hc as (_ & _ & Hv). apply Hv.
    + split_and!; [done|done| |].
      * intros q2 Hq2. apply Hothers. by apply not_elem_of_cons in Hq2 as [? _].
      * by eapply locks_insert_same.
Qed.

Lemma removal_post σ q o a v nx xs :
  coherent σ → queues σ !! q = Some o → shape (nodes σ) o ((a, v) :: xs) →
  nodes σ !! a = Some (mkNode v nx) →
  let σ' :=
    mkStore (delete a (nodes σ))
      (<[q := mkQueue nx (if decide (Some a = rear_ o) then None else rear_ o)
                ((size_ o - 1) mod size_max) (mutex_ o)]> (queues σ)) in
  coherent σ' ∧ cells_of σ' q = Some xs ∧ changes_only [q] σ σ' ∧
  locks σ' = locks σ.
Proof.
  intros Hc Ho Hsh Ha σ'.
  pose proof Hsh as (Hl & Hr & Hs & Hmax).
  pose proof (lseg_NoDup _ _ _ Hl) as Hnd. simpl in Hnd.
  apply NoDup_cons in Hnd as [Hnotin Hnd].
  simpl in Hl. destruct Hl as (Hf & nx' & Ha' & Hl).
  rewrite Ha in Ha'. injection Ha' as <-.
  simpl in Hs.
  assert ((size_ o - 1) mod size_max = Z.of_nat (length xs)) as Hmod.
  { rewrite Z.mod_small; lia. }
  edestruct (coherent_update σ q
               (mkQueue nx (if decide (Some a = rear_ o) then None else rear_ o)
                  ((size_ o - 1) mod size_max) (mutex_ o))
               (delete a (nodes σ)) xs) as (Hc' & Hcells' & Hothers).
  - done.
  - unfold shape. simpl. split_and!.
    + eapply lseg_frame; [|done]. intros b Hb.
      apply lookup_delete_ne. by intros <-.
    + simpl in Hr. destruct xs as [|[b w] ys]; simpl in *.
      * by rewrite decide_True.
      * rewrite decide_False; [done|]. rewrite Hr. intros Heq.
        apply Hnotin. destruct ys as [|y ys']; simpl in *.
        -- injection Heq as ->. left.
        -- right. eapply list_elem_of_lookup_2. rewrite <- last_lookup.
           symmetry. exact Heq.
    + done.
    + lia.
  - intros q2 o2 xs2 b Hne H2 S2 Hb.
    assert (b ∉ ((a, v) :: xs).*1) as Hb'.
    { intros Hin. destruct Hc as (_ & Hd & _).
      by apply (Hd q q2 o o2 ((a, v) :: xs) xs2 b). }
    simpl in Hb'. apply not_elem_of_cons in Hb' as [Hba Hbxs].
    split; [|done]. by apply lookup_delete_ne.
  - intros b nd Hb. apply lookup_delete_Some in Hb as [_ Hb].
    destruct Hc as (_ & _ & Hv). by eapply Hv.
  - split_and!; [done|done| |].
    + intros q2 Hq2. apply Hothers. by apply not_elem_of_cons in Hq2 as [? _].
    + by eapply locks_insert_same.
Qed.

(** *** The copying loop *)

Lemma copy_loop_unfold (ins : T → M unit) fuel current :
  copy_loop ins fuel current =
  match current with
  | None => mret tt
  | Some _ =>
      match fuel with
      | O => stuck Diverged
      | S fuel' =>
          nd ← load current;
          ins (data nd);;
          nd' ← load current;
          copy_loop ins fuel' (next nd')
      end
  end.
Proof. by destruct fuel. Qed.

Lemma wp_copy_loop (ins : T → M unit) this other (I : store T → Prop) :
  this ≠ other →
  (∀ σ ys v, coherent σ → I σ → cells_of σ this = Some ys →
     wp (ins v)
       (λ _ σ', ∃ a, coherent σ' ∧ I σ' ∧
                     cells_of σ' this = Some (ys ++ [(a, v)]) ∧
                     changes_only [this] σ σ')
       (λ σ', coherent σ' ∧ I σ' ∧ changes_only [this] σ σ') σ) →
  ∀ todo done_ ys σ fuel current,
    coherent σ → I σ → cells_of σ this = Some ys →
    cells_of σ other = Some (done_ ++ todo) →
    lseg (nodes σ) current todo None → (length todo ≤ fuel)%nat →
    wp (copy_loop ins fuel current)
      (λ _ σ', ∃ zs, coherent σ' ∧ I σ' ∧ cells_of σ' this = Some (ys ++ zs) ∧
                     zs.*2 = todo.*2 ∧ changes_only [this] σ σ')
      (λ σ', coherent σ' ∧ I σ' ∧ changes_only [this] σ σ') σ.
Proof.
  intros Hne Hins todo.
  induction todo as [|[a v] todo IH]; intros done_ ys σ fuel current Hc HI Hthis Hother Hl Hfuel.
  - simpl in Hl. subst current. rewrite copy_loop_unfold. apply wp_ret.
    exists []. rewrite app_nil_r. split_and!; [done|done|done|done|].
    apply changes_only_refl.
  - simpl in Hl. destruct Hl as (-> & nx & Ha & Hl). simpl in Ha.
    destruct fuel as [|fuel]; [simpl in Hfuel; lia|].
    rewrite copy_loop_unfold. wp_steps.
    eapply wp_mono; [by apply (Hins σ ys v)| |].
    + intros _ σ1 (b & Hc1 & HI1 & Hthis1 & Hch1). simpl.
      assert (other ∉ [this]) as Ho1.
      { apply not_elem_of_cons. split; [done|apply not_elem_of_nil]. }
      pose proof (Hch1 other Ho1) as Hother1. rewrite Hother in Hother1.
      destruct (cells_of_shape _ _ _ Hc1 Hother1) as (o1 & _ & Hl1 & _).
      apply lseg_app in Hl1 as (m & _ & Hl1). simpl in Hl1.
      destruct Hl1 as (_ & nx1 & Ha1 & Hl1).
      wp_steps.
      eapply wp_mono.
      * apply (IH (done_ ++ [(a, v)]) (ys ++ [(b, v)]) σ1 fuel nx1); try done.
        -- by rewrite <- app_assoc.
        -- simpl in Hfuel. lia.
      * intros _ σ2 (zs & Hc2 & HI2 & Hthis2 & Hzs & Hch2). simpl.
        exists ((b, v) :: zs). split_and!; [done|done| | |].
        -- by rewrite <- app_assoc in Hthis2.
        -- by rewrite !fmap_cons, Hzs.
        -- by eapply changes_only_trans.
      * intros σ2 (Hc2 & HI2 & Hch2). simpl.
        split_and!; [done|done|]. by eapply changes_only_trans.
    + intros σ1 (Hc1 & HI1 & Hch1). done.
Qed.

(** *** Clearing and transferring a chain *)

Lemma lookup_foldr_delete h (l : list addr) a :
  foldr delete h l !! a = if decide (a ∈ l) then None else h !! a.
Proof.
  induction l as [|b l IH].
  - case_decide as Hin; [|done]. by apply elem_of_nil in Hin.
  - cbn [foldr]. destruct (decide (b = a)) as [->|Hne].
    + rewrite lookup_delete_eq, decide_True; [done|]. left.
    + rewrite lookup_delete_ne by done. rewrite IH.
      destruct (decide (a ∈ l)) as [Hin|Hin].
      * rewrite decide_True; [done|]. by right.
      * rewrite decide_False; [done|]. intros Hin'.
        apply elem_of_cons in Hin' as [->|?]; done.
Qed.

Lemma move_assign_unfold this other :
  move_assign (T := T) this other =
  if decide (this ≠ other) then lock_both this other (transfer this other)
  else mret tt.
Proof. reflexivity. Qed.

Lemma move_ctor_unfold this other :
  move_ctor (T := T) this other =
  (construct this;; lock_guard other (transfer this other)).
Proof. reflexivity. Qed.

Lemma wp_clear {B} q o xs (k : M B) (Q : B → store T → Prop) E σ :
  queues σ !! q = Some o → lseg (nodes σ) (front_ o) xs None →
  wp k Q E
    (mkStore (foldr delete (nodes σ) xs.*1)
       (<[q := mkQueue None None 0 (mutex_ o)]> (queues σ))) →
  wp (reset_front q None;; set_rear q None;; set_size q 0;; k) Q E σ.
Proof.
  intros Ho Hl Hk. wp_steps. eapply wp_delete_ptr; [done|].
  wp_steps. by rewrite !insert_insert_eq.
Qed.

Lemma wp_transfer this other ot oo xs (Q : unit → store T → Prop) E σ :
  this ≠ other →
  queues σ !! this = Some ot → queues σ !! other = Some oo →
  lseg (nodes σ) (front_ ot) xs None →
  Q tt
    (mkStore (foldr delete (nodes σ) xs.*1)
       (<[other := mkQueue None None 0 (mutex_ oo)]>
          (<[this := mkQueue (front_ oo) (rear_ oo) (size_ oo) (mutex_ ot)]>
             (queues σ)))) →
  wp (transfer this other) Q E σ.
Proof.
  intros Hne Ht Ho Hl HQ. unfold transfer. wp_steps.
  eapply wp_delete_ptr; [done|]. wp_steps.
  rewrite !insert_insert_eq.
  rewrite (insert_insert_ne _ this other) by done.
  by rewrite insert_insert_eq.
Qed.

Lemma not_in_singleton (q q2 : qid) : q2 ∉ [q] → q2 ≠ q.
Proof. intros Hq2 ->. apply Hq2. left. Qed.

Lemma constructed_post σ q :
  coherent σ → queues σ !! q = None →
  let σ' := mkStore (nodes σ)
              (<[q := mkQueue None None 0 false]> (queues σ)) in
  coherent σ' ∧ cells_of σ' q = Some [] ∧ changes_only [q] σ σ' ∧
  locks σ' = <[q := false]> (locks σ).
Proof.
  intros Hc Hq σ'.
  edestruct (coherent_update σ q (mkQueue None None 0 false) (nodes σ) [])
    as (Hc' & Hcells' & Hothers).
  - done.
  - by apply shape_nil.
  - intros q2 o2 xs2 a Hne H2 S2 Ha. split; [done|]. apply not_elem_of_nil.
  - by destruct Hc as (_ & _ & Hv).
  - split_and!; [done|done| |].
    + intros q2 Hq2. by apply Hothers, not_in_singleton.
    + unfold σ'. by rewrite (locks_insert (nodes σ)); destruct σ.
Qed.

Lemma cleared_post σ q o xs :
  coherent σ → queues σ !! q = Some o → shape (nodes σ) o xs →
  let σ' := mkStore (foldr delete (nodes σ) xs.*1)
              (<[q := mkQueue None None 0 (mutex_ o)]> (queues σ)) in
  coherent σ' ∧ cells_of σ' q = Some [] ∧ changes_only [q] σ σ' ∧
  locks σ' = locks σ.
Proof.
  intros Hc Ho Hsh σ'. pose proof Hc as (Hq & Hd & Hv).
  edestruct (coherent_update σ q (mkQueue None None 0 (mutex_ o))
               (foldr delete (nodes σ) xs.*1) [])
    as (Hc' & Hcells' & Hothers).
  - done.
  - by apply shape_nil.
  - intros q2 o2 xs2 a Hne H2 S2 Ha. split; [|apply not_elem_of_nil].
    rewrite lookup_foldr_delete, decide_False; [done|].
    intros Hin. by apply (Hd q q2 o o2 xs xs2 a).
  - intros a nd. rewrite lookup_foldr_delete. case_decide; [done|]. apply Hv.
  - split_and!; [done|done| |].
    + intros q2 Hq2. by apply Hothers, not_in_singleton.
    + by eapply locks_insert_same.
Qed.

Lemma transferred_post σ this other ot oo xt xo :
  coherent σ → this ≠ other →
  queues σ !! this = Some ot → queues σ !! other = Some oo →
  shape (nodes σ) ot xt → shape (nodes σ) oo xo →
  let σ' :=
    mkStore (foldr delete (nodes σ) xt.*1)
      (<[other := mkQueue None None 0 (mutex_ oo)]>
         (<[this := mkQueue (front_ oo) (rear_ oo) (size_ oo) (mutex_ ot)]>
            (queues σ))) in
  coherent σ' ∧ cells_of σ' this = Some xo ∧ cells_of σ' other = Some [] ∧
  changes_only [this; other] σ σ' ∧ locks σ' = locks σ.
Proof.
  intros Hc Hne Ht Ho St So σ'. pose proof Hc as (Hq & Hd & Hv).
  edestruct (coherent_update σ other (mkQueue None None 0 (mutex_ oo))
               (nodes σ) [])
    as (Hc1 & Hcells1 & Hothers1).
  { done. }
  { by apply shape_nil. }
  { intros q2 o2 xs2 a Hne2 H2 S2 Ha. split; [done|]. apply not_elem_of_nil. }
  { done. }
  set (σ1 := mkStore (nodes σ)
               (<[other := mkQueue None None 0 (mutex_ oo)]> (queues σ))) in *.
  edestruct (coherent_update σ1 this
               (mkQueue (front_ oo) (rear_ oo) (size_ oo) (mutex_ ot))
               (foldr delete (nodes σ) xt.*1) xo)
    as (Hc2 & Hcells2 & Hothers2).
  { done. }
  { eapply (shape_frame (nodes σ)).
    - intros a Ha. rewrite lookup_foldr_delete, decide_False; [done|].
      intros Hin. by apply (Hd this other ot oo xt xo a).
    - destruct So as (? & ? & ? & ?). done. }
  { intros q2 o2 xs2 a Hne2. unfold σ1. simpl.
    destruct (decide (q2 = other)) as [->|Hne3].
    - rewrite lookup_insert_eq. intros [= <-] S2 Ha.
      assert (xs2 = []) as ->.
      { eapply shape_inj; [done|]. by apply shape_nil. }
      by apply elem_of_nil in Ha.
    - rewrite lookup_insert_ne by done. intros H2 S2 Ha. split.
      + rewrite lookup_foldr_delete, decide_False; [done|].
        intros Hin. by apply (Hd this q2 ot o2 xt xs2 a).
      + intros Hin. by apply (Hd other q2 oo o2 xo xs2 a). }
  { intros a nd. rewrite lookup_foldr_delete. case_decide; [done|]. apply Hv. }
  assert (σ' = mkStore (foldr delete (nodes σ) xt.*1)
                 (<[this := mkQueue (front_ oo) (rear_ oo) (size_ oo) (mutex_ ot)]>
                    (queues σ1))) as Hσ'.
  { unfold σ', σ1. simpl. f_equal. by apply insert_insert_ne. }
  rewrite Hσ'. split_and!.
  - done.
  - done.
  - rewrite (Hothers2 other) by done. done.
  - intros q2 Hq2. apply not_elem_of_cons in Hq2 as [Hq2t Hq2].
    apply not_in_singleton in Hq2.
    rewrite (Hothers2 q2 Hq2t). by apply Hothers1.
  - rewrite <- Hσ'. unfold σ', locks. simpl. rewrite !fmap_insert. simpl.
    rewrite (insert_id _ this); [|by rewrite lookup_fmap, Ht].
    apply insert_id. by rewrite lookup_fmap, Ho.
Qed.

(** *** Locking in a coherent store *)

Lemma mutex_update σ q o b :
  coherent σ → queues σ !! q = Some o →
  relocked q b σ
    (mkStore (nodes σ)
       (<[q := mkQueue (front_ o) (rear_ o) (size_ o) b]> (queues σ))).
Proof.
  intros Hc Ho. pose proof Hc as (Hq & Hd & Hv).
  destruct (Hq _ _ Ho) as [xs Hsh].
  edestruct (coherent_update σ q (mkQueue (front_ o) (rear_ o) (size_ o) b)
               (nodes σ) xs) as (Hc' & Hcells' & Hothers).
  - done.
  - done.
  - intros q2 o2 xs2 a Hne H2 S2 Ha. split; [done|].
    intros Hin. by apply (Hd q q2 o o2 xs xs2 a).
  - done.
  - split_and!; [done| |].
    + intros q2 _. destruct (decide (q2 = q)) as [->|Hne].
      * rewrite Hcells'. symmetry. by eapply shape_cells_of.
      * by apply Hothers.
    + by rewrite (locks_insert (nodes σ)); destruct σ.
Qed.

Lemma wp_lock_coherent q (Q : unit → store T → Prop) E σ :
  coherent σ → locks σ !! q = Some false →
  (∀ σ', relocked q true σ σ' → Q tt σ') → wp (lock q) Q E σ.
Proof.
  intros Hc Hl HQ. apply locks_Some in Hl as (o & Ho & Hm).
  eapply wp_lock; [done|done|]. apply HQ. by apply mutex_update.
Qed.

Lemma wp_unlock_coherent q (Q : unit → store T → Prop) E σ :
  coherent σ → locks σ !! q = Some true →
  (∀ σ', relocked q false σ σ' → Q tt σ') → wp (unlock q) Q E σ.
Proof.
  intros Hc Hl HQ. apply locks_Some in Hl as (o & Ho & Hm).
  eapply wp_unlock; [done|done|]. apply HQ. by apply mutex_update.
Qed.

(** A guarded body that keeps the store coherent and the mutexes as they
    are is, as a whole, a step between stores with the same mutexes. *)
Lemma wp_lock_guard_coherent {A} q (body : M A) (Q : A → store T → Prop) E σ :
  coherent σ → locks σ !! q = Some false →
  (∀ σ1, coherent σ1 → changes_only [] σ σ1 →
     locks σ1 = <[q := true]> (locks σ) →
     wp body
       (λ a σ2, coherent σ2 ∧ locks σ2 = locks σ1 ∧
                ∀ σ3, coherent σ3 → changes_only [] σ2 σ3 →
                      locks σ3 = locks σ → Q a σ3)
       (λ σ2, coherent σ2 ∧ locks σ2 = locks σ1 ∧
              ∀ σ3, coherent σ3 → changes_only [] σ2 σ3 →
                    locks σ3 = locks σ → E σ3) σ1) →
  wp (lock_guard q body) Q E σ.
Proof.
  intros Hc Hl Hbody. unfold lock_guard. apply wp_bind.
  apply wp_lock_coherent; [done|done|]. intros σ1 (Hc1 & Hch1 & Hl1).
  assert (∀ σ2 σ3, locks σ2 = locks σ1 → relocked q false σ2 σ3 →
            locks σ3 = locks σ) as Hback.
  { intros σ2 σ3 H2 (_ & _ & H3). rewrite H3, H2, Hl1, insert_insert_eq.
    by apply insert_id. }
  apply wp_finally. eapply wp_mono; [by apply Hbody| |].
  - intros a σ2 (Hc2 & Hl2 & HQ).
    apply wp_unlock_coherent; [done| |].
    { rewrite Hl2, Hl1. apply lookup_insert_eq. }
    intros σ3 H3. pose proof H3 as (Hc3 & Hch3 & _). apply HQ; eauto.
  - intros σ2 (Hc2 & Hl2 & HE).
    apply wp_unlock_coherent; [done| |].
    { rewrite Hl2, Hl1. apply lookup_insert_eq. }
    intros σ3 H3. pose proof H3 as (Hc3 & Hch3 & _). apply HE; eauto.
Qed.

Lemma changes_only_nil X σ σ' : changes_only [] σ σ' → changes_only X σ σ'.
Proof. apply changes_only_weaken. intros q Hq. by apply elem_of_nil in Hq. Qed.

Lemma wp_push q xs v σ :
  coherent σ → cells_of σ q = Some xs → locks σ !! q = Some false →
  wp (push q v)
    (λ _ σ', ∃ a, coherent σ' ∧ cells_of σ' q = Some (xs ++ [(a, v)]) ∧
                  changes_only [q] σ σ' ∧ locks σ' = locks σ)
    (λ σ', coherent σ' ∧ changes_only [] σ σ' ∧ locks σ' = locks σ) σ.
Proof.
  intros Hc Hcells Hl. unfold push. apply wp_bind.
  apply wp_lock_guard_coherent; [done|done|].
  intros σ1 Hc1 Hch1 Hl1.
  assert (cells_of σ1 q = Some xs) as Hcells1.
  { rewrite <- Hcells. apply Hch1, not_elem_of_nil. }
  eapply wp_mono; [by apply (wp_push_unsafe q xs v σ1)| |].
  - intros _ σ2 (a & Ha & Hc2 & Hcells2 & Hch2 & Hl2). simpl.
    split_and!; [done|done|].
    intros σ3 Hc3 Hch3 Hl3. apply wp_ret.
    exists a. split_and!; [done| | |done].
    + rewrite <- Hcells2. apply Hch3, not_elem_of_nil.
    + eapply changes_only_trans; [|by apply changes_only_nil].
      eapply changes_only_trans; [by apply changes_only_nil|done].
  - intros σ2 [-> _]. split_and!; [done|done|].
    intros σ3 Hc3 Hch3 Hl3. split_and!; [done| |done].
    by eapply changes_only_trans.
Qed.

(** *** Copy assignment *)

Lemma wp_lock_both_coherent {A} a b (body : M A) (Q : A → store T → Prop) E σ :
  a ≠ b → coherent σ →
  locks σ !! a = Some false → locks σ !! b = Some false →
  (∀ σ1, coherent σ1 → changes_only [] σ σ1 →
     locks σ1 = <[b := true]> (<[a := true]> (locks σ)) →
     wp body
       (λ r σ2, coherent σ2 ∧ locks σ2 = locks σ1 ∧
                ∀ σ3, coherent σ3 → changes_only [] σ2 σ3 →
                      locks σ3 = locks σ → Q r σ3)
       (λ σ2, coherent σ2 ∧ locks σ2 = locks σ1 ∧
              ∀ σ3, coherent σ3 → changes_only [] σ2 σ3 →
                    locks σ3 = locks σ → E σ3) σ1) →
  wp (lock_both a b body) Q E σ.
Proof.
  intros Hne Hc Hla Hlb Hbody. unfold lock_both. apply wp_bind.
  apply wp_lock_coherent; [done|done|]. intros σa (Hca & Hcha & Hlka).
  apply wp_bind. apply wp_lock_coherent; [done| |].
  { rewrite Hlka. by rewrite lookup_insert_ne. }
  intros σ1 (Hc1 & Hch1 & Hlk1). rewrite Hlka in Hlk1.
  assert (∀ σ2 σ3 σ4, locks σ2 = locks σ1 → relocked b false σ2 σ3 →
            relocked a false σ3 σ4 →
            coherent σ4 ∧ changes_only [] σ2 σ4 ∧ locks σ4 = locks σ) as Hback.
  { intros σ2 σ3 σ4 H2 (_ & Hch3 & H3) (Hc4 & Hch4 & H4).
    split_and!; [done|by eapply changes_only_trans|].
    rewrite H4, H3, H2, Hlk1. rewrite insert_insert_eq.
    rewrite (insert_insert_ne _ b a) by done. rewrite insert_insert_eq.
    rewrite (insert_id (locks σ) b) by done. by apply insert_id. }
  assert (changes_only [] σ σ1) as Hch01 by (by eapply changes_only_trans).
  apply wp_finally. apply wp_finally.
  eapply wp_mono; [by apply Hbody| |].
  - intros r σ2 (Hc2 & Hl2 & HQ).
    apply wp_unlock_coherent; [done| |].
    { rewrite Hl2, Hlk1. apply lookup_insert_eq. }
    intros σ3 H3. pose proof H3 as (Hc3 & _ & Hl3).
    apply wp_unlock_coherent; [done| |].
    { rewrite Hl3, Hl2, Hlk1, insert_insert_eq.
      rewrite lookup_insert_ne by done. apply lookup_insert_eq. }
    intros σ4 H4. destruct (Hback _ _ _ Hl2 H3 H4) as (? & ? & ?).
    by apply HQ.
  - intros σ2 (Hc2 & Hl2 & HE).
    apply wp_unlock_coherent; [done| |].
    { rewrite Hl2, Hlk1. apply lookup_insert_eq. }
    intros σ3 H3. pose proof H3 as (Hc3 & _ & Hl3).
    apply wp_unlock_coherent; [done| |].
    { rewrite Hl3, Hl2, Hlk1, insert_insert_eq.
      rewrite lookup_insert_ne by done. apply lookup_insert_eq. }
    intros σ4 H4. destruct (Hback _ _ _ Hl2 H3 H4) as (? & ? & ?).
    by apply HE.
Qed.

Lemma copy_assign_unfold this other :
  copy_assign (T := T) this other =
  if decide (this ≠ other) then
    lock_both this other (
      reset_front this None;;
      set_rear this None;;
      set_size this 0;;
      (current ← get_front other;
       n ← heap_size;
       copy_loop (push_unsafe this) n current))
  else mret tt.
Proof. reflexivity. Qed.

Lemma wp_copy_assign this other xs σ :
  coherent σ → this ≠ other →
  locks σ !! this = Some false → locks σ !! other = Some false →
  cells_of σ other = Some xs →
  wp (copy_assign this other)
    (λ _ σ', ∃ zs, coherent σ' ∧ cells_of σ' this = Some zs ∧
                   zs.*2 = xs.*2 ∧ changes_only [this] σ σ' ∧
                   locks σ' = locks σ)
    (λ σ', coherent σ' ∧ changes_only [this] σ σ' ∧ locks σ' = locks σ) σ.
Proof.
  intros Hc Hne Hlt Hlo Hother. rewrite copy_assign_unfold.
  rewrite decide_True by done.
  apply wp_lock_both_coherent; [done..|]. intros σ1 Hc1 Hch1 Hl1.
  assert (∃ ot, queues σ1 !! this = Some ot) as [ot Ht].
  { destruct (locks_Some σ1 this true) as (ot & ? & _); [|eauto].
    rewrite Hl1. rewrite lookup_insert_ne by done. apply lookup_insert_eq. }
  destruct Hc1 as (Hq1 & Hd1 & Hv1). destruct (Hq1 _ _ Ht) as [xt St].
  assert (coherent σ1) as Hc1 by done.
  eapply wp_clear; [done|by destruct St|].
  destruct (cleared_post σ1 this ot xt Hc1 Ht St) as (Hc2 & Hcells2 & Hch2 & Hl2).
  set (σ2 := mkStore _ _) in *.
  assert (other ∉ [this]) as Hot.
  { apply not_elem_of_cons. split; [done|apply not_elem_of_nil]. }
  assert (cells_of σ2 other = Some xs) as Hother2.
  { rewrite (Hch2 other Hot). rewrite <- Hother. apply Hch1, not_elem_of_nil. }
  destruct (cells_of_shape _ _ _ Hc2 Hother2) as (oo & Ho2 & So2).
  wp_steps.
  eapply wp_mono.
  - apply (wp_copy_loop (push_unsafe this) this other
             (λ σ, locks σ = locks σ2) Hne) with (done_ := []) (ys := []).
    + intros σa ys v Hca HIa Hcellsa.
      eapply wp_mono; [by apply (wp_push_unsafe this ys v σa)| |].
      * intros _ σb (a & _ & ? & ? & ? & Hlb). exists a.
        split_and!; [done|congruence|done|done].
      * intros σb [-> _]. split_and!; [done|done|apply changes_only_refl].
    + done.
    + done.
    + done.
    + done.
    + by destruct So2.
    + destruct So2 as [Hl _]. by eapply lseg_length_le_size.
  - intros _ σ3 (zs & Hc3 & Hl3 & Hcells3 & Hzs & Hch3). simpl.
    split_and!; [done|congruence|].
    intros σ4 Hc4 Hch4 Hl4. exists zs. split_and!; [done| |done| |done].
    + simpl in Hcells3. rewrite <- Hcells3. apply Hch4, not_elem_of_nil.
    + eapply changes_only_trans; [|by apply changes_only_nil].
      eapply changes_only_trans; [|done].
      eapply changes_only_trans; [by apply changes_only_nil|done].
  - intros σ3 (Hc3 & Hl3 & Hch3). simpl.
    split_and!; [done|congruence|].
    intros σ4 Hc4 Hch4 Hl4. split_and!; [done| |done].
    eapply changes_only_trans; [|by apply changes_only_nil].
    eapply changes_only_trans; [|done].
    eapply changes_only_trans; [by apply changes_only_nil|done].
Qed.

(** *** Move construction and assignment, destruction, copy construction *)

Lemma wp_transfer_coherent this other xs σ :
  coherent σ → this ≠ other → is_Some (queues σ !! this) →
  cells_of σ other = Some xs →
  wp (transfer this other)
    (λ _ σ', coherent σ' ∧ cells_of σ' this = Some xs ∧
             cells_of σ' other = Some [] ∧
             changes_only [this; other] σ σ' ∧ locks σ' = locks σ)
    (λ _, False) σ.
Proof.
  intros Hc Hne [ot Ht] Hother.
  destruct (cells_of_shape _ _ _ Hc Hother) as (oo & Ho & So).
  pose proof Hc as (Hq & _ & _). destruct (Hq _ _ Ht) as [xt St].
  eapply wp_transfer; [done|done|done|by destruct St|].
  by apply transferred_post.
Qed.

Lemma wp_move_assign this other xs σ :
  coherent σ → this ≠ other →
  locks σ !! this = Some false → locks σ !! other = Some false →
  cells_of σ other = Some xs →
  wp (move_assign this other)
    (λ _ σ', coherent σ' ∧ cells_of σ' this = Some xs ∧
             cells_of σ' other = Some [] ∧
             changes_only [this; other] σ σ' ∧ locks σ' = locks σ)
    (λ _, False) σ.
Proof.
  intros Hc Hne Hlt Hlo Hother. rewrite move_assign_unfold.
  rewrite decide_True by done.
  apply wp_lock_both_coherent; [done..|]. intros σ1 Hc1 Hch1 Hl1.
  eapply wp_mono.
  - apply (wp_transfer_coherent this other xs σ1); [done|done| |].
    + destruct (locks_Some σ1 this true) as (ot & ? & _); [|eauto].
      rewrite Hl1. rewrite lookup_insert_ne by done. apply lookup_insert_eq.
    + rewrite <- Hother. apply Hch1, not_elem_of_nil.
  - intros _ σ2 (Hc2 & Ht2 & Ho2 & Hch2 & Hl2). simpl.
    split_and!; [done|done|].
    intros σ3 Hc3 Hch3 Hl3. split_and!; [done| | | |done].
    + rewrite <- Ht2. apply Hch3, not_elem_of_nil.
    + rewrite <- Ho2. apply Hch3, not_elem_of_nil.
    + eapply changes_only_trans; [|by apply changes_only_nil].
      eapply changes_only_trans; [by apply changes_only_nil|done].
  - done.
Qed.

Lemma wp_move_ctor this other xs σ :
  coherent σ → queues σ !! this = None →
  locks σ !! other = Some false → cells_of σ other = Some xs →
  wp (move_ctor this other)
    (λ _ σ', coherent σ' ∧ cells_of σ' this = Some xs ∧
             cells_of σ' other = Some [] ∧
             changes_only [this; other] σ σ' ∧
             locks σ' = <[this := false]> (locks σ))
    (λ _, False) σ.
Proof.
  intros Hc Hnone Hlo Hother. rewrite move_ctor_unfold.
  assert (this ≠ other) as Hne.
  { intros ->. rewrite locks_lookup, Hnone in Hlo. done. }
  apply wp_bind. apply wp_construct; [done|].
  destruct (constructed_post σ this Hc Hnone) as (Hc0 & Ht0 & Hch0 & Hl0).
  set (σ0 := mkStore _ _) in *.
  assert (other ∉ [this]) as Hot.
  { apply not_elem_of_cons. split; [done|apply not_elem_of_nil]. }
  apply wp_lock_guard_coherent; [done| |].
  { rewrite Hl0. by rewrite lookup_insert_ne. }
  intros σ1 Hc1 Hch1 Hl1.
  eapply wp_mono.
  - apply (wp_transfer_coherent this other xs σ1); [done|done| |].
    + destruct (locks_Some σ1 this false) as (ot & ? & _); [|eauto].
      rewrite Hl1, Hl0. rewrite lookup_insert_ne by done. apply lookup_insert_eq.
    + rewrite <- Hother, <- (Hch0 other Hot). apply Hch1, not_elem_of_nil.
  - intros _ σ2 (Hc2 & Ht2 & Ho2 & Hch2 & Hl2). simpl.
    split_and!; [done|done|].
    intros σ3 Hc3 Hch3 Hl3. split_and!; [done| | | |exact (eq_trans Hl3 Hl0)].
    + rewrite <- Ht2. apply Hch3, not_elem_of_nil.
    + rewrite <- Ho2. apply Hch3, not_elem_of_nil.
    + eapply changes_only_trans; [|by apply changes_only_nil].
      eapply changes_only_trans; [|done].
      eapply changes_only_trans; [|by apply changes_only_nil].
      eapply changes_only_weaken; [|done]. intros q Hq.
      apply list_elem_of_singleton in Hq as ->. left.
  - done.
Qed.

Lemma coherent_delete_queue σ q :
  coherent σ →
  coherent (mkStore (nodes σ) (delete q (queues σ))) ∧
  changes_only [q] σ (mkStore (nodes σ) (delete q (queues σ))).
Proof.
  intros (Hq & Hd & Hv). split.
  - split_and!; simpl.
    + intros q0 o0 H0. apply lookup_delete_Some in H0 as [_ H0]. eauto.
    + intros q1 q2 o1 o2 xs1 xs2 a Hne H1 H2.
      apply lookup_delete_Some in H1 as [_ H1].
      apply lookup_delete_Some in H2 as [_ H2]. by apply (Hd q1 q2).
    + done.
  - intros q2 Hq2. apply not_in_singleton in Hq2.
    unfold cells_of. simpl. by rewrite lookup_delete_ne.
Qed.

Lemma wp_destroy q σ :
  coherent σ → is_Some (queues σ !! q) →
  wp (destroy q)
    (λ _ σ', coherent σ' ∧ queues σ' !! q = None ∧
             changes_only [q] σ σ' ∧ locks σ' = delete q (locks σ))
    (λ _, False) σ.
Proof.
  intros Hc [o Ho]. pose proof Hc as (Hq & _ & _).
  destruct (Hq _ _ Ho) as [xs Hsh].
  unfold destroy. wp_steps.
  eapply wp_delete_ptr; [by destruct Hsh|]. unfold wp, end_of_life. simpl.
  destruct (cleared_post σ q o xs Hc Ho Hsh) as (Hc1 & _ & Hch1 & Hl1).
  destruct (coherent_delete_queue _ q Hc1) as [Hc2 Hch2]. simpl in Hc2, Hch2.
  rewrite delete_insert_eq in Hc2, Hch2.
  split_and!; [done| | |].
  - apply lookup_delete_eq.
  - by eapply changes_only_trans.
  - unfold locks. simpl. apply fmap_delete.
Qed.

Lemma wp_copy_ctor this other xs σ :
  coherent σ → queues σ !! this = None →
  locks σ !! other = Some false → cells_of σ other = Some xs →
  wp (copy_ctor this other)
    (λ _ σ', ∃ zs, coherent σ' ∧ cells_of σ' this = Some zs ∧
                   zs.*2 = xs.*2 ∧ changes_only [this] σ σ' ∧
                   locks σ' = <[this := false]> (locks σ))
    (λ σ', coherent σ' ∧ changes_only [this] σ σ' ∧ locks σ' = locks σ) σ.
Proof.
  intros Hc Hnone Hlo Hother. unfold copy_ctor.
  assert (this ≠ other) as Hne.
  { intros ->. rewrite locks_lookup, Hnone in Hlo. done. }
  apply wp_bind. apply wp_construct; [done|].
  destruct (constructed_post σ this Hc Hnone) as (Hc0 & Ht0 & Hch0 & Hl0).
  set (σ0 := mkStore _ _) in *.
  assert (other ∉ [this]) as Hot.
  { apply not_elem_of_cons. split; [done|apply not_elem_of_nil]. }
  apply wp_on_throw.
  eapply wp_mono.
  - apply (wp_lock_guard_coherent other _
             (λ _ σ', ∃ zs, coherent σ' ∧ cells_of σ' this = Some zs ∧
                zs.*2 = xs.*2 ∧ changes_only [this] σ0 σ' ∧
                locks σ' = locks σ0)
             (λ σ', coherent σ' ∧ changes_only [this] σ0 σ' ∧
                locks σ' = locks σ0)); [done| |].
    { rewrite Hl0. by rewrite lookup_insert_ne. }
    intros σ1 Hc1 Hch1 Hl1.
    assert (cells_of σ1 other = Some xs) as Hother1.
    { rewrite <- Hother, <- (Hch0 other Hot). apply Hch1, not_elem_of_nil. }
    destruct (cells_of_shape _ _ _ Hc1 Hother1) as (oo & Ho1 & So1).
    wp_steps.
    eapply wp_mono.
    + apply (wp_copy_loop (push this) this other
               (λ σ, locks σ = locks σ1) Hne) with (done_ := []) (ys := []).
      * intros σa ys v Hca HIa Hcellsa.
        eapply wp_mono; [apply (wp_push this ys v σa); [done|done|]| |].
        -- rewrite HIa, Hl1, Hl0. rewrite lookup_insert_ne by done.
           apply lookup_insert_eq.
        -- intros _ σb (a & ? & ? & ? & Hlb). exists a.
           split_and!; [done|congruence|done|done].
        -- intros σb (? & ? & ?). split_and!; [done|congruence|].
           by apply changes_only_nil.
      * done.
      * done.
      * rewrite <- Ht0. apply Hch1, not_elem_of_nil.
      * done.
      * by destruct So1.
      * destruct So1 as [Hl _]. by eapply lseg_length_le_size.
    + intros _ σ2 (zs & Hc2 & Hl2 & Hcells2 & Hzs & Hch2). simpl.
      split_and!; [done|done|].
      intros σ3 Hc3 Hch3 Hl3. exists zs. split_and!; [done| |done| |done].
      * simpl in Hcells2. rewrite <- Hcells2. apply Hch3, not_elem_of_nil.
      * eapply changes_only_trans; [|by apply changes_only_nil].
        eapply changes_only_trans; [by apply changes_only_nil|done].
    + intros σ2 (Hc2 & Hl2 & Hch2). simpl.
      split_and!; [done|done|].
      intros σ3 Hc3 Hch3 Hl3. split_and!; [done| |done].
      eapply changes_only_trans; [|by apply changes_only_nil].
      eapply changes_only_trans; [by apply changes_only_nil|done].
  - intros _ σ' (zs & Hc' & Hcells' & Hzs & Hch' & Hl'). exists zs.
    split_and!; [done|done|done| |exact (eq_trans Hl' Hl0)].
    by eapply changes_only_trans.
  - intros σ' (Hc' & Hch' & Hl'). simpl.
    eapply wp_mono.
    + apply (wp_destroy this σ'); [done|].
      destruct (locks_Some σ' this false) as (ot & ? & _); [|eauto].
      rewrite Hl', Hl0. apply lookup_insert_eq.
    + intros _ σ'' (Hc'' & _ & Hch'' & Hl''). simpl.
      split_and!; [done| |].
      * eapply changes_only_trans; [|done]. by eapply changes_only_trans.
      * rewrite Hl'', Hl', Hl0. rewrite delete_insert_eq.
        apply delete_id. by rewrite locks_lookup, Hnone.
    + done.
Qed.

End Run.

(** ** Well-formed stores *)

Section WellFormed.
Context {T : Type} `{Allocator}.
Implicit Types (h : gmap addr (Node T)) (σ : store T) (o : ConcurrentQueue).
Implicit Types (xs ys : list (addr * T)) (E : store T → Prop).
Implicit Types (l : list T).

Lemma contents_cells σ q : contents σ q = (λ xs, xs.*2) <$> cells_of σ q.
Proof.
  unfold contents, cells_of. destruct (queues σ !! q) as [o|]; [|done]. simpl.
  by destruct (cells (nodes σ) o).
Qed.

Lemma contents_Some σ q l :
  contents σ q = Some l ↔ ∃ xs, cells_of σ q = Some xs ∧ xs.*2 = l.
Proof.
  rewrite contents_cells. destruct (cells_of σ q) as [xs|]; simpl.
  - split; [intros [= <-]; eauto|]. by intros (ys & [= <-] & <-).
  - split; [done|]. by intros (ys & ? & _).
Qed.

Lemma wf_unlocked_at σ q o : wf σ → queues σ !! q = Some o → mutex_ o = false.
Proof. intros Hwf Ho. by destruct (wf_lookup _ _ _ Hwf Ho). Qed.

Lemma wf_locks σ q : wf σ → is_Some (queues σ !! q) → locks σ !! q = Some false.
Proof.
  intros Hwf [o Ho]. rewrite locks_lookup, Ho. simpl.
  by rewrite (wf_unlocked_at _ _ _ Hwf Ho).
Qed.

Lemma cells_of_is_Some σ q xs :
  cells_of σ q = Some xs → is_Some (queues σ !! q).
Proof. unfold cells_of. by destruct (queues σ !! q). Qed.

Lemma wf_of_coherent σ σ' :
  wf σ → coherent σ' → locks σ' = locks σ → wf σ'.
Proof.
  intros Hwf Hc Hl. apply wf_coherent. split; [done|].
  apply wf_coherent in Hwf as [_ Hu]. intros q. rewrite Hl. apply Hu.
Qed.

(** In a well-formed store a non-empty queue has a live front node. *)
Lemma wf_front σ q x l :
  wf σ → contents σ q = Some (x :: l) →
  ∃ o a nx xs,
    queues σ !! q = Some o ∧ mutex_ o = false ∧ front_ o = Some a ∧
    nodes σ !! a = Some (mkNode x nx) ∧
    shape (nodes σ) o ((a, x) :: xs) ∧ xs.*2 = l.
Proof.
  intros Hwf Hcont. apply contents_Some in Hcont as (ys & Hcells & Hys).
  destruct ys as [|[a v] xs]; [done|]. simpl in Hys. injection Hys as -> <-.
  pose proof Hwf as [Hc _]%wf_coherent.
  destruct (cells_of_shape _ _ _ Hc Hcells) as (o & Ho & Hsh).
  pose proof Hsh as ((Hf & nx & Ha & _) & _). simpl in Hf, Ha.
  exists o, a, nx, xs. split_and!; try done. by eapply wf_unlocked_at.
Qed.

Lemma wf_empty σ q :
  wf σ → contents σ q = Some [] →
  ∃ o, queues σ !! q = Some o ∧ mutex_ o = false ∧
       front_ o = None ∧ rear_ o = None ∧ size_ o = 0.
Proof.
  intros Hwf Hcont. apply contents_Some in Hcont as (ys & Hcells & Hys).
  destruct ys; [|done].
  pose proof Hwf as [Hc _]%wf_coherent.
  destruct (cells_of_shape _ _ _ Hc Hcells) as (o & Ho & Hsh).
  apply shape_nil in Hsh as (? & ? & ?).
  exists o. split_and!; try done. by eapply wf_unlocked_at.
Qed.

Lemma wf_removed σ q o a v nx xs :
  wf σ → queues σ !! q = Some o → shape (nodes σ) o ((a, v) :: xs) →
  nodes σ !! a = Some (mkNode v nx) →
  wf (removed σ q o a nx) ∧ cells_of (removed σ q o a nx) q = Some xs ∧
  changes_only [q] σ (removed σ q o a nx).
Proof.
  intros Hwf Ho Hsh Ha. pose proof Hwf as [Hc _]%wf_coherent.
  destruct (removal_post σ q o a v nx xs Hc Ho Hsh Ha) as (Hc' & Hcells & Hch & Hl).
  rewrite (wf_unlocked_at _ _ _ Hwf Ho) in Hc', Hcells, Hch, Hl.
  split_and!; [|done|done]. by eapply wf_of_coherent.
Qed.

(** The fields of a queue object are determined by its chain and its
    mutex. *)
Lemma object_determined σ σ' q :
  coherent σ → coherent σ' →
  cells_of σ' q = cells_of σ q → locks σ' !! q = locks σ !! q →
  queues σ' !! q = queues σ !! q.
Proof.
  intros Hc Hc' Hcells Hl. rewrite !locks_lookup in Hl.
  destruct (queues σ !! q) as [o|] eqn:Ho;
    destruct (queues σ' !! q) as [o'|] eqn:Ho'; try done.
  destruct (coherent_cells_of _ _ _ Hc Ho) as [xs Hxs].
  rewrite Hxs in Hcells.
  destruct (cells_of_shape _ _ _ Hc Hxs) as (o1 & Ho1 & Hsh).
  destruct (cells_of_shape _ _ _ Hc' Hcells) as (o1' & Ho1' & Hsh').
  rewrite Ho in Ho1. rewrite Ho' in Ho1'.
  injection Ho1 as <-. injection Ho1' as <-.
  destruct Hsh as (Hl1 & Hr1 & Hs1 & _). destruct Hsh' as (Hl2 & Hr2 & Hs2 & _).
  simpl in Hl. injection Hl as Hm.
  f_equal. destruct o, o'. simpl in *. subst.
  f_equal. by destruct xs as [|[??]?]; simpl in *; destruct Hl1, Hl2; subst.
Qed.

Lemma size_run q o σ :
  queues σ !! q = Some o → mutex_ o = false → size q σ = Ok (size_ o) σ.
Proof.
  intros Ho Hm. apply wp_eq. unfold size. wp_steps. split; [done|].
  rewrite (insert_unlock_id _ _ o) by done. by destruct σ.
Qed.

Lemma wf_size σ q o l :
  wf σ → queues σ !! q = Some o → contents σ q = Some l →
  size_ o = Z.of_nat (length l).
Proof.
  intros Hwf Ho Hcont. apply contents_Some in Hcont as (xs & Hcells & <-).
  pose proof Hwf as [Hc _]%wf_coherent.
  destruct (cells_of_shape _ _ _ Hc Hcells) as (o' & Ho' & Hsh).
  rewrite Ho in Ho'. injection Ho' as <-.
  destruct Hsh as (_ & _ & -> & _). by rewrite length_fmap.
Qed.

Lemma contents_removed σ q o a v nx xs :
  wf σ → queues σ !! q = Some o → shape (nodes σ) o ((a, v) :: xs) →
  nodes σ !! a = Some (mkNode v nx) →
  contents (removed σ q o a nx) q = Some xs.*2.
Proof.
  intros Hwf Ho Hsh Ha.
  destruct (wf_removed _ _ _ _ _ _ _ Hwf Ho Hsh Ha) as (_ & Hcells & _).
  apply contents_Some. eauto.
Qed.

End WellFormed.

(** ** Computations that never wait on the condition variable *)

Section Quiet.
Context {T : Type} `{Allocator}.

Lemma quiet_ret {A} (a : A) : quiet (T := T) (mret a).
Proof. done. Qed.

Lemma quiet_bind {A B} (m : M A) (k : A → M B) :
  quiet (T := T) m → (∀ a, quiet (T := T) (k a)) → quiet (T := T) (m ≫= k).
Proof.
  intros Hm Hk σ. unfold mbind, M_bind, bind.
  specialize (Hm σ). destruct (m σ) as [a σ'|σ'|e]; [apply Hk|done|congruence].
Qed.

Lemma quiet_finally {A} (m : M A) c : quiet (T := T) m → quiet (T := T) c → quiet (T := T) (finally m c).
Proof.
  intros Hm Hc σ. unfold finally, bind, ret.
  specialize (Hm σ). destruct (m σ) as [a σ'|σ'|e]; [| |congruence].
  - specialize (Hc σ'). destruct (c σ'); [done|done|congruence].
  - specialize (Hc σ'). destruct (c σ'); [done|done|congruence].
Qed.

Lemma quiet_get_queue q : quiet (T := T) (get_queue q).
Proof. intros σ. unfold get_queue. by destruct (queues σ !! q). Qed.

Lemma quiet_put_queue q o : quiet (T := T) (put_queue q o).
Proof. done. Qed.

Lemma quiet_load p : quiet (T := T) (load p).
Proof. intros σ. unfold load. destruct p as [a|]; [|done]. by destruct (nodes σ !! a). Qed.

Lemma quiet_set_next p n : quiet (T := T) (set_next p n).
Proof.
  intros σ. unfold set_next. destruct p as [a|]; [|done].
  by destruct (nodes σ !! a).
Qed.

Lemma quiet_delete_chain fuel p : quiet (T := T) (delete_chain fuel p).
Proof.
  revert p. induction fuel as [|fuel IH]; intros [a|]; simpl; try done.
  apply quiet_bind; [apply quiet_load|]. intros nd.
  apply quiet_bind; [apply IH|]. done.
Qed.

End Quiet.

Ltac quiet_steps :=
  repeat first
    [ apply quiet_ret
    | apply quiet_get_queue
    | apply quiet_put_queue
    | apply quiet_load
    | apply quiet_set_next
    | apply quiet_delete_chain
    | apply quiet_finally
    | (apply quiet_bind; [|intros ?])
    | done ].

Section QuietMembers.
Context {T : Type} `{Allocator}.

Lemma quiet_try_pop q (v0 : T) : quiet (T := T) (try_pop q v0).
Proof.
  unfold try_pop, lock_guard, lock, unlock, empty_unsafe, get_front, get_rear,
    get_size, set_front, set_rear, set_size, release_next, reset_front,
    delete_ptr, heap_size.
  quiet_steps.
  - by destruct (mutex_ _).
  - destruct a0; [quiet_steps|].
    quiet_steps. case_decide; quiet_steps.
  - by destruct (mutex_ _).
Qed.

End QuietMembers.

(** ** Steps of a run *)

Section Steps.
Context {T : Type} `{Allocator}.
Implicit Types (h : gmap addr (Node T)) (σ : store T) (o : ConcurrentQueue).
Implicit Types (xs ys : list (addr * T)) (l : list T).

(** *** From a normal return back to the steps *)

Lemma bind_inv_ok {A B} (m : M A) (k : A → M B) σ b σ'' :
  (m ≫= k) σ = Ok b σ'' → ∃ a σ', m σ = Ok a σ' ∧ k a σ' = Ok b σ''.
Proof.
  unfold mbind, M_bind, bind. destruct (m σ) as [a σ'|σ'|e]; [eauto|done|done].
Qed.

Lemma bind_inv_throw {A B} (m : M A) (k : A → M B) σ σ'' :
  (m ≫= k) σ = BadAlloc σ'' →
  m σ = BadAlloc σ'' ∨ ∃ a σ', m σ = Ok a σ' ∧ k a σ' = BadAlloc σ''.
Proof.
  unfold mbind, M_bind, bind. destruct (m σ) as [a σ'|σ'|e]; [|intros [= ->]; by left|done].
  intros Hk. right. eauto.
Qed.

Lemma finally_inv_ok {A} (m : M A) c σ a σ'' :
  finally m c σ = Ok a σ'' → ∃ σ', m σ = Ok a σ' ∧ c σ' = Ok tt σ''.
Proof.
  unfold finally, bind, ret. destruct (m σ) as [a' σ'|σ'|e]; [| |done].
  - destruct (c σ') as [[] σ2|σ2|e] eqn:Hc; [|done|done].
    intros [= -> ->]. eauto.
  - by destruct (c σ').
Qed.

Lemma lock_inv_ok q σ u σ' :
  lock q σ = Ok u σ' →
  ∃ o, queues σ !! q = Some o ∧ mutex_ o = false ∧ σ' = with_mutex true q o σ.
Proof.
  unfold lock, get_queue, put_queue, mbind, M_bind, bind, stuck.
  destruct (queues σ !! q) as [o|]; [|done].
  destruct (mutex_ o) eqn:Hm; [done|]. intros [= _ <-]. eauto.
Qed.

Lemma unlock_inv_ok q σ u σ' :
  unlock q σ = Ok u σ' →
  ∃ o, queues σ !! q = Some o ∧ mutex_ o = true ∧ σ' = with_mutex false q o σ.
Proof.
  unfold unlock, get_queue, put_queue, mbind, M_bind, bind, stuck.
  destruct (queues σ !! q) as [o|]; [|done].
  destruct (mutex_ o) eqn:Hm; [|done]. intros [= _ <-]. eauto.
Qed.

Lemma lock_guard_inv_ok {A} q (body : M A) σ a σ'' :
  lock_guard q body σ = Ok a σ'' →
  ∃ o σ2 o2,
    queues σ !! q = Some o ∧ mutex_ o = false ∧
    body (with_mutex true q o σ) = Ok a σ2 ∧
    queues σ2 !! q = Some o2 ∧ mutex_ o2 = true ∧
    σ'' = with_mutex false q o2 σ2.
Proof.
  unfold lock_guard. intros Hrun.
  apply bind_inv_ok in Hrun as ([] & σ1 & Hlock & Hrun).
  apply lock_inv_ok in Hlock as (o & Ho & Hm & ->).
  apply finally_inv_ok in Hrun as (σ2 & Hbody & Hunlock).
  apply unlock_inv_ok in Hunlock as (o2 & Ho2 & Hm2 & ->).
  exists o, σ2, o2. done.
Qed.

Lemma with_mutex_undo q o σ :
  queues σ !! q = Some o → mutex_ o = false →
  ∀ o', queues (with_mutex true q o σ) !! q = Some o' →
        with_mutex false q o' (with_mutex true q o σ) = σ.
Proof.
  intros Ho Hm o'. unfold with_mutex. simpl. rewrite lookup_insert_eq.
  intros [= <-]. simpl. rewrite (insert_unlock_id _ _ o) by done. by destruct σ.
Qed.

(** Whatever follows the removal is run on the front value. *)
Lemma removal_inv_ok {B} q (k : T → M B) σ b σ'' :
  removal q k σ = Ok b σ'' → ∃ v σ', k v σ' = Ok b σ''.
Proof.
  unfold removal. intros Hrun.
  repeat (apply bind_inv_ok in Hrun as (? & ? & _ & Hrun)). eauto.
Qed.

Lemma empty_unsafe_inv_ok q σ e σ' :
  empty_unsafe q σ = Ok e σ' →
  ∃ o, queues σ !! q = Some o ∧ e = bool_decide (front_ o = None) ∧ σ' = σ.
Proof.
  unfold empty_unsafe, get_front, get_queue, mbind, M_bind, bind, mret, M_ret, ret.
  destruct (queues σ !! q) as [o|]; [|done]. intros [= <- <-]. eauto.
Qed.

(** *** Step equations *)

Lemma bind_ok {A B} (m : M A) (k : A → M B) σ a σ' :
  m σ = Ok a σ' → (m ≫= k) σ = k a σ'.
Proof. unfold mbind, M_bind, bind. by intros ->. Qed.

Lemma lock_run q o σ :
  queues σ !! q = Some o → mutex_ o = false →
  lock q σ = Ok tt (with_mutex true q o σ).
Proof.
  intros Ho Hm. unfold lock, get_queue, put_queue, mbind, M_bind, bind.
  by rewrite Ho, Hm.
Qed.

Lemma unlock_run q o σ :
  queues σ !! q = Some o → mutex_ o = true →
  unlock q σ = Ok tt (with_mutex false q o σ).
Proof.
  intros Ho Hm. unfold unlock, get_queue, put_queue, mbind, M_bind, bind.
  by rewrite Ho, Hm.
Qed.

Lemma empty_unsafe_run q o σ :
  queues σ !! q = Some o →
  empty_unsafe q σ = Ok (bool_decide (front_ o = None)) σ.
Proof.
  intros Ho. unfold empty_unsafe, get_front, get_queue, mbind, M_bind, bind.
  by rewrite Ho.
Qed.

Lemma with_mutex_lookup b q o σ :
  queues (with_mutex b q o σ) !! q =
  Some (mkQueue (front_ o) (rear_ o) (size_ o) b).
Proof. unfold with_mutex. simpl. apply lookup_insert_eq. Qed.

Lemma unlock_locked_run q o σ :
  queues σ !! q = Some o → mutex_ o = false →
  unlock q (with_mutex true q o σ) = Ok tt σ.
Proof.
  intros Ho Hm. erewrite unlock_run; [|apply with_mutex_lookup|done].
  f_equal. apply with_mutex_undo; [done|done|apply with_mutex_lookup].
Qed.

(** *** The timed wait that gives up *)

Lemma cv_wait_for_timeout q env σ o σL :
  queues σ !! q = Some o → mutex_ o = false →
  cv_wait_for q env (with_mutex true q o σ) = Ok false σL →
  ∃ o', queues (after_wakeups env σ) !! q = Some o' ∧ mutex_ o' = false ∧
        front_ o' = None ∧ σL = with_mutex true q o' (after_wakeups env σ).
Proof.
  revert σ o. induction env as [|w env IH]; intros σ o Ho Hm;
    rewrite cv_wait_for_unfold;
    erewrite bind_ok by (apply empty_unsafe_run, with_mutex_lookup); simpl;
    destruct (front_ o) as [a|] eqn:Hf; simpl; try done.
  - erewrite bind_ok by (by apply unlock_locked_run).
    erewrite bind_ok by (by apply lock_run).
    erewrite bind_ok by (apply empty_unsafe_run, with_mutex_lookup). simpl.
    rewrite Hf. simpl. intros [= <-]. eauto.
  - erewrite bind_ok by (by apply unlock_locked_run).
    erewrite bind_ok by reflexivity.
    intros Hrun. apply bind_inv_ok in Hrun as ([] & σ1 & Hlock & Hrun).
    apply lock_inv_ok in Hlock as (o1 & Ho1 & Hm1 & ->).
    destruct (timed_out w).
    + erewrite bind_ok in Hrun by (apply empty_unsafe_run, with_mutex_lookup).
      simpl in Hrun. destruct (front_ o1) eqn:Hf1; simpl in Hrun; [done|].
      injection Hrun as <-. eauto.
    + by apply (IH _ o1).
Qed.

Lemma after_wakeups_idle env σ : Forall idle env → after_wakeups env σ = σ.
Proof.
  revert σ. induction env as [|w env IH]; intros σ Hidle; [done|].
  apply Forall_cons in Hidle as [Hw Hidle]. simpl. rewrite (Hw σ).
  destruct (timed_out w); [done|]. by apply IH.
Qed.

Lemma cv_wait_for_idle q env σ o :
  queues σ !! q = Some o → mutex_ o = false → front_ o = None →
  Forall idle env →
  cv_wait_for q env (with_mutex true q o σ) = Ok false (with_mutex true q o σ).
Proof.
  intros Ho Hm Hf. induction env as [|w env IH]; intros Hidle;
    rewrite cv_wait_for_unfold;
    erewrite bind_ok by (apply empty_unsafe_run, with_mutex_lookup); simpl;
    rewrite Hf; simpl.
  - erewrite bind_ok by (by apply unlock_locked_run).
    erewrite bind_ok by (by apply lock_run).
    erewrite bind_ok by (apply empty_unsafe_run, with_mutex_lookup). simpl.
    by rewrite Hf.
  - apply Forall_cons in Hidle as [Hw Hidle].
    erewrite bind_ok by (by apply unlock_locked_run).
    erewrite bind_ok by reflexivity.
    rewrite (Hw σ).
    erewrite bind_ok by (by apply lock_run).
    destruct (timed_out w); [|by apply IH].
    erewrite bind_ok by (apply empty_unsafe_run, with_mutex_lookup). simpl.
    by rewrite Hf.
Qed.

Lemma pop_for_timeout_run q o env σ σL (v0 : T) :
  queues σ !! q = Some o → mutex_ o = false →
  cv_wait_for q env (with_mutex true q o σ) = Ok false σL →
  pop_for q v0 env σ = Ok (false, v0) (after_wakeups env σ).
Proof.
  intros Ho Hm Hwait.
  destruct (cv_wait_for_timeout _ _ _ _ _ Ho Hm Hwait) as (o' & Ho' & Hm' & _ & ->).
  rewrite pop_for_unfold. unfold lock_guard.
  erewrite bind_ok by (by apply lock_run).
  unfold finally. erewrite bind_ok by done. simpl.
  unfold bind. by rewrite unlock_locked_run.
Qed.

End Steps.

(** ** Two queues in one store *)

Section Frames.
Context {T : Type} `{Allocator}.
Implicit Types (h : gmap addr (Node T)) (σ : store T) (o : ConcurrentQueue).
Implicit Types (xs ys : list (addr * T)) (l : list T).

Lemma wf_of_coherent_new σ σ' q :
  wf σ → coherent σ' → locks σ' = <[q := false]> (locks σ) → wf σ'.
Proof.
  intros Hwf Hc Hl. apply wf_coherent. split; [done|].
  apply wf_coherent in Hwf as [_ Hu]. intros q2. rewrite Hl.
  destruct (decide (q = q2)) as [->|Hne].
  - by rewrite lookup_insert_eq.
  - rewrite lookup_insert_ne by done. apply Hu.
Qed.

Lemma wf_contents σ q :
  wf σ → is_Some (queues σ !! q) → ∃ l, contents σ q = Some l.
Proof.
  intros [Hc _]%wf_coherent [o Ho].
  destruct (coherent_cells_of _ _ _ Hc Ho) as [xs Hxs].
  exists xs.*2. apply contents_Some. eauto.
Qed.

Lemma empty_object σ q :
  wf σ → cells_of σ q = Some [] →
  queues σ !! q = Some (mkQueue None None 0 false).
Proof.
  intros Hwf Hcells. pose proof Hwf as [Hc _]%wf_coherent.
  destruct (cells_of_shape _ _ _ Hc Hcells) as (o & Ho & Hsh).
  apply shape_nil in Hsh as (Hf & Hr & Hs).
  pose proof (wf_unlocked_at _ _ _ Hwf Ho) as Hm.
  rewrite Ho. f_equal. destruct o. simpl in *. by subst.
Qed.

Lemma undisturbed_of_cells σ σ' q :
  wf σ → wf σ' → cells_of σ' q = cells_of σ q → undisturbed q σ σ'.
Proof.
  intros Hwf Hwf' Hcells. split.
  - by rewrite !contents_cells, Hcells.
  - pose proof Hwf as [Hc Hu]%wf_coherent.
    pose proof Hwf' as [Hc' Hu']%wf_coherent.
    apply object_determined; [done|done|done|].
    rewrite !locks_lookup.
    destruct (queues σ !! q) as [o|] eqn:Ho;
      destruct (queues σ' !! q) as [o'|] eqn:Ho'; simpl.
    + by rewrite (wf_unlocked_at _ _ _ Hwf Ho), (wf_unlocked_at _ _ _ Hwf' Ho').
    + unfold cells_of in Hcells. rewrite Ho, Ho' in Hcells. simpl in Hcells.
      destruct (coherent_cells_of _ _ _ Hc Ho) as [xs Hxs].
      unfold cells_of in Hxs. rewrite Ho in Hxs. simpl in Hxs. congruence.
    + unfold cells_of in Hcells. rewrite Ho, Ho' in Hcells. simpl in Hcells.
      destruct (coherent_cells_of _ _ _ Hc' Ho') as [xs Hxs].
      unfold cells_of in Hxs. rewrite Ho' in Hxs. simpl in Hxs. congruence.
    + done.
Qed.

Lemma push_ok_wf σ q v σ' l :
  wf σ → contents σ q = Some l → push q v σ = Ok tt σ' →
  wf σ' ∧ contents σ' q = Some (l ++ [v]) ∧ changes_only [q] σ σ'.
Proof.
  intros Hwf Hcont Hrun. pose proof Hwf as [Hc _]%wf_coherent.
  apply contents_Some in Hcont as (xs & Hcells & <-).
  pose proof (wp_push q xs v σ Hc Hcells
                (wf_locks _ _ Hwf (cells_of_is_Some _ _ _ Hcells))) as Hwp.
  apply (wp_ok _ _ _ _ _ _ Hwp) in Hrun as (a & Hc' & Hcells' & Hch & Hl).
  split_and!; [by eapply wf_of_coherent| |done].
  apply contents_Some. exists (xs ++ [(a, v)]). split; [done|].
  by rewrite fmap_app.
Qed.

Lemma bind_run_stuck {A B} (m : M A) (k : A → M B) σ e :
  m σ = Stuck e → (m ≫= k) σ = Stuck e.
Proof. unfold mbind, M_bind, bind. by intros ->. Qed.

Lemma pop_nil_empty_run q o (v0 : T) σ :
  queues σ !! q = Some o → mutex_ o = false → front_ o = None →
  pop q v0 [] σ = Stuck Blocked.
Proof.
  intros Ho Hm Hf. rewrite pop_unfold. unfold lock_guard.
  erewrite bind_ok by (by apply lock_run).
  unfold finally. rewrite (bind_run_stuck (cv_wait q []) _ _ Blocked); [done|].
  rewrite cv_wait_unfold.
  erewrite bind_ok by (apply empty_unsafe_run, with_mutex_lookup). simpl.
  by rewrite Hf.
Qed.



Lemma push_all_ok_wf σ q vs σ' l :
  wf σ → contents σ q = Some l → push_all q vs σ = Ok tt σ' →
  wf σ' ∧ contents σ' q = Some (l ++ vs).
Proof.
  revert σ l. induction vs as [|v vs IH]; intros σ l Hwf Hcont; simpl.
  - intros [= <-]. by rewrite app_nil_r.
  - intros Hrun. apply bind_inv_ok in Hrun as ([] & σ1 & Hpush & Hrun).
    destruct (push_ok_wf _ _ _ _ _ Hwf Hcont Hpush) as (Hwf1 & Hcont1 & _).
    destruct (IH _ _ Hwf1 Hcont1 Hrun) as [Hwf' Hcont'].
    by rewrite <- app_assoc in Hcont'.
Qed.

Lemma remove_front_run σ q x l (d : T) r :
  wf σ → contents σ q = Some (x :: l) →
  ∃ σ', remove q d r σ = Ok (Some x) σ' ∧ wf σ' ∧ contents σ' q = Some l.
Proof.
  intros Hwf Hcont.
  destruct (wf_front _ _ _ _ Hwf Hcont) as (o & a & nx & xs & Ho & Hm & Hf & Ha & Hsh & Hxs).
  destruct (wf_removed _ _ _ _ _ _ _ Hwf Ho Hsh Ha) as (Hwf' & Hcells' & _).
  exists (removed σ q o a nx). split_and!; [|done|].
  - destruct r as [|env|env]; simpl.
    + by erewrite bind_ok by (by apply try_pop_run).
    + by erewrite bind_ok by (by apply pop_run).
    + by erewrite bind_ok by (by apply pop_for_run).
  - apply contents_Some. eauto.
Qed.

Lemma remove_all_run σ q vs l (d : T) rs :
  wf σ → contents σ q = Some (vs ++ l) → length rs = length vs →
  ∃ σ', remove_all q d rs σ = Ok (Some <$> vs) σ' ∧ wf σ' ∧
        contents σ' q = Some l.
Proof.
  revert σ rs. induction vs as [|x vs IH]; intros σ rs Hwf Hcont Hlen.
  - destruct rs; [|done]. exists σ. done.
  - destruct rs as [|r rs]; [done|]. simpl in Hcont, Hlen.
    destruct (remove_front_run σ q x (vs ++ l) d r Hwf Hcont)
      as (σ1 & Hrun1 & Hwf1 & Hcont1).
    destruct (IH σ1 rs Hwf1 Hcont1) as (σ' & Hrun & Hwf' & Hcont'); [lia|].
    exists σ'. split_and!; [|done|done]. simpl.
    erewrite bind_ok by done. erewrite bind_ok by done. done.
Qed.

(** The store with no queue and no node is well formed. *)
Lemma wf_initial : wf (mkStore (T := T) ∅ ∅).
Proof.
  apply wf_intro; simpl.
  - intros q o Hq. by rewrite lookup_empty in Hq.
  - intros q1 q2 o1 o2 xs1 xs2 a _ Hq. by rewrite lookup_empty in Hq.
  - intros a nd Ha. by rewrite lookup_empty in Ha.
Qed.

Lemma wp_push_all q vs σ l :
  wf σ → contents σ q = Some l →
  wp (push_all q vs)
    (λ _ σ', wf σ' ∧ contents σ' q = Some (l ++ vs))
    (λ σ', wf σ') σ.
Proof.
  revert σ l. induction vs as [|v vs IH]; intros σ l Hwf Hcont.
  - apply wp_ret. by rewrite app_nil_r.
  - simpl. apply wp_bind.
    pose proof Hwf as [Hc _]%wf_coherent.
    pose proof Hcont as (xs & Hcells & <-)%contents_Some.
    eapply wp_mono;
      [apply (wp_push q xs v σ Hc Hcells
                (wf_locks _ _ Hwf (cells_of_is_Some _ _ _ Hcells)))| |].
    + intros _ σ1 (a & Hc1 & Hcells1 & _ & Hl1). simpl.
      assert (wf σ1) as Hwf1 by (by eapply wf_of_coherent).
      eapply wp_mono; [apply (IH σ1 (xs.*2 ++ [v]) Hwf1)| |].
      * apply contents_Some. exists (xs ++ [(a, v)]). split; [done|].
        by rewrite fmap_app.
      * intros _ σ2 [Hwf2 Hcont2]. split; [done|].
        by rewrite <- app_assoc in Hcont2.
      * done.
    + intros σ1 (Hc1 & _ & Hl1). by eapply wf_of_coherent.
Qed.

End Frames.

(** ** Waiting with the mutex held *)

Section Held.
Context {T : Type} `{Allocator}.
Implicit Types (h : gmap addr (Node T)) (σ : store T) (o : ConcurrentQueue).
Implicit Types (xs ys : list (addr * T)) (l : list T).

Lemma wf_structural σ q o :
  wf σ → queues σ !! q = Some o → structural_invariant (nodes σ) o.
Proof.
  intros Hwf Ho. destruct (wf_lookup _ _ _ Hwf Ho) as [_ [xs Hsh]].
  pose proof (shape_cells _ _ _ Hsh) as Hcells.
  destruct Hsh as (Hl & Hr & Hs & Hmax). unfold structural_invariant.
  split_and!.
  - destruct xs as [|[a v] xs]; simpl in Hl, Hr.
    + rewrite Hl, Hr. done.
    + destruct Hl as [-> _]. rewrite Hr. split; [done|].
      intros Hlast. by apply last_None in Hlast.
  - rewrite Hr, Hs. destruct xs as [|[a v] xs]; simpl; [done|].
    split; [|lia]. intros Hlast. by apply (last_None (a :: xs.*1)) in Hlast.
  - exists xs. split_and!; [done|lia|done].
Qed.

Lemma held_of_wf σ q o :
  wf σ → queues σ !! q = Some o → held q (with_mutex true q o σ).
Proof.
  intros [Hc Hu]%wf_coherent Ho.
  destruct (mutex_update σ q o true Hc Ho) as (Hc' & _ & Hl).
  split_and!; [done| |].
  - unfold with_mutex. rewrite Hl. apply lookup_insert_eq.
  - intros q2 Hne. unfold with_mutex. rewrite Hl.
    rewrite lookup_insert_ne by done. apply Hu.
Qed.

Lemma wf_of_held σ q o :
  held q σ → queues σ !! q = Some o → wf (with_mutex false q o σ).
Proof.
  intros (Hc & Hq & Hothers) Ho.
  destruct (mutex_update σ q o false Hc Ho) as (Hc' & _ & Hl).
  apply wf_coherent. split; [done|]. intros q2. unfold with_mutex. rewrite Hl.
  destruct (decide (q = q2)) as [->|Hne].
  - by rewrite lookup_insert_eq.
  - rewrite lookup_insert_ne by done. by apply Hothers.
Qed.

Lemma held_locked σ q : held q σ → ∃ o, queues σ !! q = Some o ∧ mutex_ o = true.
Proof. intros (_ & Hq & _). by apply locks_Some. Qed.

Lemma cv_wait_held q env σ σ' :
  held q σ → Forall preserves_wf env → cv_wait q env σ = Ok tt σ' →
  held q σ' ∧ ∃ o a, queues σ' !! q = Some o ∧ front_ o = Some a.
Proof.
  revert σ. induction env as [|ev env IH]; intros σ Hheld Henv;
    destruct (held_locked _ _ Hheld) as (o & Ho & Hm);
    rewrite cv_wait_unfold;
    erewrite bind_ok by (by apply empty_unsafe_run);
    destruct (front_ o) as [a|] eqn:Hf; simpl; try done.
  - intros [= <-]. eauto.
  - intros [= <-]. eauto.
  - apply Forall_cons in Henv as [Hev Henv].
    erewrite bind_ok by (by apply unlock_run).
    erewrite bind_ok by reflexivity.
    intros Hrun. apply bind_inv_ok in Hrun as ([] & σ1 & Hlock & Hrun).
    apply lock_inv_ok in Hlock as (o1 & Ho1 & Hm1 & ->).
    eapply IH; [|done|done].
    apply held_of_wf; [|done]. apply Hev. by apply wf_of_held.
Qed.

Lemma cv_wait_for_held q env σ (b : bool) σ' :
  held q σ → Forall (λ w, preserves_wf (during w)) env →
  cv_wait_for q env σ = Ok b σ' →
  held q σ' ∧ (b = true → ∃ o a, queues σ' !! q = Some o ∧ front_ o = Some a).
Proof.
  revert σ. induction env as [|w env IH]; intros σ Hheld Henv;
    destruct (held_locked _ _ Hheld) as (o & Ho & Hm);
    rewrite cv_wait_for_unfold;
    erewrite bind_ok by (by apply empty_unsafe_run);
    destruct (front_ o) as [a|] eqn:Hf; simpl.
  - intros [= <- <-]. eauto.
  - erewrite bind_ok by (by apply unlock_run).
    intros Hrun. apply bind_inv_ok in Hrun as ([] & σ1 & Hlock & Hrun).
    apply lock_inv_ok in Hlock as (o1 & Ho1 & Hm1 & ->).
    erewrite bind_ok in Hrun by (apply empty_unsafe_run, with_mutex_lookup).
    simpl in Hrun. injection Hrun as <- <-.
    split; [apply held_of_wf; [by apply wf_of_held|done]|].
    destruct (front_ o1) as [a1|] eqn:Hf1; simpl; [|done].
    intros _. eexists _, a1. split; [apply lookup_insert_eq|done].
  - intros [= <- <-]. eauto.
  - apply Forall_cons in Henv as [Hev Henv].
    erewrite bind_ok by (by apply unlock_run).
    erewrite bind_ok by reflexivity.
    intros Hrun. apply bind_inv_ok in Hrun as ([] & σ1 & Hlock & Hrun).
    apply lock_inv_ok in Hlock as (o1 & Ho1 & Hm1 & ->).
    assert (held q (with_mutex true q o1 (during w (with_mutex false q o σ))))
      as Hheld1.
    { apply held_of_wf; [|done]. apply Hev. by apply wf_of_held. }
    destruct (timed_out w); [|by eapply IH].
    erewrite bind_ok in Hrun by (apply empty_unsafe_run, with_mutex_lookup).
    simpl in Hrun. injection Hrun as <- <-. split; [done|].
    destruct (front_ o1) as [a1|] eqn:Hf1; simpl; [|done].
    intros _. eexists _, a1. split; [apply lookup_insert_eq|done].
Qed.

Lemma removal_run {B} q o a v nx (f : T → B) σ :
  queues σ !! q = Some o → front_ o = Some a →
  nodes σ !! a = Some (mkNode v nx) →
  removal q (λ v, mret (f v)) σ =
  Ok (f v)
    (mkStore (delete a (nodes σ))
       (<[q := mkQueue nx (if decide (Some a = rear_ o) then None else rear_ o)
                 ((size_ o - 1) mod size_max) (mutex_ o)]> (queues σ))).
Proof.
  intros Ho Hf Ha. apply wp_eq. eapply wp_removal; [done|done|done|].
  by apply wp_ret.
Qed.

Lemma removal_held {B} q (f : T → B) σ o a r σ' :
  held q σ → queues σ !! q = Some o → front_ o = Some a →
  removal q (λ v, mret (f v)) σ = Ok r σ' → held q σ'.
Proof.
  intros (Hc & Hq & Hothers) Ho Hf Hrun.
  pose proof Hc as (Hall & _ & _). destruct (Hall _ _ Ho) as [xs Hsh].
  destruct xs as [|[a' v] xs].
  { apply shape_nil in Hsh as (? & _). congruence. }
  pose proof Hsh as ((Hf' & nx & Ha & _) & _). simpl in Hf', Ha.
  rewrite Hf in Hf'. injection Hf' as <-.
  rewrite (removal_run _ _ _ _ _ _ _ Ho Hf Ha) in Hrun. injection Hrun as _ <-.
  destruct (removal_post σ q o a v nx xs Hc Ho Hsh Ha) as (Hc' & _ & _ & Hl).
  split_and!; [done|by rewrite Hl|]. intros q2 Hne. rewrite Hl. by apply Hothers.
Qed.

Lemma construct_inv_ok q σ u σ' :
  construct q σ = Ok u σ' →
  queues σ !! q = None ∧
  σ' = mkStore (nodes σ) (<[q := mkQueue None None 0 false]> (queues σ)).
Proof.
  unfold construct. destruct (queues σ !! q); [done|]. by intros [= _ <-].
Qed.

Lemma on_throw_inv_ok {A} (m : M A) u σ a σ' :
  on_throw m u σ = Ok a σ' → m σ = Ok a σ'.
Proof.
  unfold on_throw. destruct (m σ) as [a' σ1|σ1|e]; [done| |done].
  by destruct (u σ1).
Qed.

Lemma lock_both_inv_ok {A} a b (body : M A) σ r σ' :
  a ≠ b → lock_both a b body σ = Ok r σ' →
  is_Some (queues σ !! a) ∧ is_Some (queues σ !! b).
Proof.
  intros Hne Hrun. unfold lock_both in Hrun.
  apply bind_inv_ok in Hrun as ([] & σ1 & Hlock1 & Hrun).
  apply lock_inv_ok in Hlock1 as (o1 & Ho1 & _ & ->).
  apply bind_inv_ok in Hrun as ([] & σ2 & Hlock2 & _).
  apply lock_inv_ok in Hlock2 as (o2 & Ho2 & _).
  unfold with_mutex in Ho2. simpl in Ho2.
  rewrite lookup_insert_ne in Ho2 by done. eauto.
Qed.

Lemma copy_ctor_self_run q σ :
  queues σ !! q = None →
  copy_ctor q q σ =
  Ok tt (mkStore (nodes σ) (<[q := mkQueue None None 0 false]> (queues σ))).
Proof.
  intros Hq. apply wp_eq. unfold copy_ctor. apply wp_bind.
  apply wp_construct; [done|]. apply wp_on_throw. wp_steps.
  rewrite copy_loop_unfold. wp_steps. by rewrite !insert_insert_eq.
Qed.

Lemma move_ctor_self_run q σ :
  queues σ !! q = None →
  move_ctor q q σ =
  Ok tt (mkStore (nodes σ) (<[q := mkQueue None None 0 false]> (queues σ))).
Proof.
  intros Hq. apply wp_eq. unfold move_ctor. apply wp_bind.
  apply wp_construct; [done|]. wp_steps.
  eapply (wp_delete_ptr _ []); [done|]. wp_steps.
  by rewrite !insert_insert_eq.
Qed.

Lemma wf_constructed σ q :
  wf σ → queues σ !! q = None →
  wf (mkStore (nodes σ) (<[q := mkQueue None None 0 false]> (queues σ))).
Proof.
  intros Hwf Hq. pose proof Hwf as [Hc _]%wf_coherent.
  destruct (constructed_post σ q Hc Hq) as (Hc' & _ & _ & Hl).
  by eapply wf_of_coherent_new.
Qed.


(** Without the guard [this != &other] an assignment to itself would
    not return: the second [lock] finds the mutex held. *)
Lemma lock_both_same_never_returns {A} q (body : M A) σ r σ' :
  lock_both q q body σ ≠ Ok r σ'.
Proof.
  intros Hrun. unfold lock_both in Hrun.
  apply bind_inv_ok in Hrun as ([] & σ1 & Hlock1 & Hrun).
  apply lock_inv_ok in Hlock1 as (o1 & Ho1 & _ & ->).
  apply bind_inv_ok in Hrun as ([] & σ2 & Hlock2 & _).
  apply lock_inv_ok in Hlock2 as (o2 & Ho2 & Hm2 & _).
  rewrite with_mutex_lookup in Ho2. injection Ho2 as <-. done.
Qed.

Lemma copy_assign_self_run σ (q : qid) : copy_assign q q σ = Ok tt σ.
Proof.
  unfold copy_assign. by rewrite decide_False by (intros Hq; by apply Hq).
Qed.

Lemma move_assign_self_run σ (q : qid) : move_assign q q σ = Ok tt σ.
Proof.
  unfold move_assign. by rewrite decide_False by (intros Hq; by apply Hq).
Qed.

End Held.

(** ** The properties of the specification *)

Section Claims.
Context {T : Type} `{Allocator}.
Implicit Types (h : gmap addr (Node T)) (σ : store T) (o : ConcurrentQueue).
Implicit Types (xs ys : list (addr * T)) (l : list T).

(** C1: pushing the values [vs], one after the other, into an empty queue
    does not get stuck; and when the pushes have returned, as many
    removals, each by [try_pop], by the blocking [pop] or by the timed
    [pop], return exactly [vs] in that order, and a further [try_pop]
    returns false. *)
Theorem fifo_order σ q vs (d : T) rs :
  wf σ → contents σ q = Some [] → length rs = length vs →
  (∀ e, push_all q vs σ ≠ Stuck e) ∧
  ∀ σ1, push_all q vs σ = Ok tt σ1 →
    ∃ σ2, remove_all q d rs σ1 = Ok (Some <$> vs) σ2 ∧
          try_pop q d σ2 = Ok (false, d) σ2.
Proof.
  intros Hwf Hcont Hlen. split.
  - intros e. eapply wp_not_stuck. by apply (wp_push_all q vs σ []).
  - intros σ1 Hpush.
    destruct (push_all_ok_wf _ _ _ _ _ Hwf Hcont Hpush) as [Hwf1 Hcont1].
    simpl in Hcont1. rewrite <- (app_nil_r vs) in Hcont1.
    destruct (remove_all_run _ _ _ _ d rs Hwf1 Hcont1 Hlen)
      as (σ2 & Hrun & Hwf2 & Hcont2).
    exists σ2. split; [done|].
    destruct (wf_empty _ _ Hwf2 Hcont2) as (o & Ho & Hm & Hf & _).
    by eapply try_pop_empty_run.
Qed.

(** C2: in a well-formed store every queue satisfies the structural
    invariant, and every member function that returns leaves the store
    well formed: [push], [try_pop], the blocking and the timed [pop]
    (when what the other threads do during a wait keeps the store well
    formed), [try_peek], copy and move construction and assignment, and
    default construction. *)
Theorem invariant_preserved σ :
  wf σ →
  (∀ q o, queues σ !! q = Some o → structural_invariant (nodes σ) o) ∧
  (∀ q v σ', push q v σ = Ok tt σ' → wf σ') ∧
  (∀ q d r σ', try_pop q d σ = Ok r σ' → wf σ') ∧
  (∀ q d env r σ',
     Forall preserves_wf env → pop q d env σ = Ok r σ' → wf σ') ∧
  (∀ q d env r σ',
     Forall (λ w, preserves_wf (during w)) env →
     pop_for q d env σ = Ok r σ' → wf σ') ∧
  (∀ q d r σ', try_peek q d σ = Ok r σ' → wf σ') ∧
  (∀ this other σ', copy_ctor this other σ = Ok tt σ' → wf σ') ∧
  (∀ this other σ', move_ctor this other σ = Ok tt σ' → wf σ') ∧
  (∀ this other σ', copy_assign this other σ = Ok tt σ' → wf σ') ∧
  (∀ this other σ', move_assign this other σ = Ok tt σ' → wf σ') ∧
  (∀ this σ', construct this σ = Ok tt σ' → wf σ').
Proof.
  intros Hwf. pose proof Hwf as [Hc _]%wf_coherent. split_and!.
  - intros q o Ho. by eapply wf_structural.
  - intros q v σ' Hrun. pose proof Hrun as Hrun'. unfold push in Hrun'.
    apply bind_inv_ok in Hrun' as ([] & σ1 & Hg & _).
    apply lock_guard_inv_ok in Hg as (o & _ & _ & Ho & _).
    destruct (wf_contents σ q Hwf) as [l Hl]; [eauto|].
    by destruct (push_ok_wf _ _ _ _ _ Hwf Hl Hrun).
  - intros q d r σ' Hrun. pose proof Hrun as Hrun'.
    apply lock_guard_inv_ok in Hrun' as (o & _ & _ & Ho & Hm & _).
    destruct (wf_contents σ q Hwf) as [[|x l] Hl]; [eauto| |].
    + destruct (wf_empty _ _ Hwf Hl) as (o' & Ho' & Hm' & Hf & _).
      rewrite (try_pop_empty_run _ _ _ _ Ho' Hm' Hf) in Hrun.
      by injection Hrun as _ <-.
    + destruct (wf_front _ _ _ _ Hwf Hl)
        as (o' & a & nx & xs & Ho' & Hm' & Hf & Ha & Hsh & _).
      rewrite (try_pop_run _ _ _ _ _ _ _ Ho' Hm' Hf Ha) in Hrun.
      injection Hrun as _ <-.
      by destruct (wf_removed _ _ _ _ _ _ _ Hwf Ho' Hsh Ha).
  - intros q d env r σ' Henv Hrun. rewrite pop_unfold in Hrun.
    apply lock_guard_inv_ok in Hrun as (o & σ2 & o2 & Ho & Hm & Hbody & Ho2 & _ & ->).
    apply bind_inv_ok in Hbody as ([] & σ3 & Hwait & Hrem).
    destruct (cv_wait_held _ _ _ _ (held_of_wf _ _ _ Hwf Ho) Henv Hwait)
      as (Hheld3 & o3 & a & Ho3 & Hf3).
    apply wf_of_held; [|done].
    by eapply (removal_held q (λ v, v)).
  - intros q d env r σ' Henv Hrun. rewrite pop_for_unfold in Hrun.
    apply lock_guard_inv_ok in Hrun as (o & σ2 & o2 & Ho & Hm & Hbody & Ho2 & _ & ->).
    apply bind_inv_ok in Hbody as (success & σ3 & Hwait & Hrem).
    destruct (cv_wait_for_held _ _ _ _ _ (held_of_wf _ _ _ Hwf Ho) Henv Hwait)
      as (Hheld3 & Hne).
    apply wf_of_held; [|done].
    destruct success; simpl in Hrem.
    + destruct Hne as (o3 & a & Ho3 & Hf3); [done|].
      by eapply (removal_held q (λ v, (true, v))).
    + by injection Hrem as _ <-.
  - intros q d r σ' Hrun. pose proof Hrun as Hrun'.
    apply lock_guard_inv_ok in Hrun' as (o & _ & _ & Ho & Hm & _).
    destruct (wf_contents σ q Hwf) as [[|x l] Hl]; [eauto| |].
    + destruct (wf_empty _ _ Hwf Hl) as (o' & Ho' & Hm' & Hf & _).
      rewrite (try_peek_empty_run _ _ _ _ Ho' Hm' Hf) in Hrun.
      by injection Hrun as _ <-.
    + destruct (wf_front _ _ _ _ Hwf Hl)
        as (o' & a & nx & xs & Ho' & Hm' & Hf & Ha & Hsh & _).
      rewrite (try_peek_run _ _ _ _ _ _ _ Ho' Hm' Hf Ha) in Hrun.
      by injection Hrun as _ <-.
  - intros this other σ' Hrun. pose proof Hrun as Hrun'. unfold copy_ctor in Hrun'.
    apply bind_inv_ok in Hrun' as ([] & σ0 & Hcons & Hrest).
    apply construct_inv_ok in Hcons as [Hnone ->].
    destruct (decide (other = this)) as [->|Hne].
    { rewrite (copy_ctor_self_run _ _ Hnone) in Hrun. injection Hrun as <-.
      by apply wf_constructed. }
    apply on_throw_inv_ok, lock_guard_inv_ok in Hrest as (o & _ & _ & Ho & _).
    simpl in Ho. rewrite lookup_insert_ne in Ho by done.
    destruct (wf_contents σ other Hwf) as [l Hl]; [eauto|].
    apply contents_Some in Hl as (xs & Hcells & _).
    pose proof (wp_copy_ctor this other xs σ Hc Hnone
                  (wf_locks _ _ Hwf (mk_is_Some _ _ Ho)) Hcells) as Hwp.
    apply (wp_ok _ _ _ _ _ _ Hwp) in Hrun as (zs & Hc' & _ & _ & _ & Hl').
    by eapply wf_of_coherent_new.
  - intros this other σ' Hrun. pose proof Hrun as Hrun'. rewrite move_ctor_unfold in Hrun'.
    apply bind_inv_ok in Hrun' as ([] & σ0 & Hcons & Hrest).
    apply construct_inv_ok in Hcons as [Hnone ->].
    destruct (decide (other = this)) as [->|Hne].
    { rewrite (move_ctor_self_run _ _ Hnone) in Hrun. injection Hrun as <-.
      by apply wf_constructed. }
    apply lock_guard_inv_ok in Hrest as (o & _ & _ & Ho & _).
    simpl in Ho. rewrite lookup_insert_ne in Ho by done.
    destruct (wf_contents σ other Hwf) as [l Hl]; [eauto|].
    apply contents_Some in Hl as (xs & Hcells & _).
    pose proof (wp_move_ctor this other xs σ Hc Hnone
                  (wf_locks _ _ Hwf (mk_is_Some _ _ Ho)) Hcells) as Hwp.
    apply (wp_ok _ _ _ _ _ _ Hwp) in Hrun as (Hc' & _ & _ & _ & Hl').
    by eapply wf_of_coherent_new.
  - intros this other σ' Hrun.
    destruct (decide (this = other)) as [->|Hne].
    { pose proof (copy_assign_self_run σ other) as Hself.
      rewrite Hself in Hrun. by injection Hrun as <-. }
    pose proof Hrun as Hrun'. rewrite copy_assign_unfold in Hrun'.
    rewrite decide_True in Hrun' by done.
    apply lock_both_inv_ok in Hrun' as [Hthis Hother]; [|done].
    destruct (wf_contents σ other Hwf Hother) as [l Hl].
    apply contents_Some in Hl as (xs & Hcells & _).
    pose proof (wp_copy_assign this other xs σ Hc Hne
                  (wf_locks _ _ Hwf Hthis) (wf_locks _ _ Hwf Hother) Hcells) as Hwp.
    apply (wp_ok _ _ _ _ _ _ Hwp) in Hrun as (zs & Hc' & _ & _ & _ & Hl').
    by eapply wf_of_coherent.
  - intros this other σ' Hrun.
    destruct (decide (this = other)) as [->|Hne].
    { pose proof (move_assign_self_run σ other) as Hself.
      rewrite Hself in Hrun. by injection Hrun as <-. }
    pose proof Hrun as Hrun'. rewrite move_assign_unfold in Hrun'.
    rewrite decide_True in Hrun' by done.
    apply lock_both_inv_ok in Hrun' as [Hthis Hother]; [|done].
    destruct (wf_contents σ other Hwf Hother) as [l Hl].
    apply contents_Some in Hl as (xs & Hcells & _).
    pose proof (wp_move_assign this other xs σ Hc Hne
                  (wf_locks _ _ Hwf Hthis) (wf_locks _ _ Hwf Hother) Hcells) as Hwp.
    apply (wp_ok _ _ _ _ _ _ Hwp) in Hrun as (Hc' & _ & _ & _ & Hl').
    by eapply wf_of_coherent.
  - intros this σ' Hrun. apply construct_inv_ok in Hrun as [Hnone ->].
    by apply wf_constructed.
Qed.

(** C8: copy-assigning and move-assigning a queue to itself return
    normally and leave the whole store, and so the contents and the size
    of the queue, as they were. *)
Theorem self_assignment_is_noop σ (q : qid) :
  copy_assign q q σ = Ok tt σ ∧ move_assign q q σ = Ok tt σ.
Proof.
  split; [apply copy_assign_self_run|apply move_assign_self_run].
Qed.

(** C3: on an empty queue [try_pop] returns false and leaves the store
    as it was, with size 0; and in no state at all does [try_pop] wait
    for an element. *)
Theorem try_pop_on_empty σ q (v0 : T) :
  wf σ → contents σ q = Some [] →
  try_pop q v0 σ = Ok (false, v0) σ ∧ size q σ = Ok 0 σ ∧
  ∀ σ' v, try_pop q v σ' ≠ Stuck Blocked.
Proof.
  intros Hwf Hcont.
  destruct (wf_empty _ _ Hwf Hcont) as (o & Ho & Hm & Hf & Hr & Hs).
  split_and!.
  - by eapply try_pop_empty_run.
  - rewrite <- Hs. by apply size_run.
  - intros σ' v. apply quiet_try_pop.
Qed.

(** C5: on a non-empty queue [try_pop], the blocking [pop] and the timed
    [pop] return the same front value and end in the same store; there
    the queue holds the remaining elements, its size is one less, and
    [rear_] is null when nothing remains. *)
Theorem removal_paths_agree σ q x l (v0 : T) env wk :
  wf σ → contents σ q = Some (x :: l) →
  ∃ σ' o o',
    try_pop q v0 σ = Ok (true, x) σ' ∧
    pop q v0 env σ = Ok x σ' ∧
    pop_for q v0 wk σ = Ok (true, x) σ' ∧
    wf σ' ∧ contents σ' q = Some l ∧
    queues σ !! q = Some o ∧ queues σ' !! q = Some o' ∧
    size_ o' = size_ o - 1 ∧ (l = [] → rear_ o' = None).
Proof.
  intros Hwf Hcont.
  destruct (wf_front _ _ _ _ Hwf Hcont) as (o & a & nx & xs & Ho & Hm & Hf & Ha & Hsh & Hxs).
  destruct (wf_removed _ _ _ _ _ _ _ Hwf Ho Hsh Ha) as (Hwf' & Hcells' & _).
  assert (contents (removed σ q o a nx) q = Some l) as Hcont'.
  { apply contents_Some. eauto. }
  destruct (cells_of_is_Some _ _ _ Hcells') as [o' Ho'].
  exists (removed σ q o a nx), o, o'. split_and!.
  - by apply try_pop_run.
  - by apply pop_run.
  - by apply pop_for_run.
  - done.
  - done.
  - done.
  - done.
  - rewrite (wf_size _ _ _ _ Hwf' Ho' Hcont'), (wf_size _ _ _ _ Hwf Ho Hcont).
    simpl. lia.
  - intros ->. destruct (wf_empty _ _ Hwf' Hcont') as (o2 & Ho2 & _ & _ & Hr & _).
    rewrite Ho' in Ho2. by injection Ho2 as <-.
Qed.

(** C9: on a non-empty queue [try_peek] returns a copy of the front
    element, the value a following [try_pop] or [pop] returns, and leaves
    the store as it was; on an empty queue it returns false. *)
Theorem try_peek_spec σ q (v0 v1 : T) env wk :
  wf σ →
  (∀ x l, contents σ q = Some (x :: l) →
     try_peek q v0 σ = Ok (true, x) σ ∧
     ∃ σ', try_pop q v1 σ = Ok (true, x) σ' ∧
           pop q v1 env σ = Ok x σ' ∧
           pop_for q v1 wk σ = Ok (true, x) σ') ∧
  (contents σ q = Some [] → try_peek q v0 σ = Ok (false, v0) σ).
Proof.
  intros Hwf. split.
  - intros x l Hcont.
    destruct (wf_front _ _ _ _ Hwf Hcont) as (o & a & nx & xs & Ho & Hm & Hf & Ha & _).
    split; [by eapply try_peek_run|].
    exists (removed σ q o a nx). split_and!.
    + by apply try_pop_run.
    + by apply pop_run.
    + by apply pop_for_run.
  - intros Hcont.
    destruct (wf_empty _ _ Hwf Hcont) as (o & Ho & Hm & Hf & _).
    by eapply try_peek_empty_run.
Qed.

(** C4: when the wait of the timed [pop] ends with the queue still
    empty, the call returns false and does nothing to the store: the
    store it leaves is the one it was called in, but for what the other
    threads did to it during the wait. *)
Theorem timed_pop_timeout σ q (v0 : T) env :
  (∀ o σL, queues σ !! q = Some o → mutex_ o = false →
     cv_wait_for q env (with_mutex true q o σ) = Ok false σL →
     pop_for q v0 env σ = Ok (false, v0) (after_wakeups env σ)) ∧
  (∀ v σ', pop_for q v0 env σ = Ok (false, v) σ' →
     v = v0 ∧ σ' = after_wakeups env σ) ∧
  (wf σ → contents σ q = Some [] → Forall idle env →
     pop_for q v0 env σ = Ok (false, v0) σ).
Proof.
  split_and!.
  - intros o σL Ho Hm Hwait. by eapply pop_for_timeout_run.
  - intros v σ' Hrun. pose proof Hrun as Hrun'.
    rewrite pop_for_unfold in Hrun.
    apply lock_guard_inv_ok in Hrun as (o & σ2 & o2 & Ho & Hm & Hbody & _).
    apply bind_inv_ok in Hbody as (success & σ1 & Hwait & Hbody).
    destruct success; simpl in Hbody.
    { apply removal_inv_ok in Hbody as (x & σ3 & Hret). by injection Hret. }
    rewrite (pop_for_timeout_run _ _ _ _ _ v0 Ho Hm Hwait) in Hrun'.
    by injection Hrun' as <- <-.
  - intros Hwf Hcont Hidle.
    destruct (wf_empty _ _ Hwf Hcont) as (o & Ho & Hm & Hf & _).
    rewrite <- (after_wakeups_idle env σ Hidle) at 2.
    eapply pop_for_timeout_run; [done|done|]. by apply cv_wait_for_idle.
Qed.

(** C10: when [try_pop], the timed [pop] or [try_peek] returns false,
    the variable passed for the result holds what it held before the
    call. *)
Theorem failed_call_keeps_value σ q (v0 v : T) env σ' :
  (try_pop q v0 σ = Ok (false, v) σ' → v = v0) ∧
  (pop_for q v0 env σ = Ok (false, v) σ' → v = v0) ∧
  (try_peek q v0 σ = Ok (false, v) σ' → v = v0).
Proof.
  split_and!.
  - rewrite try_pop_unfold. intros Hrun.
    apply lock_guard_inv_ok in Hrun as (o & σ2 & o2 & _ & _ & Hbody & _).
    apply bind_inv_ok in Hbody as (e & σ1 & _ & Hbody).
    destruct e.
    + by injection Hbody as <- _.
    + apply removal_inv_ok in Hbody as (x & σ3 & Hret). by injection Hret.
  - rewrite pop_for_unfold. intros Hrun.
    apply lock_guard_inv_ok in Hrun as (o & σ2 & o2 & _ & _ & Hbody & _).
    apply bind_inv_ok in Hbody as (success & σ1 & _ & Hbody).
    destruct success; simpl in Hbody.
    + apply removal_inv_ok in Hbody as (x & σ3 & Hret). by injection Hret.
    + by injection Hbody as <- _.
  - unfold try_peek. intros Hrun.
    apply lock_guard_inv_ok in Hrun as (o & σ2 & o2 & _ & _ & Hbody & _).
    apply bind_inv_ok in Hbody as (e & σ1 & _ & Hbody).
    destruct e.
    + by injection Hbody as <- _.
    + apply bind_inv_ok in Hbody as (f & σ3 & _ & Hbody).
      apply bind_inv_ok in Hbody as (nd & σ4 & _ & Hbody).
      by injection Hbody.
Qed.

(** C6: move construction and move assignment between two queues return
    normally; afterwards the destination holds exactly the elements the
    source held, whatever it held before, and the source is the empty
    queue: [front_] and [rear_] null, [size_] 0. *)
Theorem move_transfers σ this other l :
  wf σ → contents σ other = Some l →
  (queues σ !! this = None →
     ∃ σ', move_ctor this other σ = Ok tt σ' ∧ wf σ' ∧
           contents σ' this = Some l ∧ contents σ' other = Some [] ∧
           queues σ' !! other = Some (mkQueue None None 0 false)) ∧
  (is_Some (queues σ !! this) → this ≠ other →
     ∃ σ', move_assign this other σ = Ok tt σ' ∧ wf σ' ∧
           contents σ' this = Some l ∧ contents σ' other = Some [] ∧
           queues σ' !! other = Some (mkQueue None None 0 false)).
Proof.
  intros Hwf Hcont. pose proof Hwf as [Hc _]%wf_coherent.
  apply contents_Some in Hcont as (xs & Hcells & <-).
  pose proof (wf_locks _ _ Hwf (cells_of_is_Some _ _ _ Hcells)) as Hlo.
  split.
  - intros Hnone.
    destruct (wp_returns _ _ _ (wp_move_ctor this other xs σ Hc Hnone Hlo Hcells))
      as ([] & σ' & Hrun & Hc' & Ht & Ho & _ & Hl).
    assert (wf σ') as Hwf' by (by eapply wf_of_coherent_new).
    exists σ'. split_and!; [done|done| | |by apply empty_object].
    + apply contents_Some. eauto.
    + apply contents_Some. eauto.
  - intros Hthis Hne.
    destruct (wp_returns _ _ _
                (wp_move_assign this other xs σ Hc Hne
                   (wf_locks _ _ Hwf Hthis) Hlo Hcells))
      as ([] & σ' & Hrun & Hc' & Ht & Ho & _ & Hl).
    assert (wf σ') as Hwf' by (by eapply wf_of_coherent).
    exists σ'. split_and!; [done|done| | |by apply empty_object].
    + apply contents_Some. eauto.
    + apply contents_Some. eauto.
Qed.


End Claims.

(** ** The member functions, state by state *)

Section Exact.
Context {T : Type} `{Allocator}.
Implicit Types (h : gmap addr (Node T)) (σ : store T) (o : ConcurrentQueue).
Implicit Types (xs ys : list (addr * T)) (l : list T).

Lemma wp_throws {A} (m : M A) σ σ' :
  wp m (λ _ _, False) (λ s, s = σ') σ → m σ = BadAlloc σ'.
Proof. unfold wp. destruct (m σ); [done| |done]. by intros ->. Qed.

Lemma wp_both {A} (m : M A) (Q1 Q2 : A → store T → Prop) E1 E2 σ :
  wp m Q1 E1 σ → wp m Q2 E2 σ →
  wp m (λ a s, Q1 a s ∧ Q2 a s) (λ s, E1 s ∧ E2 s) σ.
Proof. unfold wp. by destruct (m σ). Qed.

Lemma push_throw_run q o (v : T) σ :
  queues σ !! q = Some o → mutex_ o = false →
  alloc (dom (nodes σ)) = None → push q v σ = BadAlloc σ.
Proof.
  intros Ho Hm Ha. apply wp_throws. unfold push. wp_steps.
  unfold push_unsafe. apply wp_bind. apply wp_make_unique.
  - simpl. intros a Ha'. congruence.
  - intros _. wp_steps. rewrite (insert_unlock_id _ _ o) by done. by destruct σ.
Qed.

Lemma wp_push_unsafe_exact q o (v : T) σ :
  coherent σ → queues σ !! q = Some o →
  wp (push_unsafe q v)
    (λ _ σ', ∃ a, alloc (dom (nodes σ)) = Some a ∧ σ' = pushed σ q o a v)
    (λ σ', σ' = σ ∧ alloc (dom (nodes σ)) = None) σ.
Proof.
  intros Hc Ho. pose proof Hc as (Hall & _ & _).
  destruct (Hall _ _ Ho) as [xs Hsh].
  destruct xs as [|[r vr] xs _] using rev_ind.
  - apply shape_nil in Hsh as (Hf & Hr & Hs).
    eapply wp_push_unsafe_empty; [done|done| |done].
    intros a Ha. exists a. split; [done|]. unfold pushed. by rewrite Hf.
  - destruct Hsh as (Hl & Hr & Hs & Hmax).
    rewrite fmap_app in Hr. simpl in Hr. rewrite last_snoc in Hr.
    apply lseg_app in Hl as (m & Hys & Hlast). simpl in Hlast.
    destruct Hlast as (-> & nx & Hnode & ->). simpl in Hnode.
    assert (∃ f, front_ o = Some f) as [f Hf].
    { destruct xs as [|y ys]; simpl in Hys; [eauto|]. destruct Hys as [? _]. eauto. }
    eapply wp_push_unsafe_nonempty; [done|done|done|done| |done].
    intros a Ha. exists a. split; [done|]. unfold pushed.
    rewrite Hf, Hr. f_equal.
    assert (a ≠ r) as Hne.
    { intros ->. apply alloc_fresh in Ha. apply Ha, elem_of_dom. eauto. }
    apply map_eq. intros b. destruct (decide (b = r)) as [->|Hb].
    + rewrite lookup_insert_eq, lookup_alter_eq, lookup_insert_ne by done.
      by rewrite Hnode.
    + by rewrite lookup_insert_ne, lookup_alter_ne by done.
Qed.

(** A push changes no node but the last one of the queue and the new
    one. *)
Lemma pushed_frame σ q o xs a (v : T) b :
  shape (nodes σ) o xs → b ≠ a → b ∉ xs.*1 →
  nodes (pushed σ q o a v) !! b = nodes σ !! b.
Proof.
  intros (Hl & Hr & _) Hba Hb. unfold pushed. simpl.
  destruct (front_ o) as [f|]; [|by rewrite lookup_insert_ne].
  destruct (rear_ o) as [r|] eqn:Hrear; [|by rewrite lookup_insert_ne].
  rewrite lookup_alter_ne, lookup_insert_ne; [done|done|].
  intros <-. apply Hb. destruct xs as [|x xs' _] using rev_ind; [done|].
  rewrite fmap_app in Hr |- *. simpl in Hr. rewrite last_snoc in Hr.
  injection Hr as ->. apply elem_of_app. right. left.
Qed.

Lemma wp_push_unsafe_full q o xs (v : T) σ :
  coherent σ → queues σ !! q = Some o → shape (nodes σ) o xs →
  wp (push_unsafe q v)
    (λ _ σ', ∃ a, alloc (dom (nodes σ)) = Some a ∧ σ' = pushed σ q o a v ∧
       coherent σ' ∧ cells_of σ' q = Some (xs ++ [(a, v)]) ∧
       changes_only [q] σ σ' ∧ locks σ' = locks σ)
    (λ σ', σ' = σ ∧ alloc (dom (nodes σ)) = None) σ.
Proof.
  intros Hc Ho Hsh.
  eapply wp_mono;
    [apply (wp_both _ _ _ _ _ _
              (wp_push_unsafe q xs v σ Hc (shape_cells_of _ _ _ _ Ho Hsh))
              (wp_push_unsafe_exact q o v σ Hc Ho))| |].
  - intros _ σ' [(a & Ha & Hc' & Hcells & Hch & Hl) (a' & Ha' & ->)].
    rewrite Ha in Ha'. injection Ha' as <-. exists a. done.
  - by intros σ' [? _].
Qed.

Lemma push_run σ q o a (v : T) :
  coherent σ → queues σ !! q = Some o → mutex_ o = false →
  alloc (dom (nodes σ)) = Some a →
  push q v σ = Ok tt (pushed σ q o a v).
Proof.
  intros Hc Ho Hm Ha. apply wp_eq. unfold push. wp_steps.
  destruct (mutex_update σ q o true Hc Ho) as (Hc1 & _ & _).
  eapply wp_mono; [eapply (wp_push_unsafe_exact q _ v _ Hc1); solve_lookup| |].
  - intros _ σ' (a' & Ha' & ->). simpl in Ha'.
    rewrite Ha in Ha'. injection Ha' as <-.
    unfold pushed. simpl. wp_steps. split; [done|].
    by rewrite Hm, !insert_insert_eq.
  - simpl. intros σ' [_ Ha']. congruence.
Qed.

End Exact.

(** ** Further properties of the queue *)

Section Observers.
Context {T : Type} `{Allocator}.
Implicit Types (h : gmap addr (Node T)) (σ : store T) (o : ConcurrentQueue).
Implicit Types (xs ys : list (addr * T)) (l : list T).

Lemma empty_run q o σ :
  queues σ !! q = Some o → mutex_ o = false →
  empty (T := T) q σ = Ok (bool_decide (front_ o = None)) σ.
Proof.
  intros Ho Hm. apply wp_eq. unfold empty. wp_steps. split; [done|].
  rewrite (insert_unlock_id _ _ o) by done. by destruct σ.
Qed.

Lemma wf_live σ q l : contents σ q = Some l → is_Some (queues σ !! q).
Proof. unfold contents. by destruct (queues σ !! q). Qed.

(** X1: [size()] returns the number of elements and [empty()] tells
    whether there is none; neither changes anything. *)
Theorem size_and_empty_observe σ q l :
  wf σ → contents σ q = Some l →
  size q σ = Ok (Z.of_nat (length l)) σ ∧
  empty q σ = Ok (if l is [] then true else false) σ.
Proof.
  intros Hwf Hcont. destruct (wf_live _ _ _ Hcont) as [o Ho].
  pose proof (wf_unlocked_at _ _ _ Hwf Ho) as Hm. split.
  - rewrite (size_run _ _ _ Ho Hm). by rewrite (wf_size _ _ _ _ Hwf Ho Hcont).
  - rewrite (empty_run _ _ _ Ho Hm). destruct l as [|x l].
    + destruct (wf_empty _ _ Hwf Hcont) as (o' & Ho' & _ & Hf & _).
      rewrite Ho in Ho'. injection Ho' as <-.
      by rewrite bool_decide_eq_true_2.
    + destruct (wf_front _ _ _ _ Hwf Hcont) as (o' & a & ? & ? & Ho' & _ & Hf & _).
      rewrite Ho in Ho'. injection Ho' as <-.
      rewrite bool_decide_eq_false_2; [done|]. by rewrite Hf.
Qed.

(** X2: [push] returns exactly when the allocation of the node
    succeeds; the element is then the last one, the size is one more and
    no other queue is touched.  When the allocation fails the exception
    leaves the store as it was, the mutex released. *)
Theorem push_appends_or_changes_nothing σ q l (v : T) :
  wf σ → contents σ q = Some l →
  match alloc (dom (nodes σ)) with
  | Some a =>
      ∃ σ', push q v σ = Ok tt σ' ∧ wf σ' ∧
            contents σ' q = Some (l ++ [v]) ∧
            size q σ' = Ok (Z.of_nat (length l) + 1) σ' ∧
            nodes σ' !! a = Some (mkNode v None) ∧
            ∀ q2, q2 ≠ q → undisturbed q2 σ σ'
  | None => push q v σ = BadAlloc σ
  end.
Proof.
  intros Hwf Hcont. destruct (wf_live _ _ _ Hcont) as [o Ho].
  pose proof (wf_unlocked_at _ _ _ Hwf Ho) as Hm.
  pose proof Hwf as [Hc _]%wf_coherent.
  destruct (alloc (dom (nodes σ))) as [a|] eqn:Ha;
    [|by eapply push_throw_run].
  pose proof (push_run σ q o a v Hc Ho Hm Ha) as Hrun.
  destruct (push_ok_wf _ _ _ _ _ Hwf Hcont Hrun) as (Hwf' & Hcont' & Hch).
  exists (pushed σ q o a v). split_and!; [done|done|done| | |].
  - destruct (wf_live _ _ _ Hcont') as [o' Ho'].
    rewrite (size_run _ _ _ Ho' (wf_unlocked_at _ _ _ Hwf' Ho')).
    rewrite (wf_size _ _ _ _ Hwf' Ho' Hcont'), length_app. simpl.
    do 2 f_equal. lia.
  - apply contents_Some in Hcont' as (ys & Hys & Hv).
    destruct (cells_of_shape _ _ _ (proj1 (proj1 (wf_coherent _) Hwf')) Hys)
      as (o' & Ho' & Hl & Hr & _).
    assert (rear_ o' = Some a) as Hra.
    { unfold pushed in Ho'. simpl in Ho'. rewrite lookup_insert_eq in Ho'.
      by injection Ho' as <-. }
    destruct ys as [|[b w] ys _] using rev_ind.
    { by destruct l. }
    rewrite fmap_app in Hr. rewrite fmap_app in Hv.
    simpl in Hr, Hv. rewrite last_snoc in Hr.
    rewrite Hra in Hr. injection Hr as <-.
    apply app_inj_tail in Hv as [_ ->].
    apply lseg_app in Hl as (m & _ & (_ & nx & Hnd & ->)). done.
  - intros q2 Hne. apply undisturbed_of_cells; [done|done|].
    apply Hch. apply not_elem_of_cons. split; [done|apply not_elem_of_nil].
Qed.

(** X3: a push to an empty queue followed by [try_pop] hands the
    element back and leaves the store exactly as it was before the push:
    the node is freed again. *)
Theorem push_try_pop_round_trip σ q (v d : T) σ1 :
  wf σ → contents σ q = Some [] → push q v σ = Ok tt σ1 →
  try_pop q d σ1 = Ok (true, v) σ.
Proof.
  intros Hwf Hcont Hpush.
  destruct (wf_empty _ _ Hwf Hcont) as (o & Ho & Hm & Hf & Hr & Hs).
  pose proof Hwf as [Hc _]%wf_coherent.
  destruct (alloc (dom (nodes σ))) as [a|] eqn:Ha.
  2: { by rewrite (push_throw_run _ _ _ _ Ho Hm Ha) in Hpush. }
  rewrite (push_run σ q o a v Hc Ho Hm Ha) in Hpush. injection Hpush as <-.
  rewrite (try_pop_run q (mkQueue (Some a) (Some a) ((size_ o + 1) mod size_max)
                            (mutex_ o)) a v None).
  - f_equal. unfold removed, pushed. simpl. rewrite Hf, Hs, Hm. simpl.
    rewrite decide_True by done. rewrite insert_insert_eq.
    rewrite delete_insert_eq.
    destruct σ as [h Q]. simpl in *. f_equal.
    + apply delete_id. apply alloc_fresh in Ha.
      by apply not_elem_of_dom in Ha.
    + apply insert_id. rewrite Ho. destruct o. simpl in *. by subst.
  - unfold pushed. simpl. rewrite Hf. apply lookup_insert_eq.
  - done.
  - done.
  - unfold pushed. simpl. rewrite Hf. apply lookup_insert_eq.
Qed.

End Observers.

(** ** Waiting: what a wake-up does *)

Section Wakeups.
Context {T : Type} `{Allocator}.
Implicit Types (h : gmap addr (Node T)) (σ : store T) (o : ConcurrentQueue).
Implicit Types (xs ys : list (addr * T)) (l : list T).

Lemma finally_ext {A} (m m' : M A) c σ σ' :
  m σ = m' σ' → finally m c σ = finally m' c σ'.
Proof. unfold finally. by intros ->. Qed.

Lemma bind_ext {A B} (m m' : M A) (k : A → M B) σ σ' :
  m σ = m' σ' → (m ≫= k) σ = (m' ≫= k) σ'.
Proof. unfold mbind, M_bind, bind. by intros ->. Qed.

(** A wait on an empty queue: the mutex is released, the other threads
    run, the mutex is taken again. *)
Lemma cv_wait_wakeup_run q o o' ev env σ :
  queues σ !! q = Some o → mutex_ o = false → front_ o = None →
  queues (ev σ) !! q = Some o' → mutex_ o' = false →
  cv_wait (T := T) q (ev :: env) (with_mutex true q o σ) =
  cv_wait q env (with_mutex true q o' (ev σ)).
Proof.
  intros Ho Hm Hf Ho' Hm'. rewrite cv_wait_unfold.
  erewrite bind_ok by (apply empty_unsafe_run, with_mutex_lookup).
  simpl. rewrite (bool_decide_eq_true_2 _ Hf). simpl.
  erewrite bind_ok by (by apply unlock_locked_run).
  erewrite bind_ok by reflexivity.
  by erewrite bind_ok by (by apply lock_run).
Qed.

Lemma pop_wakeup_run q o o' (d : T) ev env σ :
  queues σ !! q = Some o → mutex_ o = false → front_ o = None →
  queues (ev σ) !! q = Some o' → mutex_ o' = false →
  pop q d (ev :: env) σ = pop q d env (ev σ).
Proof.
  intros Ho Hm Hf Ho' Hm'. rewrite !pop_unfold. unfold lock_guard.
  erewrite bind_ok by (by apply lock_run).
  erewrite (bind_ok (lock q) _ (ev σ)) by (by apply lock_run).
  apply finally_ext, bind_ext. by eapply cv_wait_wakeup_run.
Qed.

Lemma cv_wait_for_wakeup_run q o o' w env σ :
  queues σ !! q = Some o → mutex_ o = false → front_ o = None →
  queues (during w σ) !! q = Some o' → mutex_ o' = false →
  cv_wait_for (T := T) q (w :: env) (with_mutex true q o σ) =
  (if timed_out w then e' ← empty_unsafe q; mret (negb e')
   else cv_wait_for q env) (with_mutex true q o' (during w σ)).
Proof.
  intros Ho Hm Hf Ho' Hm'. rewrite cv_wait_for_unfold.
  erewrite bind_ok by (apply empty_unsafe_run, with_mutex_lookup).
  simpl. rewrite (bool_decide_eq_true_2 _ Hf). simpl.
  erewrite bind_ok by (by apply unlock_locked_run).
  erewrite bind_ok by reflexivity.
  by erewrite bind_ok by (by apply lock_run).
Qed.

Lemma pop_for_wakeup_run q o o' (d : T) ev env σ :
  queues σ !! q = Some o → mutex_ o = false → front_ o = None →
  queues (ev σ) !! q = Some o' → mutex_ o' = false →
  pop_for q d (mkWakeup ev false :: env) σ = pop_for q d env (ev σ).
Proof.
  intros Ho Hm Hf Ho' Hm'. rewrite !pop_for_unfold. unfold lock_guard.
  erewrite bind_ok by (by apply lock_run).
  erewrite (bind_ok (lock q) _ (ev σ)) by (by apply lock_run).
  apply finally_ext, bind_ext.
  by rewrite (cv_wait_for_wakeup_run q o o' (mkWakeup ev false)).
Qed.

(** The body of the timed [pop] once the deadline has passed is the body
    of [try_pop]. *)
Lemma deadline_body q (d : T) σ :
  (success ← (e' ← empty_unsafe q; mret (negb e'));
   if negb success then mret (false, d)
   else removal q (λ v, mret (true, v))) σ =
  (e ← empty_unsafe q;
   if (e : bool) then mret (false, d)
   else removal q (λ v, mret (true, v))) σ.
Proof.
  unfold empty_unsafe, get_front, get_queue.
  unfold mbind, M_bind, bind, mret, M_ret, ret.
  destruct (queues σ !! q) as [o|]; [|done].
  by destruct (bool_decide (front_ o = None)).
Qed.

Lemma pop_for_deadline_run q o o' (d : T) ev env σ :
  queues σ !! q = Some o → mutex_ o = false → front_ o = None →
  queues (ev σ) !! q = Some o' → mutex_ o' = false →
  pop_for q d (mkWakeup ev true :: env) σ = try_pop q d (ev σ).
Proof.
  intros Ho Hm Hf Ho' Hm'. rewrite pop_for_unfold, try_pop_unfold.
  unfold lock_guard.
  erewrite bind_ok by (by apply lock_run).
  erewrite (bind_ok (lock q) _ (ev σ)) by (by apply lock_run).
  apply finally_ext. rewrite <- deadline_body. apply bind_ext.
  by rewrite (cv_wait_for_wakeup_run q o o' (mkWakeup ev true)).
Qed.

Lemma pop_for_nil_run q o (d : T) σ :
  queues σ !! q = Some o → mutex_ o = false →
  pop_for q d [] σ = try_pop q d σ.
Proof.
  intros Ho Hm. rewrite pop_for_unfold, try_pop_unfold. unfold lock_guard.
  erewrite !bind_ok by (by apply lock_run).
  apply finally_ext. rewrite <- deadline_body. apply bind_ext.
  rewrite cv_wait_for_unfold.
  erewrite !bind_ok by (apply empty_unsafe_run, with_mutex_lookup).
  simpl. destruct (front_ o) as [a|] eqn:Hf; simpl.
  - done.
  - erewrite bind_ok by (by apply unlock_locked_run).
    erewrite bind_ok by (by apply lock_run).
    erewrite bind_ok by (apply empty_unsafe_run, with_mutex_lookup).
    simpl. by rewrite Hf.
Qed.

Lemma pop_idle_blocks q o (d : T) env σ :
  queues σ !! q = Some o → mutex_ o = false → front_ o = None →
  Forall (λ ev, ∀ s, ev s = s) env →
  pop q d env σ = Stuck Blocked.
Proof.
  intros Ho Hm Hf Henv. induction Henv as [|ev env Hev _ IH].
  - by eapply pop_nil_empty_run.
  - rewrite (pop_wakeup_run q o o d ev env σ), Hev; rewrite ?Hev; done.
Qed.

(** X4: a blocking [pop] on an empty queue does not return as long as
    the other threads leave the store as it is, however often the thread
    is woken up. *)
Theorem pop_waits_for_a_producer σ q (d : T) env :
  wf σ → contents σ q = Some [] → Forall (λ ev, ∀ s, ev s = s) env →
  pop q d env σ = Stuck Blocked.
Proof.
  intros Hwf Hcont Henv.
  destruct (wf_empty _ _ Hwf Hcont) as (o & Ho & Hm & Hf & _).
  by eapply pop_idle_blocks.
Qed.

(** X5: when the queue is empty, a wake-up of the blocking [pop] is the
    call started afresh in the store the other threads have left; so
    when they have pushed, [pop] returns the front element. *)
Theorem pop_wakes_up_to_the_new_state σ q (d : T) ev env :
  wf σ → contents σ q = Some [] →
  wf (ev σ) → is_Some (queues (ev σ) !! q) →
  pop q d (ev :: env) σ = pop q d env (ev σ) ∧
  ∀ x l, contents (ev σ) q = Some (x :: l) →
    ∃ σ', pop q d (ev :: env) σ = Ok x σ' ∧ wf σ' ∧ contents σ' q = Some l.
Proof.
  intros Hwf Hcont Hwf' [o' Ho'].
  destruct (wf_empty _ _ Hwf Hcont) as (o & Ho & Hm & Hf & _).
  pose proof (wf_unlocked_at _ _ _ Hwf' Ho') as Hm'.
  pose proof (pop_wakeup_run q o o' d ev env σ Ho Hm Hf Ho' Hm') as Heq.
  split; [done|]. intros x l Hl. rewrite Heq.
  destruct (wf_front _ _ _ _ Hwf' Hl)
    as (o1 & a & nx & xs & Ho1 & Hm1 & Hf1 & Ha & Hsh & Hxs).
  destruct (wf_removed _ _ _ _ _ _ _ Hwf' Ho1 Hsh Ha) as (Hwf2 & Hcells & _).
  exists (removed (ev σ) q o1 a nx). split_and!; [|done|].
  - by apply pop_run.
  - apply contents_Some. eauto.
Qed.

(** X6: the timed [pop] is [try_pop] at the deadline.  With no wake-up
    before the deadline it is [try_pop] in the same store; on an empty
    queue, a wake-up that is the timeout makes it [try_pop] in the store
    the other threads have left, and a wake-up before the timeout makes it
    the timed [pop] started afresh in that store. *)
Theorem timed_pop_is_try_pop_at_the_deadline σ q (d : T) ev env :
  wf σ → is_Some (queues σ !! q) →
  pop_for q d [] σ = try_pop q d σ ∧
  (contents σ q = Some [] → wf (ev σ) → is_Some (queues (ev σ) !! q) →
   pop_for q d (mkWakeup ev true :: env) σ = try_pop q d (ev σ) ∧
   pop_for q d (mkWakeup ev false :: env) σ = pop_for q d env (ev σ)).
Proof.
  intros Hwf [o Ho]. pose proof (wf_unlocked_at _ _ _ Hwf Ho) as Hm. split.
  - by eapply pop_for_nil_run.
  - intros Hcont Hwf' [o' Ho'].
    destruct (wf_empty _ _ Hwf Hcont) as (o1 & Ho1 & _ & Hf & _).
    rewrite Ho in Ho1. injection Ho1 as <-.
    pose proof (wf_unlocked_at _ _ _ Hwf' Ho') as Hm'. split.
    + by eapply pop_for_deadline_run.
    + by eapply pop_for_wakeup_run.
Qed.

End Wakeups.

(** ** Nodes that belong to no queue *)

Section Leaks.
Context {T : Type} `{Allocator}.
Implicit Types (h : gmap addr (Node T)) (σ : store T) (o : ConcurrentQueue).
Implicit Types (xs ys : list (addr * T)) (l : list T).

Lemma elem_of_owned h o a :
  a ∈ owned h o ↔ ∃ xs, cells h o = Some xs ∧ a ∈ xs.*1.
Proof.
  unfold owned. destruct (cells h o) as [xs|]; simpl.
  - split; [eauto|]. by intros (ys & [= <-] & ?).
  - split; [by intros ?%elem_of_nil|]. by intros (ys & ? & _).
Qed.

Lemma no_leak_alt σ :
  no_leak σ ↔
  ∀ a, is_Some (nodes σ !! a) → ∃ q xs, cells_of σ q = Some xs ∧ a ∈ xs.*1.
Proof.
  unfold no_leak, map_Forall. split.
  - intros Hall a [nd Ha]. specialize (Hall a nd Ha).
    apply Exists_exists in Hall as (o & Ho & Hin).
    apply list_elem_of_fmap in Ho as ([q o'] & -> & Hq). simpl in Hin.
    apply elem_of_map_to_list in Hq.
    apply elem_of_owned in Hin as (xs & Hxs & Hin).
    exists q, xs. split; [|done]. unfold cells_of. by rewrite Hq.
  - intros Hall a nd Ha. destruct (Hall a) as (q & xs & Hcells & Hin); [eauto|].
    unfold cells_of in Hcells.
    destruct (queues σ !! q) as [o|] eqn:Hq; [|done]. simpl in Hcells.
    apply Exists_exists. exists o. split.
    + apply list_elem_of_fmap. exists (q, o). split; [done|].
      by apply elem_of_map_to_list.
    + apply elem_of_owned. eauto.
Qed.

(** A step that changes the queues [X] only: there is no leak afterwards
    when every node that is live then is owned then, or was live before
    and did not belong to a queue in [X]. *)
Lemma no_leak_step (X : list qid) σ σ' :
  no_leak σ → changes_only X σ σ' →
  (∀ a, is_Some (nodes σ' !! a) →
     (∃ q xs, cells_of σ' q = Some xs ∧ a ∈ xs.*1) ∨
     (is_Some (nodes σ !! a) ∧
      ∀ q xs, q ∈ X → cells_of σ q = Some xs → a ∉ xs.*1)) →
  no_leak σ'.
Proof.
  intros Hnl Hch Hstep. apply no_leak_alt. intros a Ha.
  destruct (Hstep a Ha) as [?|[Hlive Hout]]; [done|].
  destruct (proj1 (no_leak_alt σ) Hnl a Hlive) as (q & xs & Hcells & Hin).
  exists q, xs. split; [|done]. rewrite Hch; [done|].
  intros Hq. by apply (Hout q xs).
Qed.

Lemma with_mutex_cells_of b q o σ q2 :
  queues σ !! q = Some o → cells_of (with_mutex b q o σ) q2 = cells_of σ q2.
Proof.
  intros Ho. unfold cells_of, with_mutex. simpl.
  destruct (decide (q = q2)) as [<-|Hne].
  - by rewrite lookup_insert_eq, Ho.
  - by rewrite lookup_insert_ne.
Qed.

Lemma no_leak_removed σ q o a v nx xs :
  wf σ → no_leak σ → queues σ !! q = Some o →
  shape (nodes σ) o ((a, v) :: xs) → nodes σ !! a = Some (mkNode v nx) →
  no_leak (removed σ q o a nx).
Proof.
  intros Hwf Hnl Ho Hsh Ha.
  destruct (wf_removed _ _ _ _ _ _ _ Hwf Ho Hsh Ha) as (_ & Hcells & Hch).
  apply (no_leak_step [q] σ); [done|done|]. intros b Hb.
  unfold removed in Hb. simpl in Hb.
  apply lookup_delete_is_Some in Hb as [Hba Hb].
  destruct (decide (b ∈ xs.*1)) as [Hin|Hin]; [left; eauto|].
  right. split; [done|].
  intros q2 xs2 ->%list_elem_of_singleton Hcells2.
  rewrite (shape_cells_of _ _ _ _ Ho Hsh) in Hcells2. injection Hcells2 as <-.
  simpl. by apply not_elem_of_cons.
Qed.

End Leaks.

(** ** Moves and destruction, state by state *)

Ltac insert_lookups :=
  repeat first
    [ rewrite lookup_insert_eq
    | rewrite lookup_insert_ne by done ].

Section Moves.
Context {T : Type} `{Allocator}.
Implicit Types (h : gmap addr (Node T)) (σ : store T) (o : ConcurrentQueue).
Implicit Types (xs ys : list (addr * T)) (l : list T).

Lemma wp_lock_guard_exact {A} q o (body : M A) (Q : A → store T → Prop) E σ :
  queues σ !! q = Some o → mutex_ o = false →
  wp body
    (λ a σ2, ∃ o2, queues σ2 !! q = Some o2 ∧ mutex_ o2 = true ∧
                   Q a (with_mutex false q o2 σ2))
    (λ σ2, ∃ o2, queues σ2 !! q = Some o2 ∧ mutex_ o2 = true ∧
                 E (with_mutex false q o2 σ2))
    (with_mutex true q o σ) →
  wp (lock_guard q body) Q E σ.
Proof.
  intros Ho Hm Hbody. unfold lock_guard. apply wp_bind.
  eapply wp_lock; [done|done|]. apply wp_finally.
  eapply wp_mono; [exact Hbody| |].
  - intros a σ2 (o2 & Ho2 & Hm2 & HQ). by eapply wp_unlock.
  - intros σ2 (o2 & Ho2 & Hm2 & HE). by eapply wp_unlock.
Qed.

Lemma wp_lock_both_exact {A} a b oa ob (body : M A)
    (Q : A → store T → Prop) E σ :
  a ≠ b → queues σ !! a = Some oa → queues σ !! b = Some ob →
  mutex_ oa = false → mutex_ ob = false →
  wp body
    (λ r σ2, ∃ oa2 ob2,
       queues σ2 !! a = Some oa2 ∧ queues σ2 !! b = Some ob2 ∧
       mutex_ oa2 = true ∧ mutex_ ob2 = true ∧
       Q r (with_mutex false a oa2 (with_mutex false b ob2 σ2)))
    (λ σ2, ∃ oa2 ob2,
       queues σ2 !! a = Some oa2 ∧ queues σ2 !! b = Some ob2 ∧
       mutex_ oa2 = true ∧ mutex_ ob2 = true ∧
       E (with_mutex false a oa2 (with_mutex false b ob2 σ2)))
    (with_mutex true b ob (with_mutex true a oa σ)) →
  wp (lock_both a b body) Q E σ.
Proof.
  intros Hne Ha Hb Hma Hmb Hbody. unfold lock_both. apply wp_bind.
  eapply wp_lock; [done|done|]. apply wp_bind.
  eapply wp_lock; [by simpl; rewrite lookup_insert_ne|done|].
  apply wp_finally. eapply wp_mono.
  - apply wp_finally. eapply wp_mono; [exact Hbody| |].
    + intros r σ2 (oa2 & ob2 & Ha2 & Hb2 & Hma2 & Hmb2 & HQ).
      eapply wp_unlock; [done|done|].
      instantiate (1 := λ r s, ∃ oa2, queues s !! a = Some oa2 ∧
                     mutex_ oa2 = true ∧ Q r (with_mutex false a oa2 s)).
      simpl. exists oa2. by rewrite lookup_insert_ne.
    + intros σ2 (oa2 & ob2 & Ha2 & Hb2 & Hma2 & Hmb2 & HE).
      eapply wp_unlock; [done|done|].
      instantiate (1 := λ s, ∃ oa2, queues s !! a = Some oa2 ∧
                     mutex_ oa2 = true ∧ E (with_mutex false a oa2 s)).
      simpl. exists oa2. by rewrite lookup_insert_ne.
  - intros r σ2 (oa2 & Ha2 & Hma2 & HQ). by eapply wp_unlock.
  - intros σ2 (oa2 & Ha2 & Hma2 & HE). by eapply wp_unlock.
Qed.

Lemma destroy_run q o xs σ :
  queues σ !! q = Some o → lseg (nodes σ) (front_ o) xs None →
  destroy q σ = Ok tt (destroyed σ q xs).
Proof.
  intros Ho Hl. apply wp_eq. unfold destroy. wp_steps.
  by eapply wp_delete_ptr.
Qed.

Lemma move_assign_run this other ot oo xt σ :
  this ≠ other → queues σ !! this = Some ot → queues σ !! other = Some oo →
  mutex_ ot = false → mutex_ oo = false →
  lseg (nodes σ) (front_ ot) xt None →
  move_assign this other σ = Ok tt (moved σ this other xt oo).
Proof.
  intros Hne Ht Ho Hmt Hmo Hl. apply wp_eq.
  assert (other ≠ this) as Hne' by (by apply not_eq_sym).
  rewrite move_assign_unfold, decide_True by done.
  eapply wp_lock_both_exact; [done..|].
  eapply wp_transfer;
    [done
    |by simpl; rewrite lookup_insert_ne by done; apply lookup_insert_eq
    |by simpl; apply lookup_insert_eq
    |done|].
  simpl. eexists _, _. split_and!.
  - rewrite lookup_insert_ne by done. apply lookup_insert_eq.
  - apply lookup_insert_eq.
  - done.
  - done.
  - done.
  - unfold moved, with_mutex. simpl. f_equal.
    apply map_eq. intros q.
    destruct (decide (q = this)) as [->|Hq1];
      [|destruct (decide (q = other)) as [->|Hq2]]; by insert_lookups.
Qed.

Lemma move_ctor_run this other oo σ :
  queues σ !! this = None → queues σ !! other = Some oo →
  mutex_ oo = false →
  move_ctor this other σ = Ok tt (moved σ this other [] oo).
Proof.
  intros Ht Ho Hmo. assert (this ≠ other) as Hne by congruence.
  assert (other ≠ this) as Hne' by (by apply not_eq_sym).
  apply wp_eq. rewrite move_ctor_unfold. apply wp_bind.
  apply wp_construct; [done|].
  eapply wp_lock_guard_exact; [by simpl; rewrite lookup_insert_ne|done|].
  eapply (wp_transfer _ _ _ _ []);
    [done
    |by simpl; rewrite lookup_insert_ne by done; apply lookup_insert_eq
    |by simpl; apply lookup_insert_eq
    |done|].
  simpl. eexists. split_and!.
  - apply lookup_insert_eq.
  - done.
  - done.
  - unfold moved, with_mutex. simpl. f_equal.
    apply map_eq. intros q.
    destruct (decide (q = this)) as [->|Hq1];
      [|destruct (decide (q = other)) as [->|Hq2]]; by insert_lookups.
Qed.

Lemma wf_moved σ this other ot oo xt xo :
  wf σ → this ≠ other →
  queues σ !! this = Some ot → queues σ !! other = Some oo →
  shape (nodes σ) ot xt → shape (nodes σ) oo xo →
  wf (moved σ this other xt oo) ∧
  cells_of (moved σ this other xt oo) this = Some xo ∧
  cells_of (moved σ this other xt oo) other = Some [] ∧
  changes_only [this; other] σ (moved σ this other xt oo).
Proof.
  intros Hwf Hne Ht Ho St So. pose proof Hwf as [Hc _]%wf_coherent.
  destruct (transferred_post σ this other ot oo xt xo Hc Hne Ht Ho St So)
    as (Hc' & Hthis & Hother & Hch & Hl).
  rewrite (wf_unlocked_at _ _ _ Hwf Ht), (wf_unlocked_at _ _ _ Hwf Ho)
    in Hc', Hthis, Hother, Hch, Hl.
  split_and!; [|done|done|done]. by eapply wf_of_coherent.
Qed.

Lemma wf_destroyed σ q o xs :
  wf σ → queues σ !! q = Some o → shape (nodes σ) o xs →
  wf (destroyed σ q xs) ∧ changes_only [q] σ (destroyed σ q xs).
Proof.
  intros Hwf Ho Hsh. pose proof Hwf as [Hc Hu]%wf_coherent.
  pose proof (wp_destroy q σ Hc (ex_intro _ o Ho)) as Hwp.
  eapply wp_ok in Hwp; [|apply (destroy_run q o xs); [done|by destruct Hsh]].
  destruct Hwp as (Hc' & _ & Hch & Hl). split; [|done].
  apply wf_coherent. split; [done|]. intros q2. rewrite Hl.
  destruct (decide (q2 = q)) as [->|Hq].
  - by rewrite lookup_delete_eq.
  - rewrite lookup_delete_ne by done. apply Hu.
Qed.

(** X7: move construction never fails and touches no node: the new
    object takes over [front_], [rear_] and [size_] of the source, the
    source object is left empty, and nothing is allocated, copied or
    freed. *)
Theorem move_construction_steals_the_chain σ this other oo :
  wf σ → queues σ !! this = None → queues σ !! other = Some oo →
  ∃ σ', move_ctor this other σ = Ok tt σ' ∧
        nodes σ' = nodes σ ∧
        queues σ' !! this = Some oo ∧
        queues σ' !! other = Some (mkQueue None None 0 false) ∧
        ∀ q, q ≠ this → q ≠ other → queues σ' !! q = queues σ !! q.
Proof.
  intros Hwf Ht Ho. pose proof (wf_unlocked_at _ _ _ Hwf Ho) as Hm.
  assert (this ≠ other) as Hne by congruence.
  exists (moved σ this other [] oo). split_and!.
  - by apply move_ctor_run.
  - done.
  - unfold moved. simpl. rewrite lookup_insert_ne by done.
    rewrite lookup_insert_eq. f_equal. destruct oo. simpl in *. by subst.
  - unfold moved. simpl. apply lookup_insert_eq.
  - intros q Hq1 Hq2. unfold moved. simpl. by rewrite !lookup_insert_ne.
Qed.

(** X8: move assignment between two queues is the destruction of the
    destination followed by its move construction from the source: it
    never fails, and of the nodes it frees exactly those the destination
    held and touches no other. *)
Theorem move_assignment_is_destroy_then_move σ this other xt :
  wf σ → this ≠ other → cells_of σ this = Some xt →
  is_Some (queues σ !! other) →
  ∃ σ', move_assign this other σ = Ok tt σ' ∧
        (destroy this;; move_ctor this other) σ = Ok tt σ' ∧
        ∀ a, nodes σ' !! a =
             if decide (a ∈ xt.*1) then None else nodes σ !! a.
Proof.
  intros Hwf Hne Hcells [oo Ho]. pose proof Hwf as [Hc _]%wf_coherent.
  destruct (cells_of_shape _ _ _ Hc Hcells) as (ot & Ht & St).
  pose proof (wf_unlocked_at _ _ _ Hwf Ht) as Hmt.
  pose proof (wf_unlocked_at _ _ _ Hwf Ho) as Hmo.
  exists (moved σ this other xt oo). split_and!.
  - apply (move_assign_run this other ot); try done. by destruct St.
  - erewrite bind_ok
      by (apply (destroy_run this ot xt); [done|by destruct St]).
    rewrite (move_ctor_run this other oo).
    + unfold moved, destroyed. simpl. by rewrite insert_delete_eq.
    + unfold destroyed. simpl. apply lookup_delete_eq.
    + unfold destroyed. simpl. by rewrite lookup_delete_ne.
    + done.
  - intros a. unfold moved. simpl. apply lookup_foldr_delete.
Qed.

(** X9: the destructor frees exactly the nodes of the queue; the other
    queues are what they were, the store stays well formed, and when no
    node had leaked before none has afterwards. *)
Theorem destructor_frees_the_chain σ q xs :
  wf σ → cells_of σ q = Some xs →
  ∃ σ', destroy q σ = Ok tt σ' ∧ wf σ' ∧ queues σ' !! q = None ∧
        (∀ a, nodes σ' !! a =
              if decide (a ∈ xs.*1) then None else nodes σ !! a) ∧
        (∀ q2, q2 ≠ q → undisturbed q2 σ σ') ∧
        (no_leak σ → no_leak σ').
Proof.
  intros Hwf Hcells. pose proof Hwf as [Hc _]%wf_coherent.
  destruct (cells_of_shape _ _ _ Hc Hcells) as (o & Ho & Hsh).
  destruct (wf_destroyed _ _ _ _ Hwf Ho Hsh) as [Hwf' Hch].
  exists (destroyed σ q xs). split_and!.
  - apply (destroy_run q o); [done|by destruct Hsh].
  - done.
  - unfold destroyed. simpl. apply lookup_delete_eq.
  - intros a. unfold destroyed. simpl. apply lookup_foldr_delete.
  - intros q2 Hq2. apply undisturbed_of_cells; [done|done|].
    apply Hch. apply not_elem_of_cons. split; [done|apply not_elem_of_nil].
  - intros Hnl. apply (no_leak_step [q] σ); [done|done|].
    intros a Ha. right. unfold destroyed in Ha. simpl in Ha.
    rewrite lookup_foldr_delete in Ha.
    destruct (decide (a ∈ xs.*1)) as [Hin|Hin]; [by destruct Ha|].
    split; [done|]. intros q2 xs2 ->%list_elem_of_singleton Hxs2.
    rewrite Hcells in Hxs2. by injection Hxs2 as <-.
Qed.

End Moves.

(** ** One thread alone with the queue *)

Section Alone.
Context {T : Type} `{Allocator}.
Implicit Types (h : gmap addr (Node T)) (σ : store T) (o : ConcurrentQueue).
Implicit Types (xs ys : list (addr * T)) (l : list T).

Lemma spurious_idle ws : Forall idle (spurious (T := T) ws).
Proof.
  unfold spurious. apply Forall_fmap, Forall_forall. intros b _. by intros σ.
Qed.

Lemma wp_push_wf q l (v : T) σ :
  wf σ → contents σ q = Some l →
  wp (push q v) (λ _ σ', wf σ' ∧ contents σ' q = Some (l ++ [v]))
     (λ σ', wf σ') σ.
Proof.
  intros Hwf Hcont. apply (wp_push_all q [v] σ l Hwf) in Hcont as Hwp.
  unfold wp in *. simpl in Hwp. unfold mbind, M_bind, bind in Hwp.
  by destruct (push q v σ).
Qed.

Lemma bind_run_throw {A B} (m : M A) (k : A → M B) σ σ' :
  m σ = BadAlloc σ' → (m ≫= k) σ = BadAlloc σ'.
Proof. unfold mbind, M_bind, bind. by intros ->. Qed.

Lemma wp_value {A} (m : M A) a σ' (Q : A → store T → Prop) E σ :
  m σ = Ok a σ' → Q a σ' → wp m Q E σ.
Proof. unfold wp. by intros ->. Qed.

Lemma do_call_spec σ q l (d : T) c :
  wf σ → contents σ q = Some l →
  match list_call l d c with
  | Some (r, d', l') =>
      wp (do_call q d c)
        (λ x σ', x = (r, d') ∧ wf σ' ∧ contents σ' q = Some l')
        (λ σ', wf σ') σ
  | None => do_call q d c σ = Stuck Blocked
  end.
Proof.
  intros Hwf Hcont. destruct (wf_live _ _ _ Hcont) as [o Ho].
  pose proof (wf_unlocked_at _ _ _ Hwf Ho) as Hm.
  assert (l = [] → front_ o = None) as Hnil.
  { intros ->. destruct (wf_empty _ _ Hwf Hcont) as (o' & Ho' & _ & Hf & _).
    congruence. }
  assert (∀ x l', l = x :: l' →
            ∃ a nx xs, front_ o = Some a ∧ nodes σ !! a = Some (mkNode x nx) ∧
                       wf (removed σ q o a nx) ∧
                       contents (removed σ q o a nx) q = Some l') as Hcons.
  { intros x l' ->.
    destruct (wf_front _ _ _ _ Hwf Hcont)
      as (o' & a & nx & xs & Ho' & _ & Hf & Ha & Hsh & Hxs).
    rewrite Ho in Ho'. injection Ho' as <-.
    destruct (wf_removed _ _ _ _ _ _ _ Hwf Ho Hsh Ha) as (Hwf' & Hcells & _).
    exists a, nx, xs. split_and!; [done|done|done|].
    apply contents_Some. eauto. }
  destruct c as [v| |n|ws| | |]; simpl.
  - apply wp_bind. eapply wp_mono; [by apply wp_push_wf| |done].
    intros _ σ' [Hwf' Hcont']. by apply wp_ret.
  - destruct l as [|x l'].
    + eapply wp_value;
        [by erewrite bind_ok by (apply (try_pop_empty_run q o); auto)|done].
    + destruct (Hcons x l' eq_refl) as (a & nx & xs & Hf & Ha & Hwf' & Hc').
      eapply wp_value;
        [by erewrite bind_ok by (by eapply (try_pop_run q o))|done].
  - destruct l as [|x l'].
    + apply bind_run_stuck. apply (pop_idle_blocks q o); auto.
      apply Forall_replicate. done.
    + destruct (Hcons x l' eq_refl) as (a & nx & xs & Hf & Ha & Hwf' & Hc').
      eapply wp_value;
        [by erewrite bind_ok by (by eapply (pop_run q o))|done].
  - destruct l as [|x l'].
    + assert (pop_for q d (spurious ws) σ = Ok (false, d) σ) as Hrun.
      { rewrite (pop_for_timeout_run q o (spurious ws) σ _ d Ho Hm
                   (cv_wait_for_idle _ _ _ _ Ho Hm (Hnil eq_refl)
                      (spurious_idle ws))).
        by rewrite after_wakeups_idle by apply spurious_idle. }
      eapply wp_value; [by erewrite bind_ok by exact Hrun|done].
    + destruct (Hcons x l' eq_refl) as (a & nx & xs & Hf & Ha & Hwf' & Hc').
      eapply wp_value;
        [by erewrite bind_ok by (by eapply (pop_for_run q o))|done].
  - destruct l as [|x l'].
    + eapply wp_value;
        [by erewrite bind_ok by (apply (try_peek_empty_run q o); auto)|done].
    + destruct (Hcons x l' eq_refl) as (a & nx & xs & Hf & Ha & Hwf' & Hc').
      eapply wp_value;
        [by erewrite bind_ok by (by eapply (try_peek_run q o))|done].
  - eapply wp_value; [by erewrite bind_ok by (by apply (size_run q o))|].
    by rewrite (wf_size _ _ _ _ Hwf Ho Hcont).
  - eapply wp_value; [by erewrite bind_ok by (by apply (empty_run q o))|].
    split_and!; [|done|done]. do 2 f_equal. destruct l as [|x l'].
    + by rewrite bool_decide_eq_true_2 by auto.
    + destruct (Hcons x l' eq_refl) as (a & ? & ? & Hf & _).
      rewrite bool_decide_eq_false_2; [done|]. by rewrite Hf.
Qed.

(** X10: a thread that is alone with the queue sees a plain sequence.
    Whatever calls it makes, they return what the same calls return on a
    list, and the queue then holds what the list holds; where a call
    cannot return on the list (a blocking [pop] with nothing to take) the
    thread waits for ever.  The only other way out is a failed allocation
    in [push], which leaves the store well formed. *)
Theorem alone_with_the_queue_it_is_a_list σ q l (d : T) cs :
  wf σ → contents σ q = Some l →
  match list_calls l d cs with
  | Some (rs, d', l') =>
      wp (do_calls q d cs)
        (λ x σ', x = (rs, d') ∧ wf σ' ∧ contents σ' q = Some l')
        (λ σ', wf σ') σ
  | None =>
      do_calls q d cs σ = Stuck Blocked ∨
      ∃ σ', do_calls q d cs σ = BadAlloc σ' ∧ wf σ'
  end.
Proof.
  revert σ l d. induction cs as [|c cs IH]; intros σ l d Hwf Hcont; simpl.
  - by apply wp_ret.
  - pose proof (do_call_spec σ q l d c Hwf Hcont) as Hc.
    destruct (list_call l d c) as [[[r d1] l1]|].
    2: { left. by apply bind_run_stuck. }
    unfold wp in Hc.
    destruct (do_call q d c σ) as [x σ1|σ1|e] eqn:Hrun; [| |done].
    + destruct Hc as (-> & Hwf1 & Hcont1).
      specialize (IH σ1 l1 d1 Hwf1 Hcont1). simpl in IH.
      destruct (list_calls l1 d1 cs) as [[[rs d2] l2]|].
      * apply wp_bind. eapply wp_value; [exact Hrun|]. simpl.
        apply wp_bind. eapply wp_mono; [exact IH| |done].
        intros y σ2 (-> & ? & ?). by apply wp_ret.
      * erewrite bind_ok by exact Hrun. simpl.
        destruct IH as [Hs|(σ2 & Hb & Hwf2)].
        -- left. by apply bind_run_stuck.
        -- right. exists σ2. split; [|done]. by apply bind_run_throw.
    + destruct (list_calls l1 d1 cs) as [[[rs d2] l2]|].
      * unfold wp. by rewrite (bind_run_throw _ _ _ _ Hrun).
      * right. exists σ1. split; [|done]. by apply bind_run_throw.
Qed.

End Alone.

(** ** Copies, node by node *)

Section Copies.
Context {T : Type} `{Allocator}.
Implicit Types (h : gmap addr (Node T)) (σ : store T) (o : ConcurrentQueue).
Implicit Types (xs ys zs : list (addr * T)) (l : list T).

Lemma grown_refl σ (ys : list addr) : grown σ σ ys [].
Proof. split; [done|]. by intros b ?%elem_of_nil. Qed.

Lemma grown_pushed σ q o xs a (v : T) :
  shape (nodes σ) o xs → alloc (dom (nodes σ)) = Some a →
  grown σ (pushed σ q o a v) xs.*1 [a].
Proof.
  intros Hsh Ha. split.
  - intros b Hb1 Hb2. apply (pushed_frame σ q o xs); [done| |done].
    intros ->. apply Hb2. left.
  - intros b ->%list_elem_of_singleton. apply alloc_fresh in Ha.
    by apply not_elem_of_dom in Ha.
Qed.

(** What [push_unsafe] does, in full. *)
Lemma wp_push_unsafe_grown q ys (v : T) σ :
  coherent σ → cells_of σ q = Some ys →
  wp (push_unsafe q v)
    (λ _ σ', ∃ a, coherent σ' ∧ cells_of σ' q = Some (ys ++ [(a, v)]) ∧
       changes_only [q] σ σ' ∧ locks σ' = locks σ ∧ grown σ σ' ys.*1 [a])
    (λ σ', σ' = σ) σ.
Proof.
  intros Hc Hcells. destruct (cells_of_shape _ _ _ Hc Hcells) as (o & Ho & Hsh).
  eapply wp_mono; [by apply (wp_push_unsafe_full q o ys v σ)| |].
  - intros _ σ' (a & Ha & -> & Hc' & Hcells' & Hch & Hl). exists a.
    split_and!; try done. by apply grown_pushed.
  - by intros σ' [-> _].
Qed.

(** What [push] does, in full. *)
Lemma wp_push_grown q ys (v : T) σ :
  coherent σ → cells_of σ q = Some ys → locks σ !! q = Some false →
  wp (push q v)
    (λ _ σ', ∃ a, coherent σ' ∧ cells_of σ' q = Some (ys ++ [(a, v)]) ∧
       changes_only [q] σ σ' ∧ locks σ' = locks σ ∧ grown σ σ' ys.*1 [a])
    (λ σ', σ' = σ) σ.
Proof.
  intros Hc Hcells Hlk.
  destruct (cells_of_shape _ _ _ Hc Hcells) as (o & Ho & Hsh).
  assert (mutex_ o = false) as Hm.
  { rewrite locks_lookup, Ho in Hlk. by injection Hlk. }
  pose proof (wp_push q ys v σ Hc Hcells Hlk) as Hwp.
  destruct (alloc (dom (nodes σ))) as [a|] eqn:Ha.
  - pose proof (push_run σ q o a v Hc Ho Hm Ha) as Hrun.
    eapply wp_value; [exact Hrun|].
    apply (wp_ok _ _ _ _ _ _ Hwp) in Hrun as (a' & Hc' & Hcells' & Hch & Hl).
    assert (a' = a) as ->.
    { destruct (cells_of_shape _ _ _ Hc' Hcells') as (o' & Ho' & _ & Hr & _).
      unfold pushed in Ho'. simpl in Ho'. rewrite lookup_insert_eq in Ho'.
      injection Ho' as <-. simpl in Hr.
      rewrite fmap_app in Hr. simpl in Hr. rewrite last_snoc in Hr.
      by injection Hr. }
    exists a. split_and!; try done. by apply grown_pushed.
  - unfold wp. by rewrite (push_throw_run q o v σ Ho Hm Ha).
Qed.

Lemma grown_step σ σ1 σ2 (ys zs : list addr) a :
  grown σ σ1 ys [a] → grown σ1 σ2 (ys ++ [a]) zs →
  (∀ b, b ∈ zs → b ∉ ys ++ [a]) →
  grown σ σ2 ys (a :: zs).
Proof.
  intros [Hf1 Hn1] [Hf2 Hn2] Hnd. split.
  - intros b Hb1 Hb2. apply not_elem_of_cons in Hb2 as [Hba Hb2].
    rewrite Hf2; [|by apply not_elem_of_app; split;
                       [|intros ?%list_elem_of_singleton]|done].
    apply Hf1; [done|]. by intros ?%list_elem_of_singleton.
  - intros b [->|Hb]%elem_of_cons.
    + apply Hn1. left.
    + pose proof (Hnd b Hb) as Hnot.
      apply not_elem_of_app in Hnot as [Hnot1 Hnot2].
      rewrite <- Hf1; [by apply Hn2|done|done].
Qed.

(** The copying loop, with what it does to the heap and with how far it
    has come when an insertion throws. *)
Lemma wp_copy_loop_grown (ins : T → M unit) this other (I : store T → Prop) :
  this ≠ other →
  (∀ σ ys v, coherent σ → I σ → cells_of σ this = Some ys →
     wp (ins v)
       (λ _ σ', ∃ a, coherent σ' ∧ I σ' ∧
                     cells_of σ' this = Some (ys ++ [(a, v)]) ∧
                     changes_only [this] σ σ' ∧ grown σ σ' ys.*1 [a])
       (λ σ', σ' = σ) σ) →
  ∀ todo done_ ys σ fuel current,
    coherent σ → I σ → cells_of σ this = Some ys →
    cells_of σ other = Some (done_ ++ todo) →
    lseg (nodes σ) current todo None → (length todo ≤ fuel)%nat →
    wp (copy_loop ins fuel current)
      (λ _ σ', ∃ zs, coherent σ' ∧ I σ' ∧ cells_of σ' this = Some (ys ++ zs) ∧
                     zs.*2 = todo.*2 ∧ changes_only [this] σ σ' ∧
                     grown σ σ' ys.*1 zs.*1)
      (λ σ', ∃ zs, coherent σ' ∧ I σ' ∧ cells_of σ' this = Some (ys ++ zs) ∧
                   (∃ v rest, zs.*2 ++ v :: rest = todo.*2) ∧
                   changes_only [this] σ σ' ∧ grown σ σ' ys.*1 zs.*1) σ.
Proof.
  intros Hne Hins todo.
  induction todo as [|[a v] todo IH];
    intros done_ ys σ fuel current Hc HI Hthis Hother Hl Hfuel.
  - simpl in Hl. subst current. rewrite copy_loop_unfold. apply wp_ret.
    exists []. rewrite app_nil_r.
    split_and!; first [done|apply changes_only_refl|apply grown_refl].
  - simpl in Hl. destruct Hl as (-> & nx & Ha & Hl). simpl in Ha.
    destruct fuel as [|fuel]; [simpl in Hfuel; lia|].
    rewrite copy_loop_unfold. wp_steps.
    eapply wp_mono; [by apply (Hins σ ys v)| |].
    + intros _ σ1 (b & Hc1 & HI1 & Hthis1 & Hch1 & Hg1). simpl.
      assert (other ∉ [this]) as Ho1.
      { apply not_elem_of_cons. split; [done|apply not_elem_of_nil]. }
      pose proof (Hch1 other Ho1) as Hother1. rewrite Hother in Hother1.
      destruct (cells_of_shape _ _ _ Hc1 Hother1) as (o1 & _ & Hl1 & _).
      apply lseg_app in Hl1 as (m & _ & Hl1). simpl in Hl1.
      destruct Hl1 as (_ & nx1 & Ha1 & Hl1).
      wp_steps.
      eapply wp_mono.
      * apply (IH (done_ ++ [(a, v)]) (ys ++ [(b, v)]) σ1 fuel nx1); try done.
        -- by rewrite <- app_assoc.
        -- simpl in Hfuel. lia.
      * intros _ σ2 (zs & Hc2 & HI2 & Hthis2 & Hzs & Hch2 & Hg2). simpl.
        exists ((b, v) :: zs). split_and!; try done.
        -- by rewrite <- app_assoc in Hthis2.
        -- by rewrite !fmap_cons, Hzs.
        -- by eapply changes_only_trans.
        -- rewrite fmap_cons. simpl. eapply grown_step; [done| |].
           ++ by rewrite fmap_app in Hg2.
           ++ intros c Hcz Hcy.
              destruct (cells_of_shape _ _ _ Hc2 Hthis2) as (o2 & _ & Hl2 & _).
              apply lseg_NoDup in Hl2. rewrite fmap_app in Hl2.
              apply NoDup_app in Hl2 as (_ & Hdis & _).
              apply (Hdis c); [|done]. by rewrite fmap_app.
      * intros σ2 (zs & Hc2 & HI2 & Hthis2 & (w & rest & Hzs) & Hch2 & Hg2).
        simpl. exists ((b, v) :: zs). split_and!; try done.
        -- by rewrite <- app_assoc in Hthis2.
        -- exists w, rest. simpl. by f_equal.
        -- by eapply changes_only_trans.
        -- rewrite fmap_cons. simpl. eapply grown_step; [done| |].
           ++ by rewrite fmap_app in Hg2.
           ++ intros c Hcz Hcy.
              destruct (cells_of_shape _ _ _ Hc2 Hthis2) as (o2 & _ & Hl2 & _).
              apply lseg_NoDup in Hl2. rewrite fmap_app in Hl2.
              apply NoDup_app in Hl2 as (_ & Hdis & _).
              apply (Hdis c); [|done]. by rewrite fmap_app.
    + intros σ1 ->. simpl. exists []. rewrite app_nil_r.
      split_and!;
        first [done|by exists v, todo.*2|apply changes_only_refl
              |apply grown_refl].
Qed.

Lemma coherent_with_mutex b q o σ :
  coherent σ → queues σ !! q = Some o → coherent (with_mutex b q o σ).
Proof. intros Hc Ho. by destruct (mutex_update σ q o b Hc Ho). Qed.

Lemma locks_with_mutex b q o σ :
  coherent σ → queues σ !! q = Some o →
  locks (with_mutex b q o σ) = <[q := b]> (locks σ).
Proof. intros Hc Ho. by destruct (mutex_update σ q o b Hc Ho) as (_ & _ & ?). Qed.

Lemma with_mutex_lookup_ne b q o σ q2 :
  q ≠ q2 → queues (with_mutex b q o σ) !! q2 = queues σ !! q2.
Proof. intros Hne. unfold with_mutex. simpl. by rewrite lookup_insert_ne. Qed.

Lemma copy_assign_heap this other xt xs σ :
  wf σ → this ≠ other →
  cells_of σ this = Some xt → cells_of σ other = Some xs →
  wp (copy_assign this other)
    (λ _ σ', ∃ zs, cells_of σ' this = Some zs ∧ zs.*2 = xs.*2 ∧
                   heap_diff (nodes σ) (nodes σ') xt.*1 zs.*1)
    (λ σ', ∃ zs, cells_of σ' this = Some zs ∧
                 (∃ v rest, zs.*2 ++ v :: rest = xs.*2) ∧
                 heap_diff (nodes σ) (nodes σ') xt.*1 zs.*1) σ.
Proof.
  intros Hwf Hne Hthis Hother. pose proof Hwf as [Hc _]%wf_coherent.
  assert (other ≠ this) as Hne' by (by apply not_eq_sym).
  destruct (cells_of_shape _ _ _ Hc Hthis) as (ot & Ht & St).
  destruct (cells_of_shape _ _ _ Hc Hother) as (oo & Ho & So).
  pose proof (wf_unlocked_at _ _ _ Hwf Ht) as Hmt.
  pose proof (wf_unlocked_at _ _ _ Hwf Ho) as Hmo.
  rewrite copy_assign_unfold, decide_True by done.
  eapply wp_lock_both_exact; [done..|].
  pose proof (coherent_with_mutex true this ot σ Hc Ht) as Hc1.
  assert (queues (with_mutex true this ot σ) !! other = Some oo) as Ho1.
  { by rewrite with_mutex_lookup_ne. }
  pose proof (coherent_with_mutex true other oo _ Hc1 Ho1) as HcL.
  set (σL := with_mutex true other oo (with_mutex true this ot σ)) in *.
  assert (queues σL !! this =
          Some (mkQueue (front_ ot) (rear_ ot) (size_ ot) true)) as HtL.
  { unfold σL. rewrite with_mutex_lookup_ne by done. apply with_mutex_lookup. }
  assert (shape (nodes σL) (mkQueue (front_ ot) (rear_ ot) (size_ ot) true) xt)
    as StL by done.
  eapply wp_clear; [exact HtL|by destruct StL|].
  destruct (cleared_post σL this _ xt HcL HtL StL) as (Hc2 & Hcells2 & Hch2 & Hl2).
  simpl in Hc2, Hcells2, Hch2, Hl2 |- *.
  set (σ2 := mkStore _ _) in *.
  assert (other ∉ [this]) as Hot.
  { apply not_elem_of_cons. split; [done|apply not_elem_of_nil]. }
  assert (cells_of σ2 other = Some xs) as Hother2.
  { rewrite (Hch2 other Hot). unfold σL.
    rewrite with_mutex_cells_of by done. by rewrite with_mutex_cells_of. }
  destruct (cells_of_shape _ _ _ Hc2 Hother2) as (oo2 & Ho2 & So2).
  assert (locks σ2 !! this = Some true ∧ locks σ2 !! other = Some true)
    as [Hlt Hlo].
  { rewrite Hl2. unfold σL. rewrite !locks_with_mutex by done.
    by rewrite lookup_insert_ne, !lookup_insert_eq. }
  wp_steps.
  eapply wp_mono.
  - apply (wp_copy_loop_grown (push_unsafe this) this other
             (λ s, locks s = locks σ2) Hne) with (done_ := []) (ys := []).
    + intros σa ys v Hca HIa Hcellsa.
      eapply wp_mono; [by apply (wp_push_unsafe_grown this ys v σa)| |done].
      intros _ σb (a & ? & ? & ? & Hlb & ?). exists a.
      split_and!; [done|congruence|done|done|done].
    + done.
    + done.
    + done.
    + done.
    + by destruct So2.
    + destruct So2 as [Hl _]. by eapply lseg_length_le_size.
  - intros _ σ3 (zs & Hc3 & Hl3 & Hcells3 & Hzs & Hch3 & Hg3). simpl in *.
    rewrite <- Hl3 in Hlt, Hlo.
    apply locks_Some in Hlt as (ot3 & Ht3 & Hmt3).
    apply locks_Some in Hlo as (oo3 & Ho3 & Hmo3).
    exists ot3, oo3. split_and!; try done. exists zs. split_and!; [|done|].
    + rewrite with_mutex_cells_of; [by rewrite with_mutex_cells_of|].
      by rewrite with_mutex_lookup_ne.
    + intros a Ha. simpl. destruct Hg3 as [Hg3 _].
      rewrite Hg3; [|by intros ?%elem_of_nil|done].
      unfold σ2. simpl. apply lookup_foldr_delete.
  - intros σ3 (zs & Hc3 & Hl3 & Hcells3 & Hzs & Hch3 & Hg3). simpl in *.
    rewrite <- Hl3 in Hlt, Hlo.
    apply locks_Some in Hlt as (ot3 & Ht3 & Hmt3).
    apply locks_Some in Hlo as (oo3 & Ho3 & Hmo3).
    exists ot3, oo3. split_and!; try done. exists zs. split_and!; [|done|].
    + rewrite with_mutex_cells_of; [by rewrite with_mutex_cells_of|].
      by rewrite with_mutex_lookup_ne.
    + intros a Ha. simpl. destruct Hg3 as [Hg3 _].
      rewrite Hg3; [|by intros ?%elem_of_nil|done].
      unfold σ2. simpl. apply lookup_foldr_delete.
Qed.

Lemma copy_ctor_heap this other xs σ :
  wf σ → queues σ !! this = None → cells_of σ other = Some xs →
  wp (copy_ctor this other)
    (λ _ σ', ∃ zs, cells_of σ' this = Some zs ∧
                   heap_diff (nodes σ) (nodes σ') [] zs.*1 ∧
                   ∀ a, a ∈ zs.*1 → nodes σ !! a = None)
    (λ σ', σ' = σ) σ.
Proof.
  intros Hwf Ht Hother. pose proof Hwf as [Hc _]%wf_coherent.
  destruct (cells_of_shape _ _ _ Hc Hother) as (oo & Ho & So).
  assert (this ≠ other) as Hne by congruence.
  assert (other ≠ this) as Hne' by (by apply not_eq_sym).
  pose proof (wf_unlocked_at _ _ _ Hwf Ho) as Hmo.
  unfold copy_ctor. apply wp_bind. apply wp_construct; [done|].
  destruct (constructed_post σ this Hc Ht) as (Hcc & Hcellsc & Hchc & Hlc).
  simpl in Hcc, Hcellsc, Hchc, Hlc.
  set (σc := mkStore _ _) in *.
  assert (queues σc !! other = Some oo) as Hoc.
  { unfold σc. simpl. by rewrite lookup_insert_ne. }
  apply wp_on_throw. eapply wp_lock_guard_exact; [done|done|].
  pose proof (coherent_with_mutex true other oo σc Hcc Hoc) as HcL.
  pose proof (locks_with_mutex true other oo σc Hcc Hoc) as HlL.
  set (σL := with_mutex true other oo σc) in *.
  assert (cells_of σL this = Some []) as HthisL.
  { unfold σL. by rewrite with_mutex_cells_of. }
  assert (other ∉ [this]) as Hot.
  { apply not_elem_of_cons. split; [done|apply not_elem_of_nil]. }
  assert (cells_of σL other = Some xs) as HotherL.
  { unfold σL. rewrite with_mutex_cells_of by done. by rewrite Hchc. }
  destruct (cells_of_shape _ _ _ HcL HotherL) as (ooL & HoL & SoL).
  assert (locks σL !! other = Some true) as Hlo.
  { rewrite HlL. apply lookup_insert_eq. }
  assert (locks σL !! this = Some false) as Hlt.
  { rewrite HlL, Hlc. by rewrite lookup_insert_ne, lookup_insert_eq. }
  wp_steps.
  eapply wp_mono.
  - apply (wp_copy_loop_grown (push this) this other
             (λ s, locks s = locks σL) Hne) with (done_ := []) (ys := []).
    + intros σa ys v Hca HIa Hcellsa.
      eapply wp_mono;
        [apply (wp_push_grown this ys v σa); [done|done|by rewrite HIa]| |done].
      intros _ σb (a & ? & ? & ? & Hlb & ?). exists a.
      split_and!; [done|congruence|done|done|done].
    + done.
    + done.
    + done.
    + done.
    + by destruct SoL.
    + destruct SoL as [Hl _]. by eapply lseg_length_le_size.
  - intros _ σ3 (zs & Hc3 & Hl3 & Hcells3 & Hzs & Hch3 & Hg3). simpl in *.
    rewrite <- Hl3 in Hlo. apply locks_Some in Hlo as (oo3 & Ho3 & Hmo3).
    exists oo3. split_and!; try done. exists zs. split_and!.
    + by rewrite with_mutex_cells_of.
    + intros a Ha. simpl. destruct Hg3 as [Hg3 _].
      rewrite Hg3; [|by intros ?%elem_of_nil|done].
      try rewrite decide_False by (by intros ?%elem_of_nil). done.
    + by destruct Hg3 as [_ Hfresh].
  - intros σ3 (zs & Hc3 & Hl3 & Hcells3 & Hzs & Hch3 & Hg3). simpl in *.
    pose proof Hlo as Hlo3. rewrite <- Hl3 in Hlo3.
    apply locks_Some in Hlo3 as (oo3 & Ho3 & Hmo3).
    exists oo3. split_and!; try done.
    pose proof (coherent_with_mutex false other oo3 σ3 Hc3 Ho3) as Hc4.
    pose proof (locks_with_mutex false other oo3 σ3 Hc3 Ho3) as Hl4.
    set (σ4 := with_mutex false other oo3 σ3) in *.
    assert (cells_of σ4 this = Some zs) as Hcells4.
    { unfold σ4. by rewrite with_mutex_cells_of. }
    destruct (cells_of_shape _ _ _ Hc4 Hcells4) as (ot4 & Ht4 & St4).
    eapply wp_value;
      [apply (destroy_run this ot4 zs); [done|by destruct St4]|].
    destruct σ as [h Q]. unfold destroyed. f_equal.
    + apply map_eq. intros a. rewrite lookup_foldr_delete.
      destruct Hg3 as [Hg3 Hfresh]. simpl in Hg3, Hfresh.
      destruct (decide (a ∈ zs.*1)) as [Hin|Hin].
      * symmetry. by apply Hfresh.
      * apply Hg3; [by intros ?%elem_of_nil|done].
    + apply map_eq. intros q. destruct (decide (q = this)) as [->|Hq].
      * rewrite lookup_delete_eq. by simpl in Ht.
      * rewrite lookup_delete_ne by done.
        assert (q ∉ [this]) as Hq'.
        { apply not_elem_of_cons. split; [done|apply not_elem_of_nil]. }
        apply (object_determined (mkStore h Q) σ4 q Hc Hc4).
        -- unfold σ4. rewrite with_mutex_cells_of by done.
           rewrite (Hch3 q Hq'). unfold σL.
           rewrite with_mutex_cells_of by done. by apply Hchc.
        -- rewrite Hl4, Hl3, HlL, Hlc.
           destruct (decide (q = other)) as [->|Hq2].
           ++ rewrite lookup_insert_eq. symmetry.
              apply wf_locks; [done|eauto].
           ++ by rewrite !lookup_insert_ne.
Qed.

Lemma no_leak_heap_diff σ σ' this (gone : list addr) zs :
  no_leak σ → changes_only [this] σ σ' → cells_of σ' this = Some zs →
  (∀ xt a, cells_of σ this = Some xt → a ∈ xt.*1 → a ∈ gone) →
  heap_diff (nodes σ) (nodes σ') gone zs.*1 →
  no_leak σ'.
Proof.
  intros Hnl Hch Hthis Hgone Hd. apply (no_leak_step [this] σ); [done|done|].
  intros a Ha. destruct (decide (a ∈ zs.*1)) as [Hin|Hin]; [left; eauto|].
  right. rewrite (Hd a Hin) in Ha.
  destruct (decide (a ∈ gone)) as [Hg|Hg]; [by destruct Ha|].
  split; [done|]. intros q xs ->%list_elem_of_singleton Hxs Hax.
  apply Hg. by eapply Hgone.
Qed.

(** X11: copy construction is all or nothing.  When it returns, the new
    queue holds the elements of the source and is made of new nodes
    only: every node that was live is what it was.  When an allocation
    fails, the exception leaves the store exactly as it was before the
    call: the nodes made so far are freed, the new object is gone, the
    mutex of the source is released.  Nothing else can happen. *)
Theorem copy_construction_is_all_or_nothing σ this other l :
  wf σ → queues σ !! this = None → contents σ other = Some l →
  wp (copy_ctor this other)
    (λ _ σ', contents σ' this = Some l ∧
             ∀ a nd, nodes σ !! a = Some nd → nodes σ' !! a = Some nd)
    (λ σ', σ' = σ) σ.
Proof.
  intros Hwf Ht Hcont. pose proof Hwf as [Hc _]%wf_coherent.
  apply contents_Some in Hcont as (xs & Hother & <-).
  pose proof (wp_copy_ctor this other xs σ Hc Ht
                (wf_locks _ _ Hwf (cells_of_is_Some _ _ _ Hother)) Hother)
    as Hwp1.
  pose proof (copy_ctor_heap this other xs σ Hwf Ht Hother) as Hwp2.
  eapply wp_mono; [apply (wp_both _ _ _ _ _ _ Hwp1 Hwp2)| |].
  - intros _ σ' [(zs & _ & Hzs & Heq & _) (zs' & Hzs' & Hd & Hfresh)].
    rewrite Hzs in Hzs'. injection Hzs' as <-. split.
    + apply contents_Some. eauto.
    + intros a nd Ha. rewrite Hd; [done|].
      intros Hin. apply Hfresh in Hin. congruence.
  - by intros σ' [_ ->].
Qed.

(** X12: copy assignment gives the basic guarantee only.  When an
    allocation fails, the exception leaves a well-formed store in which
    the source is what it was, but the destination has lost what it held
    and holds the elements of the source copied so far: a proper prefix
    of them. *)
Theorem copy_assignment_keeps_a_prefix σ this other lt l σ' :
  wf σ → this ≠ other →
  contents σ this = Some lt → contents σ other = Some l →
  copy_assign this other σ = BadAlloc σ' →
  wf σ' ∧ undisturbed other σ σ' ∧
  ∃ l1 v l2, l = l1 ++ v :: l2 ∧ contents σ' this = Some l1.
Proof.
  intros Hwf Hne Hthis Hother Hrun. pose proof Hwf as [Hc _]%wf_coherent.
  apply contents_Some in Hthis as (xt & Hthis & <-).
  apply contents_Some in Hother as (xs & Hother & <-).
  pose proof (wp_copy_assign this other xs σ Hc Hne
                (wf_locks _ _ Hwf (cells_of_is_Some _ _ _ Hthis))
                (wf_locks _ _ Hwf (cells_of_is_Some _ _ _ Hother)) Hother)
    as Hwp1.
  pose proof (copy_assign_heap this other xt xs σ Hwf Hne Hthis Hother)
    as Hwp2.
  apply (wp_throw _ _ _ _ _ Hwp1) in Hrun as Hr1.
  apply (wp_throw _ _ _ _ _ Hwp2) in Hrun as Hr2.
  destruct Hr1 as (Hc' & Hch & Hl).
  destruct Hr2 as (zs & Hzs & (v & rest & Hpre) & _).
  assert (wf σ') as Hwf' by (by eapply wf_of_coherent).
  split_and!; [done| |].
  - apply undisturbed_of_cells; [done|done|]. apply Hch.
    apply not_elem_of_cons. split; [by apply not_eq_sym|apply not_elem_of_nil].
  - exists zs.*2, v, rest. split; [done|]. apply contents_Some. eauto.
Qed.

End Copies.

(** ** A wait seen from outside *)

Section Waits.
Context {T : Type} `{Allocator}.
Implicit Types (h : gmap addr (Node T)) (σ : store T) (o : ConcurrentQueue).
Implicit Types (xs ys zs : list (addr * T)) (l : list T).

(** The timed [pop] is [try_pop] in a store that the other threads have
    made of the initial one. *)
Lemma pop_for_as_try_pop (J : store T → Prop) q (d : T) env σ :
  wf σ → J σ → is_Some (queues σ !! q) →
  Forall (λ w, keeps J q (during w)) env →
  ∃ σ1, wf σ1 ∧ J σ1 ∧ is_Some (queues σ1 !! q) ∧
        pop_for q d env σ = try_pop q d σ1.
Proof.
  revert σ. induction env as [|[ev b] env IH]; intros σ Hwf HJ Hq Henv.
  - destruct Hq as [o Ho]. exists σ. split_and!; [done|done|eauto|].
    apply (pop_for_nil_run q o); [done|by eapply wf_unlocked_at].
  - apply Forall_cons in Henv as [Hev Henv].
    destruct (wf_contents _ _ Hwf Hq) as [[|x l] Hl].
    + destruct (wf_empty _ _ Hwf Hl) as (o & Ho & Hm & Hf & _).
      destruct (Hev σ Hwf HJ Hq) as (Hwf1 & HJ1 & [o1 Ho1]). simpl in *.
      pose proof (wf_unlocked_at _ _ _ Hwf1 Ho1) as Hm1.
      destruct b.
      * exists (ev σ). split_and!; [done|done|eauto|].
        by apply (pop_for_deadline_run q o o1).
      * rewrite (pop_for_wakeup_run q o o1 d ev env σ) by done.
        apply IH; eauto.
    + destruct (wf_front _ _ _ _ Hwf Hl)
        as (o & a & nx & xs & Ho & Hm & Hf & Ha & _).
      exists σ. split_and!; [done|done|done|].
      by rewrite (pop_for_run q o a x nx), (try_pop_run q o a x nx).
Qed.

(** The blocking [pop] waits for ever, or it is the removal of the front
    element in a store that the other threads have made of the initial
    one. *)
Lemma pop_as_removal (J : store T → Prop) q (d : T) env σ :
  wf σ → J σ → is_Some (queues σ !! q) →
  Forall (keeps J q) env →
  pop q d env σ = Stuck Blocked ∨
  ∃ σ1 o a x nx xs,
    wf σ1 ∧ J σ1 ∧ queues σ1 !! q = Some o ∧
    shape (nodes σ1) o ((a, x) :: xs) ∧
    nodes σ1 !! a = Some (mkNode x nx) ∧
    pop q d env σ = Ok x (removed σ1 q o a nx).
Proof.
  revert σ. induction env as [|ev env IH]; intros σ Hwf HJ Hq Henv;
    destruct (wf_contents _ _ Hwf Hq) as [[|x l] Hl].
  - destruct (wf_empty _ _ Hwf Hl) as (o & Ho & Hm & Hf & _).
    left. by apply (pop_nil_empty_run q o).
  - destruct (wf_front _ _ _ _ Hwf Hl)
      as (o & a & nx & xs & Ho & Hm & Hf & Ha & Hsh & _).
    right. exists σ, o, a, x, nx, xs. split_and!; try done.
    by apply pop_run.
  - apply Forall_cons in Henv as [Hev Henv].
    destruct (wf_empty _ _ Hwf Hl) as (o & Ho & Hm & Hf & _).
    destruct (Hev σ Hwf HJ Hq) as (Hwf1 & HJ1 & [o1 Ho1]).
    pose proof (wf_unlocked_at _ _ _ Hwf1 Ho1) as Hm1.
    pose proof (pop_wakeup_run q o o1 d ev env σ Ho Hm Hf Ho1 Hm1) as Heq.
    destruct (IH (ev σ) Hwf1 HJ1 (ex_intro _ o1 Ho1) Henv)
      as [Hs|(σ1 & o2 & a & x & nx & xs & ? & ? & ? & ? & ? & Hrun)].
    + left. exact (eq_trans Heq Hs).
    + right. exists σ1, o2, a, x, nx, xs. split_and!; try done.
      exact (eq_trans Heq Hrun).
  - destruct (wf_front _ _ _ _ Hwf Hl)
      as (o & a & nx & xs & Ho & Hm & Hf & Ha & Hsh & _).
    right. exists σ, o, a, x, nx, xs. split_and!; try done.
    by apply pop_run.
Qed.

End Waits.

(** ** No member function leaks a node *)

Section NoLeak.
Context {T : Type} `{Allocator}.
Implicit Types (h : gmap addr (Node T)) (σ : store T) (o : ConcurrentQueue).
Implicit Types (xs ys zs : list (addr * T)) (l : list T).

Lemma ends_in_ok {A} (m : M A) σ a σ1 σ' :
  m σ = Ok a σ1 → ends_in m σ σ' → σ' = σ1.
Proof. intros Hrun [[b Hb]|Hb]; congruence. Qed.

Lemma ends_in_wp {A} (m : M A) (Q : A → store T → Prop) E σ σ' :
  wp m Q E σ → ends_in m σ σ' → (∃ a, Q a σ') ∨ E σ'.
Proof.
  intros Hwp [[a Ha]|Ha].
  - left. exists a. by eapply wp_ok.
  - right. by eapply wp_throw.
Qed.

Lemma no_leak_grown σ σ' q ys zs :
  no_leak σ → cells_of σ q = Some ys → cells_of σ' q = Some (ys ++ zs) →
  changes_only [q] σ σ' → grown σ σ' ys.*1 zs.*1 → no_leak σ'.
Proof.
  intros Hnl Hys Hzs Hch [Hg _]. apply (no_leak_step [q] σ); [done|done|].
  intros b Hb.
  destruct (decide (b ∈ (ys ++ zs).*1)) as [Hin|Hin]; [left; eauto|].
  right. rewrite fmap_app in Hin. apply not_elem_of_app in Hin as [Hin1 Hin2].
  rewrite Hg in Hb by done. split; [done|].
  intros q2 xs2 ->%list_elem_of_singleton Hxs2.
  rewrite Hys in Hxs2. by injection Hxs2 as <-.
Qed.

Lemma no_leak_push σ q (v : T) σ' :
  wf σ → no_leak σ → is_Some (queues σ !! q) →
  ends_in (push q v) σ σ' → no_leak σ'.
Proof.
  intros Hwf Hnl [o Ho] Hend. pose proof Hwf as [Hc _]%wf_coherent.
  destruct (coherent_cells_of _ _ _ Hc Ho) as [ys Hys].
  pose proof (wp_push_grown q ys v σ Hc Hys (wf_locks _ _ Hwf (ex_intro _ o Ho)))
    as Hwp.
  destruct (ends_in_wp _ _ _ _ _ Hwp Hend)
    as [[_ (a & _ & Hcells & Hch & _ & Hg)]| ->]; [|done].
  by apply (no_leak_grown σ σ' q ys [(a, v)]).
Qed.

Lemma no_leak_try_pop σ q (d : T) σ' :
  wf σ → no_leak σ → is_Some (queues σ !! q) →
  ends_in (try_pop q d) σ σ' → no_leak σ'.
Proof.
  intros Hwf Hnl Hq Hend. destruct (wf_contents _ _ Hwf Hq) as [[|x l] Hl].
  - destruct (wf_empty _ _ Hwf Hl) as (o & Ho & Hm & Hf & _).
    by rewrite (ends_in_ok _ _ _ _ _ (try_pop_empty_run q o d σ Ho Hm Hf) Hend).
  - destruct (wf_front _ _ _ _ Hwf Hl)
      as (o & a & nx & xs & Ho & Hm & Hf & Ha & Hsh & _).
    rewrite (ends_in_ok _ _ _ _ _ (try_pop_run q o a x nx d σ Ho Hm Hf Ha) Hend).
    by eapply no_leak_removed.
Qed.

Lemma no_leak_moved σ this other xt oo xo :
  no_leak σ → this ≠ other →
  (∀ xs, cells_of σ this = Some xs → xs = xt) →
  cells_of σ other = Some xo →
  cells_of (moved σ this other xt oo) this = Some xo →
  changes_only [this; other] σ (moved σ this other xt oo) →
  no_leak (moved σ this other xt oo).
Proof.
  intros Hnl Hne Hthis Hother Hthis' Hch.
  apply (no_leak_step [this; other] σ); [done|done|].
  intros a Ha. destruct (decide (a ∈ xo.*1)) as [Hin|Hin]; [left; eauto|].
  right. unfold moved in Ha. simpl in Ha. rewrite lookup_foldr_delete in Ha.
  destruct (decide (a ∈ xt.*1)) as [Hg|Hg]; [by destruct Ha|].
  split; [done|]. intros q xs Hq Hxs.
  apply elem_of_cons in Hq as [->|Hq].
  - by rewrite (Hthis _ Hxs).
  - apply list_elem_of_singleton in Hq as ->.
    rewrite Hother in Hxs. by injection Hxs as <-.
Qed.

(** X13: no member function leaks a node.  When every live node belongs
    to a queue before a call, the same holds when the call has come back,
    by return or by exception: for [push], [try_pop], the blocking and the
    timed [pop] (when the other threads leak nothing while the thread
    waits), the copy and move constructors, the copy and move assignments
    and the destructor. *)
Theorem no_member_function_leaks σ :
  wf σ → no_leak σ →
  (∀ q v σ', is_Some (queues σ !! q) →
     ends_in (push q v) σ σ' → no_leak σ') ∧
  (∀ q d σ', is_Some (queues σ !! q) →
     ends_in (try_pop q d) σ σ' → no_leak σ') ∧
  (∀ q d env σ', is_Some (queues σ !! q) → Forall (keeps no_leak q) env →
     ends_in (pop q d env) σ σ' → no_leak σ') ∧
  (∀ q d env σ', is_Some (queues σ !! q) →
     Forall (λ w, keeps no_leak q (during w)) env →
     ends_in (pop_for q d env) σ σ' → no_leak σ') ∧
  (∀ this other σ',
     queues σ !! this = None → is_Some (queues σ !! other) →
     ends_in (copy_ctor this other) σ σ' → no_leak σ') ∧
  (∀ this other σ',
     queues σ !! this = None → is_Some (queues σ !! other) →
     ends_in (move_ctor this other) σ σ' → no_leak σ') ∧
  (∀ this other σ',
     is_Some (queues σ !! this) → is_Some (queues σ !! other) →
     ends_in (copy_assign this other) σ σ' → no_leak σ') ∧
  (∀ this other σ',
     is_Some (queues σ !! this) → is_Some (queues σ !! other) →
     ends_in (move_assign this other) σ σ' → no_leak σ') ∧
  (∀ q σ', is_Some (queues σ !! q) →
     ends_in (destroy q) σ σ' → no_leak σ').
Proof.
  intros Hwf Hnl. pose proof Hwf as [Hc _]%wf_coherent. split_and!.
  - intros q v σ' Hq Hend. by eapply no_leak_push.
  - intros q d σ' Hq Hend. by eapply no_leak_try_pop.
  - intros q d env σ' Hq Henv Hend.
    destruct (pop_as_removal no_leak q d env σ Hwf Hnl Hq Henv)
      as [Hs|(σ1 & o & a & x & nx & xs & Hwf1 & Hnl1 & Ho & Hsh & Ha & Hrun)].
    + destruct Hend as [[r Hr]|Hr]; congruence.
    + rewrite (ends_in_ok _ _ _ _ _ Hrun Hend). by eapply no_leak_removed.
  - intros q d env σ' Hq Henv Hend.
    destruct (pop_for_as_try_pop no_leak q d env σ Hwf Hnl Hq Henv)
      as (σ1 & Hwf1 & Hnl1 & Hq1 & Hrun).
    apply (no_leak_try_pop σ1 q d σ'); [done|done|done|].
    unfold ends_in in *. by rewrite <- Hrun.
  - intros this other σ' Ht [oo Ho] Hend.
    destruct (coherent_cells_of _ _ _ Hc Ho) as [xs Hxs].
    pose proof (wp_copy_ctor this other xs σ Hc Ht
                  (wf_locks _ _ Hwf (ex_intro _ oo Ho)) Hxs) as Hwp1.
    pose proof (copy_ctor_heap this other xs σ Hwf Ht Hxs) as Hwp2.
    destruct (ends_in_wp _ _ _ _ _ (wp_both _ _ _ _ _ _ Hwp1 Hwp2) Hend)
      as [[_ [(zs & _ & _ & _ & Hch & _) (zs' & Hzs' & Hd & _)]]|[_ ->]];
      [|done].
    apply (no_leak_heap_diff σ σ' this [] zs'); try done.
    intros xt a Hxt. unfold cells_of in Hxt. by rewrite Ht in Hxt.
  - intros this other σ' Ht [oo Ho] Hend.
    assert (this ≠ other) as Hne by congruence.
    rewrite (ends_in_ok _ _ _ _ _
               (move_ctor_run this other oo σ Ht Ho
                  (wf_unlocked_at _ _ _ Hwf Ho)) Hend).
    destruct (wf_lookup _ _ _ Hwf Ho) as [_ [xo So]].
    pose proof (wf_constructed σ this Hwf Ht) as Hwfc.
    set (σc := mkStore (nodes σ)
                 (<[this := mkQueue None None 0 false]> (queues σ))) in *.
    destruct (wf_moved σc this other (mkQueue None None 0 false) oo [] xo)
      as (_ & Hthis' & _ & Hch');
      [done|done
      |by unfold σc; simpl; apply lookup_insert_eq
      |by unfold σc; simpl; rewrite lookup_insert_ne
      |by apply shape_nil
      |done|].
    assert (moved σc this other [] oo = moved σ this other [] oo) as Heq.
    { unfold moved, σc. simpl. by rewrite insert_insert_eq. }
    rewrite Heq in Hthis', Hch'.
    apply (no_leak_moved σ this other [] oo xo); try done.
    + intros xs Hxs. unfold cells_of in Hxs. by rewrite Ht in Hxs.
    + by apply shape_cells_of with oo.
    + intros q Hq. rewrite (Hch' q Hq). unfold cells_of, σc. simpl.
      rewrite lookup_insert_ne; [done|].
      intros <-. apply Hq. left.
  - intros this other σ' [ot Ht] [oo Ho] Hend.
    destruct (decide (this = other)) as [<-|Hne].
    { by rewrite (ends_in_ok _ _ _ _ _ (copy_assign_self_run σ this) Hend). }
    destruct (coherent_cells_of _ _ _ Hc Ht) as [xt Hxt].
    destruct (coherent_cells_of _ _ _ Hc Ho) as [xs Hxs].
    pose proof (wp_copy_assign this other xs σ Hc Hne
                  (wf_locks _ _ Hwf (ex_intro _ ot Ht))
                  (wf_locks _ _ Hwf (ex_intro _ oo Ho)) Hxs) as Hwp1.
    pose proof (copy_assign_heap this other xt xs σ Hwf Hne Hxt Hxs) as Hwp2.
    destruct (ends_in_wp _ _ _ _ _ (wp_both _ _ _ _ _ _ Hwp1 Hwp2) Hend)
      as [[_ [(zs & _ & _ & _ & Hch & _) (zs' & Hzs' & _ & Hd)]]
         |[(_ & Hch & _) (zs' & Hzs' & _ & Hd)]].
    + apply (no_leak_heap_diff σ σ' this xt.*1 zs'); try done.
      intros xt' a Hxt'. rewrite Hxt in Hxt'. by injection Hxt' as <-.
    + apply (no_leak_heap_diff σ σ' this xt.*1 zs'); try done.
      intros xt' a Hxt'. rewrite Hxt in Hxt'. by injection Hxt' as <-.
  - intros this other σ' [ot Ht] [oo Ho] Hend.
    destruct (decide (this = other)) as [<-|Hne].
    { by rewrite (ends_in_ok _ _ _ _ _ (move_assign_self_run σ this) Hend). }
    destruct (wf_lookup _ _ _ Hwf Ht) as [Hmt [xt St]].
    destruct (wf_lookup _ _ _ Hwf Ho) as [Hmo [xo So]].
    rewrite (ends_in_ok _ _ _ _ _
               (move_assign_run this other ot oo xt σ Hne Ht Ho Hmt Hmo
                  (proj1 St)) Hend).
    destruct (wf_moved σ this other ot oo xt xo Hwf Hne Ht Ho St So)
      as (_ & Hthis' & _ & Hch').
    apply (no_leak_moved σ this other xt oo xo); try done.
    + intros xs Hxs. rewrite (shape_cells_of _ _ _ _ Ht St) in Hxs.
      by injection Hxs.
    + by apply shape_cells_of with oo.
  - intros q σ' [o Ho] Hend.
    destruct (wf_lookup _ _ _ Hwf Ho) as [_ [xs Hsh]].
    rewrite (ends_in_ok _ _ _ _ _
               (destroy_run q o xs σ Ho (proj1 Hsh)) Hend).
    destruct (wf_destroyed _ _ _ _ Hwf Ho Hsh) as [_ Hch].
    apply (no_leak_step [q] σ); [done|done|].
    intros a Ha. right. unfold destroyed in Ha. simpl in Ha.
    rewrite lookup_foldr_delete in Ha.
    destruct (decide (a ∈ xs.*1)) as [Hin|Hin]; [by destruct Ha|].
    split; [done|]. intros q2 xs2 ->%list_elem_of_singleton Hxs2.
    rewrite (shape_cells_of _ _ _ _ Ho Hsh) in Hxs2. by injection Hxs2 as <-.
Qed.

End NoLeak.

(** ** No member function goes wrong *)

Section Safety.
Context {T : Type} `{Allocator}.
Implicit Types (h : gmap addr (Node T)) (σ : store T) (o : ConcurrentQueue).
Implicit Types (xs ys zs : list (addr * T)) (l : list T).




End Safety.

(** ** A queue in a scope *)

Section Scope.
Context {T : Type} `{Allocator}.
Implicit Types (h : gmap addr (Node T)) (σ : store T) (o : ConcurrentQueue).
Implicit Types (xs ys zs : list (addr * T)) (l : list T).

Lemma ends_in_bind {A B} (m : M A) (k : A → M B) σ σ' :
  ends_in (m ≫= k) σ σ' →
  (∃ a σ1, m σ = Ok a σ1 ∧ ends_in (k a) σ1 σ') ∨ m σ = BadAlloc σ'.
Proof.
  unfold ends_in, mbind, M_bind, bind.
  destruct (m σ) as [a σ1|σ1|e].
  - intros Hk. left. eauto.
  - intros [[b Hb]|Hb]; [done|]. right. congruence.
  - by intros [[b Hb]|Hb].
Qed.

Lemma ends_in_finally {A} (m : M A) c σ σ' :
  ends_in (finally m c) σ σ' → ∃ σ1, ends_in m σ σ1 ∧ ends_in c σ1 σ'.
Proof.
  unfold ends_in, finally, bind, ret.
  destruct (m σ) as [a σ1|σ1|e].
  - intros Hc. exists σ1. split; [eauto|].
    destruct (c σ1) as [[] σ2|σ2|e].
    + destruct Hc as [[b Hb]|Hb]; [|done]. injection Hb as _ <-. eauto.
    + destruct Hc as [[b Hb]|Hb]; [done|]. injection Hb as <-. eauto.
    + by destruct Hc as [[b Hb]|Hb].
  - intros Hc. exists σ1. split; [eauto|].
    destruct (c σ1) as [[] σ2|σ2|e].
    + destruct Hc as [[b Hb]|Hb]; [done|]. injection Hb as <-. eauto.
    + destruct Hc as [[b Hb]|Hb]; [done|]. injection Hb as <-. eauto.
    + by destruct Hc as [[b Hb]|Hb].
  - by intros [[b Hb]|Hb].
Qed.

Lemma ends_in_ret {A} (a : A) σ σ' : ends_in (mret a) σ σ' → σ' = σ.
Proof. intros [[b Hb]|Hb]; [|done]. by injection Hb. Qed.

Lemma extends_construct σ q :
  wf σ → queues σ !! q = None →
  extends σ
    (mkStore (nodes σ) (<[q := mkQueue None None 0 false]> (queues σ))) q.
Proof.
  intros Hwf Hq. split_and!.
  - by apply wf_constructed.
  - done.
  - intros q2 Hq2. simpl. by rewrite lookup_insert_ne.
  - exists []. split_and!.
    + unfold cells_of. simpl. by rewrite lookup_insert_eq.
    + done.
    + by intros a ?%elem_of_nil.
Qed.

Lemma extends_push σ σ1 σ2 q (v : T) :
  extends σ σ1 q → ends_in (push q v) σ1 σ2 → extends σ σ2 q.
Proof.
  intros (Hwf1 & Hq & Hrest & zs & Hzs & Hsame & Hfresh) Hend.
  pose proof Hwf1 as [Hc1 _]%wf_coherent.
  pose proof (wp_push_grown q zs v σ1 Hc1 Hzs
                (wf_locks _ _ Hwf1 (cells_of_is_Some _ _ _ Hzs))) as Hwp.
  destruct (ends_in_wp _ _ _ _ _ Hwp Hend)
    as [[_ (a & Hc2 & Hcells2 & Hch & Hl & Hg1 & Hg2)]| ->].
  2: { split_and!; try done. by exists zs. }
  assert (wf σ2) as Hwf2 by (by eapply wf_of_coherent).
  assert (a ∉ zs.*1) as Hazs.
  { intros Hin. destruct (cells_of_shape _ _ _ Hc1 Hzs) as (o1 & _ & Hl1 & _).
    destruct (lseg_live _ _ _ _ _ Hl1 Hin) as [nd Hnd].
    rewrite (Hg2 a) in Hnd; [done|left]. }
  split_and!; [done|done| |].
  - intros q2 Hq2. rewrite <- (Hrest q2 Hq2).
    apply object_determined; [done|done| |by rewrite Hl].
    apply Hch. apply not_elem_of_cons. split; [done|apply not_elem_of_nil].
  - exists (zs ++ [(a, v)]). split_and!; [done| |].
    + intros b Hb. rewrite fmap_app in Hb.
      apply not_elem_of_app in Hb as [Hb1 Hb2].
      rewrite Hg1 by done. by apply Hsame.
    + intros b Hb. rewrite fmap_app in Hb.
      apply elem_of_app in Hb as [Hb|Hb]; [by apply Hfresh|].
      apply list_elem_of_singleton in Hb as ->. simpl.
      rewrite <- Hsame by done. apply Hg2. left.
Qed.

Lemma extends_removed σ σ1 q o a v nx xs :
  extends σ σ1 q → queues σ1 !! q = Some o →
  shape (nodes σ1) o ((a, v) :: xs) → nodes σ1 !! a = Some (mkNode v nx) →
  extends σ (removed σ1 q o a nx) q.
Proof.
  intros (Hwf1 & Hq & Hrest & zs & Hzs & Hsame & Hfresh) Ho Hsh Ha.
  rewrite (shape_cells_of _ _ _ _ Ho Hsh) in Hzs. injection Hzs as <-.
  destruct (wf_removed _ _ _ _ _ _ _ Hwf1 Ho Hsh Ha) as (Hwf2 & Hcells & _).
  split_and!; [done|done| |].
  - intros q2 Hq2. unfold removed. simpl.
    rewrite lookup_insert_ne by done. by apply Hrest.
  - exists xs. split_and!; [done| |].
    + intros b Hb. unfold removed. simpl.
      destruct (decide (b = a)) as [->|Hba].
      * rewrite lookup_delete_eq. symmetry. apply Hfresh. left.
      * rewrite lookup_delete_ne by done. apply Hsame.
        simpl. by apply not_elem_of_cons.
    + intros b Hb. apply Hfresh. simpl. by right.
Qed.

Lemma extends_do_call σ σ1 σ2 q (d : T) c :
  extends σ σ1 q → ends_in (do_call q d c) σ1 σ2 → extends σ σ2 q.
Proof.
  intros Hext Hend. pose proof Hext as (Hwf1 & _ & _ & zs & Hzs & _).
  pose proof (cells_of_is_Some _ _ _ Hzs) as Hq.
  destruct (wf_contents _ _ Hwf1 Hq) as [l Hl].
  assert (∀ {A B} (m : M A) (f : A → B) a,
            m σ1 = Ok a σ1 → ends_in (x ← m; mret (f x)) σ1 σ2 → σ2 = σ1)
    as Hsame.
  { intros A B m f a Hrun Hend'.
    apply ends_in_bind in Hend' as [(a' & σ' & Hrun' & Hret)|Hthrow];
      [|congruence].
    apply ends_in_ret in Hret. congruence. }
  assert (∀ {A B} (m : M A) (f : A → B) x o a nx xs,
            queues σ1 !! q = Some o → shape (nodes σ1) o ((a, x) :: xs) →
            nodes σ1 !! a = Some (mkNode x nx) →
            (∃ r, m σ1 = Ok r (removed σ1 q o a nx)) →
            ends_in (x ← m; mret (f x)) σ1 σ2 → extends σ σ2 q)
    as Hrem.
  { intros A B m f x o a nx xs Ho Hsh Ha [r Hrun] Hend'.
    apply ends_in_bind in Hend' as [(a' & σ' & Hrun' & Hret)|Hthrow];
      [|congruence].
    apply ends_in_ret in Hret. rewrite Hrun in Hrun'.
    injection Hrun' as _ <-. subst σ2. by eapply extends_removed. }
  destruct c as [v| |n|ws| | |]; simpl in Hend.
  - apply ends_in_bind in Hend as [(a' & σ' & Hrun' & Hret)|Hthrow].
    + apply ends_in_ret in Hret. subst σ2.
      eapply extends_push; [done|]. left. eauto.
    + eapply extends_push; [done|]. by right.
  - destruct l as [|x l].
    + destruct (wf_empty _ _ Hwf1 Hl) as (o & Ho & Hm & Hf & _).
      by rewrite (Hsame _ _ _ _ _ (try_pop_empty_run q o d σ1 Ho Hm Hf) Hend).
    + destruct (wf_front _ _ _ _ Hwf1 Hl)
        as (o & a & nx & xs & Ho & Hm & Hf & Ha & Hsh & _).
      refine (Hrem _ _ _ _ x o a nx xs Ho Hsh Ha _ Hend).
      eexists. by apply try_pop_run.
  - destruct l as [|x l].
    + destruct (wf_empty _ _ Hwf1 Hl) as (o & Ho & Hm & Hf & _).
      apply ends_in_bind in Hend as [(a' & σ' & Hrun' & _)|Hthrow].
      * rewrite (pop_idle_blocks q o d _ σ1 Ho Hm Hf) in Hrun'; [done|].
        by apply Forall_replicate.
      * rewrite (pop_idle_blocks q o d _ σ1 Ho Hm Hf) in Hthrow; [done|].
        by apply Forall_replicate.
    + destruct (wf_front _ _ _ _ Hwf1 Hl)
        as (o & a & nx & xs & Ho & Hm & Hf & Ha & Hsh & _).
      refine (Hrem _ _ _ _ x o a nx xs Ho Hsh Ha _ Hend).
      eexists. by apply pop_run.
  - destruct l as [|x l].
    + destruct (wf_empty _ _ Hwf1 Hl) as (o & Ho & Hm & Hf & _).
      assert (pop_for q d (spurious ws) σ1 = Ok (false, d) σ1) as Hrun.
      { rewrite (pop_for_timeout_run q o (spurious ws) σ1 _ d Ho Hm
                   (cv_wait_for_idle _ _ _ _ Ho Hm Hf (spurious_idle ws))).
        by rewrite after_wakeups_idle by apply spurious_idle. }
      by rewrite (Hsame _ _ _ _ _ Hrun Hend).
    + destruct (wf_front _ _ _ _ Hwf1 Hl)
        as (o & a & nx & xs & Ho & Hm & Hf & Ha & Hsh & _).
      refine (Hrem _ _ _ _ x o a nx xs Ho Hsh Ha _ Hend).
      eexists. by apply pop_for_run.
  - destruct l as [|x l].
    + destruct (wf_empty _ _ Hwf1 Hl) as (o & Ho & Hm & Hf & _).
      by rewrite (Hsame _ _ _ _ _ (try_peek_empty_run q o d σ1 Ho Hm Hf) Hend).
    + destruct (wf_front _ _ _ _ Hwf1 Hl)
        as (o & a & nx & xs & Ho & Hm & Hf & Ha & Hsh & _).
      by rewrite (Hsame _ _ _ _ _ (try_peek_run q o a x nx d σ1 Ho Hm Hf Ha) Hend).
  - destruct Hq as [o Ho].
    by rewrite (Hsame _ _ _ _ _
                  (size_run q o σ1 Ho (wf_unlocked_at _ _ _ Hwf1 Ho)) Hend).
  - destruct Hq as [o Ho].
    by rewrite (Hsame _ _ _ _ _
                  (empty_run q o σ1 Ho (wf_unlocked_at _ _ _ Hwf1 Ho)) Hend).
Qed.

Lemma extends_do_calls σ σ1 σ2 q (d : T) cs :
  extends σ σ1 q → ends_in (do_calls q d cs) σ1 σ2 → extends σ σ2 q.
Proof.
  revert σ1 d. induction cs as [|c cs IH]; intros σ1 d Hext Hend; simpl in Hend.
  - apply ends_in_ret in Hend. by subst.
  - apply ends_in_bind in Hend as [(r & σ' & Hrun & Hend)|Hthrow].
    + assert (extends σ σ' q) as Hext'.
      { eapply extends_do_call; [done|]. left. eauto. }
      apply ends_in_bind in Hend as [(rs & σ'' & Hrun' & Hret)|Hthrow].
      * apply ends_in_ret in Hret. subst σ2.
        eapply IH; [done|]. left. eauto.
      * eapply IH; [done|]. by right.
    + eapply extends_do_call; [done|]. by right.
Qed.

Lemma extends_destroy σ σ1 q :
  extends σ σ1 q → destroy q σ1 = Ok tt σ.
Proof.
  intros (Hwf1 & Hq & Hrest & zs & Hzs & Hsame & Hfresh).
  pose proof Hwf1 as [Hc1 _]%wf_coherent.
  destruct (cells_of_shape _ _ _ Hc1 Hzs) as (o & Ho & Hsh).
  rewrite (destroy_run q o zs σ1 Ho (proj1 Hsh)).
  f_equal. destruct σ as [h Q]. unfold destroyed. f_equal.
  - apply map_eq. intros a. rewrite lookup_foldr_delete.
    destruct (decide (a ∈ zs.*1)) as [Hin|Hin].
    + symmetry. by apply Hfresh.
    + by apply Hsame.
  - apply map_eq. intros q2. destruct (decide (q2 = q)) as [->|Hq2].
    + rewrite lookup_delete_eq. by simpl in Hq.
    + rewrite lookup_delete_ne by done. by apply Hrest.
Qed.

(** X15: a queue in a scope leaves no trace.  Whatever calls one thread
    makes on a queue between its construction and its destruction at the
    end of the scope, and whether the scope is left by return or by
    [std::bad_alloc], the store is afterwards exactly what it was before:
    every node is freed, no other queue is touched. *)
Theorem scoped_queue_leaves_no_trace σ q (d : T) cs σ' :
  wf σ → queues σ !! q = None →
  ends_in (scoped q (do_calls q d cs)) σ σ' → σ' = σ.
Proof.
  intros Hwf Hq Hend. unfold scoped in Hend.
  apply ends_in_bind in Hend as [([] & σ1 & Hcons & Hend)|Hthrow].
  2: { unfold construct in Hthrow. by rewrite Hq in Hthrow. }
  apply construct_inv_ok in Hcons as [_ ->].
  apply ends_in_finally in Hend as (σ2 & Hbody & Hdestroy).
  pose proof (extends_do_calls σ _ σ2 q d cs (extends_construct σ q Hwf Hq) Hbody)
    as Hext.
  by rewrite (ends_in_ok _ _ _ _ _ (extends_destroy σ σ2 q Hext) Hdestroy).
Qed.

End Scope.

(** ** The benchmark lists *)

Section Benchmarks.
Import benchmark_script.
Local Open Scope string_scope.

Lemma create_all_benchmarks_cases (p c e : Z) :
  (p = 1 ∧ c = 1 ∧
   create_all_benchmarks p c e =
   (add_queue_benchmarks (add_stack_benchmarks [] 1 1 e) 1 1 e ++
    [lock_free_queue_benchmark "moodycamel::ConcurrentQueue" 1 1 e;
     reader_writer_queue_benchmark "moodycamel::ReaderWriterQueue" e])%list)
  ∨
  (¬ (p = 1 ∧ c = 1) ∧
   create_all_benchmarks p c e =
   (add_queue_benchmarks (add_stack_benchmarks [] p c e) p c e ++
    [lock_free_queue_benchmark "moodycamel::ConcurrentQueue" p c e])%list).
Proof.
  unfold create_all_benchmarks, add_lockfree_benchmarks, emplace_back,
    single_producer, single_consumer.
  destruct (p =? 1)%Z eqn:Hp; destruct (c =? 1)%Z eqn:Hc; simpl.
  - apply Z.eqb_eq in Hp as ->. apply Z.eqb_eq in Hc as ->. left. done.
  - apply Z.eqb_neq in Hc. right. split; [by intros [_ ?]|done].
  - apply Z.eqb_neq in Hp. right. split; [by intros [? _]|done].
  - apply Z.eqb_neq in Hp. right. split; [by intros [? _]|done].
Qed.


(** X17: whatever the configuration, the benchmarks that
    [create_all_benchmarks] builds have pairwise different names, each is
    given the element count of the configuration, and each that takes
    thread counts is given those of the configuration. *)
Theorem benchmarks_are_named_apart_and_configured (p c e : Z) :
  NoDup (name_of <$> create_all_benchmarks p c e) ∧
  Forall (λ b, elem_count_of b = e ∧
               (thread_counts_of b = None ∨ thread_counts_of b = Some (p, c)))
    (create_all_benchmarks p c e).
Proof.
  destruct (create_all_benchmarks_cases p c e)
    as [(-> & -> & ->)|(Hne & ->)];
    unfold add_queue_benchmarks, add_stack_benchmarks,
      add_list_stack_benchmarks, add_vector_stack_benchmarks, emplace_back;
    simpl; (split; [by apply (bool_decide_unpack _)|]);
    repeat (apply Forall_cons; split; [split; [done|auto]|]);
    apply Forall_nil_2.
Qed.

End Benchmarks.

(** ** The properties at work on the small store *)

Section Witnesses.
#[local] Existing Instance bump_allocator.

Lemma fifo_order_witness :
  wf demo_empty ∧ contents demo_empty 1%N = Some [] ∧
  length demo_removers = length [10; 20; 30] ∧
  push_all 1%N [10; 20; 30] demo_empty = Ok tt demo_three ∧
  ((∀ e, push_all 1%N [10; 20; 30] demo_empty ≠ Stuck e) ∧
   ∀ σ1, push_all 1%N [10; 20; 30] demo_empty = Ok tt σ1 →
     ∃ σ2, remove_all 1%N 0 demo_removers σ1 =
             Ok (Some <$> [10; 20; 30]) σ2 ∧
           try_pop 1%N 0 σ2 = Ok (false, 0) σ2).
Proof.
  assert (wf demo_empty) as Hwf by (apply (bool_decide_unpack _); vm_compute; exact I).
  assert (contents demo_empty 1%N = Some []) as Hc by (vm_compute; reflexivity).
  assert (length demo_removers = length [10; 20; 30]) as Hl by reflexivity.
  assert (push_all 1%N [10; 20; 30] demo_empty = Ok tt demo_three) as Hp
    by (vm_compute; reflexivity).
  split; [exact Hwf|]. split; [exact Hc|]. split; [exact Hl|]. split; [exact Hp|].
  exact (fifo_order demo_empty 1%N [10; 20; 30] 0 demo_removers Hwf Hc Hl).
Defined.

Lemma invariant_preserved_witness :
  wf demo_two ∧
  ((∀ q o, queues demo_two !! q = Some o →
      structural_invariant (nodes demo_two) o) ∧
   (∀ q v σ', push q v demo_two = Ok tt σ' → wf σ') ∧
   (∀ q d r σ', try_pop q d demo_two = Ok r σ' → wf σ') ∧
   (∀ q d env r σ',
      Forall preserves_wf env → pop q d env demo_two = Ok r σ' → wf σ') ∧
   (∀ q d env r σ',
      Forall (λ w, preserves_wf (during w)) env →
      pop_for q d env demo_two = Ok r σ' → wf σ') ∧
   (∀ q d r σ', try_peek q d demo_two = Ok r σ' → wf σ') ∧
   (∀ this other σ', copy_ctor this other demo_two = Ok tt σ' → wf σ') ∧
   (∀ this other σ', move_ctor this other demo_two = Ok tt σ' → wf σ') ∧
   (∀ this other σ', copy_assign this other demo_two = Ok tt σ' → wf σ') ∧
   (∀ this other σ', move_assign this other demo_two = Ok tt σ' → wf σ') ∧
   (∀ this σ', construct this demo_two = Ok tt σ' → wf σ')).
Proof.
  assert (wf demo_two) as Hwf by (apply (bool_decide_unpack _); vm_compute; exact I).
  split; [exact Hwf|]. exact (invariant_preserved demo_two Hwf).
Defined.

Lemma try_pop_on_empty_witness :
  wf demo_empty ∧ contents demo_empty 1%N = Some [] ∧
  (try_pop 1%N 0 demo_empty = Ok (false, 0) demo_empty ∧
   size 1%N demo_empty = Ok 0 demo_empty ∧
   ∀ (σ' : store Z) v, try_pop 1%N v σ' ≠ Stuck Blocked).
Proof.
  assert (wf demo_empty) as Hwf by (apply (bool_decide_unpack _); vm_compute; exact I).
  assert (contents demo_empty 1%N = Some []) as Hc by (vm_compute; reflexivity).
  split; [exact Hwf|]. split; [exact Hc|].
  exact (try_pop_on_empty demo_empty 1%N 0 Hwf Hc).
Defined.

Lemma timed_pop_timeout_witness :
  wf demo_empty ∧ contents demo_empty 1%N = Some [] ∧
  Forall idle demo_wakeups ∧
  pop_for 1%N 0 demo_wakeups demo_empty = Ok (false, 0) demo_empty.
Proof.
  assert (wf demo_empty) as Hwf by (apply (bool_decide_unpack _); vm_compute; exact I).
  assert (contents demo_empty 1%N = Some []) as Hc by (vm_compute; reflexivity).
  assert (Forall idle demo_wakeups) as Hi.
  { repeat constructor. }
  split; [exact Hwf|]. split; [exact Hc|]. split; [exact Hi|].
  exact (proj2 (proj2 (timed_pop_timeout demo_empty 1%N 0 demo_wakeups))
           Hwf Hc Hi).
Defined.

Lemma removal_paths_agree_witness :
  wf demo_three ∧ contents demo_three 1%N = Some (10 :: [20; 30]) ∧
  ∃ σ' o o',
    try_pop 1%N 0 demo_three = Ok (true, 10) σ' ∧
    pop 1%N 0 [] demo_three = Ok 10 σ' ∧
    pop_for 1%N 0 [] demo_three = Ok (true, 10) σ' ∧
    wf σ' ∧ contents σ' 1%N = Some [20; 30] ∧
    queues demo_three !! 1%N = Some o ∧ queues σ' !! 1%N = Some o' ∧
    size_ o' = size_ o - 1 ∧ ([20; 30] = [] → rear_ o' = None).
Proof.
  assert (wf demo_three) as Hwf by (apply (bool_decide_unpack _); vm_compute; exact I).
  assert (contents demo_three 1%N = Some (10 :: [20; 30])) as Hc
    by (vm_compute; reflexivity).
  split; [exact Hwf|]. split; [exact Hc|].
  exact (removal_paths_agree demo_three 1%N 10 [20; 30] 0 [] [] Hwf Hc).
Defined.

Lemma move_transfers_witness :
  wf demo_two ∧ contents demo_two 1%N = Some [10; 20; 30] ∧
  queues demo_two !! 3%N = None ∧
  is_Some (queues demo_two !! 2%N) ∧ 2%N ≠ 1%N ∧
  (∃ σ', move_ctor 3%N 1%N demo_two = Ok tt σ' ∧ wf σ' ∧
         contents σ' 3%N = Some [10; 20; 30] ∧ contents σ' 1%N = Some [] ∧
         queues σ' !! 1%N = Some (mkQueue None None 0 false)) ∧
  (∃ σ', move_assign 2%N 1%N demo_two = Ok tt σ' ∧ wf σ' ∧
         contents σ' 2%N = Some [10; 20; 30] ∧ contents σ' 1%N = Some [] ∧
         queues σ' !! 1%N = Some (mkQueue None None 0 false)).
Proof.
  assert (wf demo_two) as Hwf by (apply (bool_decide_unpack _); vm_compute; exact I).
  assert (contents demo_two 1%N = Some [10; 20; 30]) as Hc
    by (vm_compute; reflexivity).
  assert (queues demo_two !! 3%N = None) as H3 by (vm_compute; reflexivity).
  assert (is_Some (queues demo_two !! 2%N)) as H2
    by (vm_compute; eexists; reflexivity).
  assert (2%N ≠ 1%N) as Hne by (intros Heq; discriminate Heq).
  split; [exact Hwf|]. split; [exact Hc|]. split; [exact H3|].
  split; [exact H2|]. split; [exact Hne|]. split.
  - exact (proj1 (move_transfers demo_two 3%N 1%N [10; 20; 30] Hwf Hc) H3).
  - exact (proj2 (move_transfers demo_two 2%N 1%N [10; 20; 30] Hwf Hc) H2 Hne).
Defined.


Lemma try_peek_spec_witness :
  wf demo_three ∧
  ((∀ x l, contents demo_three 1%N = Some (x :: l) →
      try_peek 1%N 0 demo_three = Ok (true, x) demo_three ∧
      ∃ σ', try_pop 1%N 0 demo_three = Ok (true, x) σ' ∧
            pop 1%N 0 [] demo_three = Ok x σ' ∧
            pop_for 1%N 0 [] demo_three = Ok (true, x) σ') ∧
   (contents demo_three 1%N = Some [] →
      try_peek 1%N 0 demo_three = Ok (false, 0) demo_three)).
Proof.
  assert (wf demo_three) as Hwf by (apply (bool_decide_unpack _); vm_compute; exact I).
  split; [exact Hwf|].
  exact (try_peek_spec demo_three 1%N 0 0 [] [] Hwf).
Defined.

Lemma failed_call_keeps_value_witness :
  try_pop 1%N 5 demo_empty = Ok (false, 5) demo_empty ∧
  pop_for 1%N 5 demo_wakeups demo_empty = Ok (false, 5) demo_empty ∧
  try_peek 1%N 5 demo_empty = Ok (false, 5) demo_empty ∧
  5 = 5.
Proof.
  assert (try_pop 1%N 5 demo_empty = Ok (false, 5) demo_empty) as H1
    by (vm_compute; reflexivity).
  assert (pop_for 1%N 5 demo_wakeups demo_empty = Ok (false, 5) demo_empty) as H2
    by (vm_compute; reflexivity).
  assert (try_peek 1%N 5 demo_empty = Ok (false, 5) demo_empty) as H3
    by (vm_compute; reflexivity).
  split; [exact H1|]. split; [exact H2|]. split; [exact H3|].
  exact (proj1 (failed_call_keeps_value demo_empty 1%N 5 5 demo_wakeups demo_empty)
           H1).
Defined.

End Witnesses.

(** ** The further properties at work on the small stores *)

Section MoreWitnesses.
#[local] Existing Instance bump_allocator.

Ltac by_computation := vm_compute; reflexivity.
Ltac wf_by_computation := apply (bool_decide_unpack _); vm_compute; exact I.

(** Conclude with a statement that is typed on its own first. *)
Ltac conclude H := let X := fresh in pose proof H as X; exact X.

Lemma size_and_empty_observe_witness :
  wf demo_three ∧ contents demo_three 1%N = Some [10; 20; 30] ∧
  size 1%N demo_three = Ok 3 demo_three ∧
  empty 1%N demo_three = Ok false demo_three.
Proof.
  assert (wf demo_three) as Hwf by wf_by_computation.
  assert (contents demo_three 1%N = Some [10; 20; 30]) as Hc by by_computation.
  split; [exact Hwf|]. split; [exact Hc|].
  conclude (size_and_empty_observe demo_three 1%N [10; 20; 30] Hwf Hc).
Defined.

Lemma push_appends_or_changes_nothing_witness :
  (wf demo_three ∧ contents demo_three 1%N = Some [10; 20; 30] ∧
   alloc (dom (nodes demo_three)) = Some 4%N ∧
   match alloc (dom (nodes demo_three)) with
   | Some a =>
       ∃ σ', push 1%N 40 demo_three = Ok tt σ' ∧ wf σ' ∧
             contents σ' 1%N = Some ([10; 20; 30] ++ [40]) ∧
             size 1%N σ' = Ok (Z.of_nat (length [10; 20; 30]) + 1) σ' ∧
             nodes σ' !! a = Some (mkNode 40 None) ∧
             ∀ q2 : qid, q2 ≠ 1%N → undisturbed q2 demo_three σ'
   | None => push 1%N 40 demo_three = BadAlloc demo_three
   end) ∧
  (wf demo_full ∧ contents demo_full 1%N = Some [10] ∧
   alloc (dom (nodes demo_full)) = None ∧
   match alloc (dom (nodes demo_full)) with
   | Some a =>
       ∃ σ', push 1%N 40 demo_full = Ok tt σ' ∧ wf σ' ∧
             contents σ' 1%N = Some ([10] ++ [40]) ∧
             size 1%N σ' = Ok (Z.of_nat (length [10]) + 1) σ' ∧
             nodes σ' !! a = Some (mkNode 40 None) ∧
             ∀ q2 : qid, q2 ≠ 1%N → undisturbed q2 demo_full σ'
   | None => push 1%N 40 demo_full = BadAlloc demo_full
   end).
Proof.
  assert (wf demo_three) as Hwf by wf_by_computation.
  assert (contents demo_three 1%N = Some [10; 20; 30]) as Hc by by_computation.
  assert (alloc (dom (nodes demo_three)) = Some 4%N) as Ha by by_computation.
  assert (wf demo_full) as Hwf' by wf_by_computation.
  assert (contents demo_full 1%N = Some [10]) as Hc' by by_computation.
  assert (alloc (dom (nodes demo_full)) = None) as Ha' by by_computation.
  split.
  - split; [exact Hwf|]. split; [exact Hc|]. split; [exact Ha|].
    conclude (push_appends_or_changes_nothing demo_three 1%N [10; 20; 30] 40 Hwf Hc).
  - split; [exact Hwf'|]. split; [exact Hc'|]. split; [exact Ha'|].
    conclude (push_appends_or_changes_nothing demo_full 1%N [10] 40 Hwf' Hc').
Defined.

Lemma push_try_pop_round_trip_witness :
  wf demo_empty ∧ contents demo_empty 1%N = Some [] ∧
  push 1%N 10 demo_empty = Ok tt demo_one ∧
  try_pop 1%N 0 demo_one = Ok (true, 10) demo_empty.
Proof.
  assert (wf demo_empty) as Hwf by wf_by_computation.
  assert (contents demo_empty 1%N = Some []) as Hc by by_computation.
  assert (push 1%N 10 demo_empty = Ok tt demo_one) as Hp by by_computation.
  split; [exact Hwf|]. split; [exact Hc|]. split; [exact Hp|].
  conclude (push_try_pop_round_trip demo_empty 1%N 10 0 demo_one Hwf Hc Hp).
Defined.

Lemma pop_waits_for_a_producer_witness :
  wf demo_empty ∧ contents demo_empty 1%N = Some [] ∧
  Forall (λ ev : store Z → store Z, ∀ s, ev s = s) [id; id] ∧
  pop 1%N 0 [id; id] demo_empty = Stuck Blocked.
Proof.
  assert (wf demo_empty) as Hwf by wf_by_computation.
  assert (contents demo_empty 1%N = Some []) as Hc by by_computation.
  assert (Forall (λ ev : store Z → store Z, ∀ s, ev s = s) [id; id]) as Hi.
  { repeat constructor. }
  split; [exact Hwf|]. split; [exact Hc|]. split; [exact Hi|].
  conclude (pop_waits_for_a_producer demo_empty 1%N 0 [id; id] Hwf Hc Hi).
Defined.

Lemma pop_wakes_up_to_the_new_state_witness :
  wf demo_empty ∧ contents demo_empty 1%N = Some [] ∧
  wf (demo_producer demo_empty) ∧
  is_Some (queues (demo_producer demo_empty) !! 1%N) ∧
  contents (demo_producer demo_empty) 1%N = Some (10 :: [20; 30]) ∧
  pop 1%N 0 [demo_producer] demo_empty = pop 1%N 0 [] (demo_producer demo_empty) ∧
  ∃ σ', pop 1%N 0 [demo_producer] demo_empty = Ok 10 σ' ∧ wf σ' ∧
        contents σ' 1%N = Some [20; 30].
Proof.
  assert (wf demo_empty) as Hwf by wf_by_computation.
  assert (contents demo_empty 1%N = Some []) as Hc by by_computation.
  assert (wf (demo_producer demo_empty)) as Hwf' by wf_by_computation.
  assert (is_Some (queues (demo_producer demo_empty) !! 1%N)) as Hq
    by (vm_compute; eexists; reflexivity).
  assert (contents (demo_producer demo_empty) 1%N = Some (10 :: [20; 30])) as Hc'
    by by_computation.
  split; [exact Hwf|]. split; [exact Hc|]. split; [exact Hwf'|].
  split; [exact Hq|]. split; [exact Hc'|]. split.
  - conclude (proj1 (pop_wakes_up_to_the_new_state demo_empty 1%N 0 demo_producer []
                    Hwf Hc Hwf' Hq)).
  - conclude (proj2 (pop_wakes_up_to_the_new_state demo_empty 1%N 0 demo_producer []
                    Hwf Hc Hwf' Hq) 10 [20; 30] Hc').
Defined.

Lemma timed_pop_is_try_pop_at_the_deadline_witness :
  wf demo_empty ∧ is_Some (queues demo_empty !! 1%N) ∧
  contents demo_empty 1%N = Some [] ∧
  wf (demo_producer demo_empty) ∧
  is_Some (queues (demo_producer demo_empty) !! 1%N) ∧
  pop_for 1%N 0 [] demo_empty = try_pop 1%N 0 demo_empty ∧
  pop_for 1%N 0 (mkWakeup demo_producer true :: []) demo_empty =
    try_pop 1%N 0 (demo_producer demo_empty) ∧
  pop_for 1%N 0 (mkWakeup demo_producer false :: []) demo_empty =
    pop_for 1%N 0 [] (demo_producer demo_empty).
Proof.
  assert (wf demo_empty) as Hwf by wf_by_computation.
  assert (is_Some (queues demo_empty !! 1%N)) as Hq0
    by (vm_compute; eexists; reflexivity).
  assert (contents demo_empty 1%N = Some []) as Hc by by_computation.
  assert (wf (demo_producer demo_empty)) as Hwf' by wf_by_computation.
  assert (is_Some (queues (demo_producer demo_empty) !! 1%N)) as Hq
    by (vm_compute; eexists; reflexivity).
  split; [exact Hwf|]. split; [exact Hq0|]. split; [exact Hc|].
  split; [exact Hwf'|]. split; [exact Hq|]. split.
  - conclude (proj1 (timed_pop_is_try_pop_at_the_deadline demo_empty 1%N 0
                    demo_producer [] Hwf Hq0)).
  - conclude (proj2 (timed_pop_is_try_pop_at_the_deadline demo_empty 1%N 0
                    demo_producer [] Hwf Hq0) Hc Hwf' Hq).
Defined.

Lemma move_construction_steals_the_chain_witness :
  wf demo_two ∧ queues demo_two !! 3%N = None ∧
  queues demo_two !! 1%N = Some (mkQueue (Some 1%N) (Some 3%N) 3 false) ∧
  ∃ σ', move_ctor 3%N 1%N demo_two = Ok tt σ' ∧
        nodes σ' = nodes demo_two ∧
        queues σ' !! 3%N = Some (mkQueue (Some 1%N) (Some 3%N) 3 false) ∧
        queues σ' !! 1%N = Some (mkQueue None None 0 false) ∧
        ∀ q : qid, q ≠ 3%N → q ≠ 1%N → queues σ' !! q = queues demo_two !! q.
Proof.
  assert (wf demo_two) as Hwf by wf_by_computation.
  assert (queues demo_two !! 3%N = None) as H3 by by_computation.
  assert (queues demo_two !! 1%N =
          Some (mkQueue (Some 1%N) (Some 3%N) 3 false)) as H1 by by_computation.
  split; [exact Hwf|]. split; [exact H3|]. split; [exact H1|].
  conclude (move_construction_steals_the_chain demo_two 3%N 1%N _ Hwf H3 H1).
Defined.

Lemma move_assignment_is_destroy_then_move_witness :
  wf demo_two ∧ 2%N ≠ 1%N ∧ cells_of demo_two 2%N = Some [(4%N, 70)] ∧
  is_Some (queues demo_two !! 1%N) ∧
  ∃ σ', move_assign 2%N 1%N demo_two = Ok tt σ' ∧
        (destroy 2%N;; move_ctor 2%N 1%N) demo_two = Ok tt σ' ∧
        ∀ a, nodes σ' !! a =
             if decide (a ∈ [(4%N, 70)].*1) then None
             else nodes demo_two !! a.
Proof.
  assert (wf demo_two) as Hwf by wf_by_computation.
  assert (2%N ≠ 1%N) as Hne by (intros Heq; discriminate Heq).
  assert (cells_of demo_two 2%N = Some [(4%N, 70)]) as Hc by by_computation.
  assert (is_Some (queues demo_two !! 1%N)) as Hq
    by (vm_compute; eexists; reflexivity).
  split; [exact Hwf|]. split; [exact Hne|]. split; [exact Hc|].
  split; [exact Hq|].
  conclude (move_assignment_is_destroy_then_move demo_two 2%N 1%N [(4%N, 70)]
           Hwf Hne Hc Hq).
Defined.

Lemma destructor_frees_the_chain_witness :
  wf demo_two ∧ cells_of demo_two 2%N = Some [(4%N, 70)] ∧
  ∃ σ', destroy 2%N demo_two = Ok tt σ' ∧ wf σ' ∧ queues σ' !! 2%N = None ∧
        (∀ a, nodes σ' !! a =
              if decide (a ∈ [(4%N, 70)].*1) then None
              else nodes demo_two !! a) ∧
        (∀ q2 : qid, q2 ≠ 2%N → undisturbed q2 demo_two σ') ∧
        (no_leak demo_two → no_leak σ').
Proof.
  assert (wf demo_two) as Hwf by wf_by_computation.
  assert (cells_of demo_two 2%N = Some [(4%N, 70)]) as Hc by by_computation.
  split; [exact Hwf|]. split; [exact Hc|].
  conclude (destructor_frees_the_chain demo_two 2%N [(4%N, 70)] Hwf Hc).
Defined.

Lemma alone_with_the_queue_it_is_a_list_witness :
  wf demo_empty ∧ contents demo_empty 1%N = Some [] ∧
  list_calls [] 0 demo_calls =
    Some ([Done; Done; Count 2; Flag true; Flag true; Done; Flag true;
           Flag false; Flag false], 20, []) ∧
  match list_calls [] 0 demo_calls with
  | Some (rs, d', l') =>
      wp (do_calls 1%N 0 demo_calls)
        (λ x σ', x = (rs, d') ∧ wf σ' ∧ contents σ' 1%N = Some l')
        (λ σ', wf σ') demo_empty
  | None =>
      do_calls 1%N 0 demo_calls demo_empty = Stuck Blocked ∨
      ∃ σ', do_calls 1%N 0 demo_calls demo_empty = BadAlloc σ' ∧ wf σ'
  end.
Proof.
  assert (wf demo_empty) as Hwf by wf_by_computation.
  assert (contents demo_empty 1%N = Some []) as Hc by by_computation.
  split; [exact Hwf|]. split; [exact Hc|]. split; [by_computation|].
  conclude (alone_with_the_queue_it_is_a_list demo_empty 1%N [] 0 demo_calls Hwf Hc).
Defined.

Lemma copy_construction_is_all_or_nothing_witness :
  wf demo_three ∧ queues demo_three !! 2%N = None ∧
  contents demo_three 1%N = Some [10; 20; 30] ∧
  wp (copy_ctor 2%N 1%N)
    (λ _ σ', contents σ' 2%N = Some [10; 20; 30] ∧
             ∀ a nd, nodes demo_three !! a = Some nd → nodes σ' !! a = Some nd)
    (λ σ', σ' = demo_three) demo_three.
Proof.
  assert (wf demo_three) as Hwf by wf_by_computation.
  assert (queues demo_three !! 2%N = None) as H2 by by_computation.
  assert (contents demo_three 1%N = Some [10; 20; 30]) as Hc by by_computation.
  split; [exact Hwf|]. split; [exact H2|]. split; [exact Hc|].
  conclude (copy_construction_is_all_or_nothing demo_three 2%N 1%N [10; 20; 30]
           Hwf H2 Hc).
Defined.

Lemma copy_assignment_keeps_a_prefix_witness :
  wf demo_full ∧ 2%N ≠ 1%N ∧
  contents demo_full 2%N = Some [70] ∧ contents demo_full 1%N = Some [10] ∧
  copy_assign 2%N 1%N demo_full = BadAlloc demo_full_cleared ∧
  wf demo_full_cleared ∧ undisturbed 1%N demo_full demo_full_cleared ∧
  ∃ l1 v l2, [10] = l1 ++ v :: l2 ∧ contents demo_full_cleared 2%N = Some l1.
Proof.
  assert (wf demo_full) as Hwf by wf_by_computation.
  assert (2%N ≠ 1%N) as Hne by (intros Heq; discriminate Heq).
  assert (contents demo_full 2%N = Some [70]) as H2 by by_computation.
  assert (contents demo_full 1%N = Some [10]) as H1 by by_computation.
  assert (copy_assign 2%N 1%N demo_full = BadAlloc demo_full_cleared) as Hrun
    by by_computation.
  split; [exact Hwf|]. split; [exact Hne|]. split; [exact H2|].
  split; [exact H1|]. split; [exact Hrun|].
  conclude (copy_assignment_keeps_a_prefix demo_full 2%N 1%N [70] [10]
           demo_full_cleared Hwf Hne H2 H1 Hrun).
Defined.

Lemma no_member_function_leaks_witness :
  wf demo_two ∧ no_leak demo_two ∧
  (∀ σ', ends_in (push 1%N 40) demo_two σ' → no_leak σ') ∧
  (∀ σ', ends_in (copy_assign 2%N 1%N) demo_two σ' → no_leak σ') ∧
  (∀ σ', ends_in (destroy 1%N) demo_two σ' → no_leak σ').
Proof.
  assert (wf demo_two) as Hwf by wf_by_computation.
  assert (no_leak demo_two) as Hnl by wf_by_computation.
  assert (is_Some (queues demo_two !! 1%N)) as H1
    by (vm_compute; eexists; reflexivity).
  assert (is_Some (queues demo_two !! 2%N)) as H2
    by (vm_compute; eexists; reflexivity).
  pose proof (no_member_function_leaks demo_two Hwf Hnl)
    as (Hpush & _ & _ & _ & _ & _ & Hcopy & _ & Hdestroy).
  split; [exact Hwf|]. split; [exact Hnl|]. split; [|split].
  - intros σ'. exact (Hpush 1%N 40 σ' H1).
  - intros σ'. exact (Hcopy 2%N 1%N σ' H2 H1).
  - intros σ'. exact (Hdestroy 1%N σ' H1).
Defined.


Lemma scoped_queue_leaves_no_trace_witness :
  wf demo_three ∧ queues demo_three !! 2%N = None ∧
  ends_in (scoped 2%N (do_calls 2%N 0 demo_calls)) demo_three demo_three ∧
  demo_three = demo_three.
Proof.
  assert (wf demo_three) as Hwf by wf_by_computation.
  assert (queues demo_three !! 2%N = None) as H2 by by_computation.
  assert (ends_in (scoped 2%N (do_calls 2%N 0 demo_calls)) demo_three demo_three)
    as Hend.
  { left. eexists. by_computation. }
  split; [exact Hwf|]. split; [exact H2|]. split; [exact Hend|].
  conclude (scoped_queue_leaves_no_trace demo_three 2%N 0 demo_calls demo_three
           Hwf H2 Hend).
Defined.

End MoreWitnesses.
